(** * librsync [enc.c]: combined encode and sign

    A shallow embedding of [hs_encode] and of the static helpers of
    [enc.c].  C [int]s and [uint32_t]s are integers of [Z]; the wrap-around
    of the 32-bit checksum accumulators is written out with [u32], while
    cursors, offsets and counters are taken to stay within an [int].
    Buffers are lists of byte values.  The encoder's mutable locals are
    gathered in the record [enc_t] and threaded through the loop
    explicitly; the two loops run on fuel.  The release of the buffers on
    the way out is not part of the model. *)

From Stdlib Require Import ZArith List Lia Bool Sorted.
Import ListNotations.
Local Open Scope Z_scope.

(** ** Machine integers and buffers *)

(** A value stored into a [uint32_t]. *)
Definition u32 (x : Z) : Z := x mod 2 ^ 32.

(** A [uint32_t] stored into an [int] (two's complement). *)
Definition to_int (x : Z) : Z := if x <? 2 ^ 31 then x else x - 2 ^ 32.

(** [buf + off], [n] bytes. *)
Definition sub (l : list Z) (off n : Z) : list Z :=
  firstn (Z.to_nat n) (skipn (Z.to_nat off) l).

(** [buf[i]]. *)
Definition byte_at (l : list Z) (i : Z) : Z := nth (Z.to_nat i) l 0.

Definition zlen (l : list Z) : Z := Z.of_nat (length l).

(** Four bytes in network byte order. *)
Definition netlong (v : Z) : list Z :=
  [ Z.shiftr (u32 v) 24; Z.land (Z.shiftr (u32 v) 16) 255;
    Z.land (Z.shiftr (u32 v) 8) 255; Z.land (u32 v) 255 ].

Definition of_netlong (bs : list Z) : Z :=
  fold_left (fun acc b => acc * 256 + b) bs 0.

(** ** Byte sources ([rs_read_fn_t])

    A source holds the bytes still to come.  A read asks for at most [max]
    bytes and gets between one byte and [max] bytes while data remain, and
    nothing at the end of the data.  [caps] lists, read by read, how many
    bytes the callback is willing to hand over at once (a pipe or a socket
    returns short counts); once the list is used up every read is served in
    full.  Read errors (negative counts) are not modelled. *)

Record stream := { data : list Z; caps : list nat }.

Definition whole (bs : list Z) : stream := {| data := bs; caps := [] |}.

Definition stream_count (max : Z) (s : stream) : Z :=
  let avail := Z.min max (zlen (data s)) in
  match caps s with
  | [] => avail
  | c :: _ => Z.min avail (Z.max 1 (Z.of_nat c))
  end.

Definition stream_read (max : Z) (s : stream) : list Z * stream :=
  let n := Z.to_nat (stream_count max s) in
  (firstn n (data s), {| data := skipn n (data s); caps := tl (caps s) |}).

(** ** The output sink ([rs_write_fn_t])

    The token stream is kept at the level of commands: the tag and length
    encodings belong to the emit layer.  [quota] bounds the number of writes
    the sink accepts ([None]: no bound); a refused write returns [-1] and
    leaves the sink as it was. *)

Inductive cmd :=
| Magic (v : Z)
| Literal (bs : list Z)
| Signature (bs : list Z)
| Copy (offset length : Z)
| Eof.

Record sink := { written : list cmd; quota : option nat }.

Definition sink_write (ok : Z) (c : cmd) (k : sink) : Z * sink :=
  match quota k with
  | Some O => (-1, k)
  | Some (S q) => (ok, {| written := written k ++ [c]; quota := Some q |})
  | None => (ok, {| written := written k ++ [c]; quota := None |})
  end.

(** ** Records of [private.h] *)

Record rollsum_t := { havesum : bool; weak_sum : Z; s1 : Z; s2 : Z }.

Record inbuf_t :=
  { buf : list Z; len : Z; amount : Z; cursor : Z; abspos : Z }.

Record hs_stats_t :=
  { lit_cmds : Z; lit_bytes : Z; sig_cmds : Z; sig_bytes : Z;
    copy_cmds : Z; copy_bytes : Z }.

Definition stats_zero : hs_stats_t :=
  {| lit_cmds := 0; lit_bytes := 0; sig_cmds := 0; sig_bytes := 0;
     copy_cmds := 0; copy_bytes := 0 |}.

Definition set_cursor (c : Z) (b : inbuf_t) : inbuf_t :=
  {| buf := buf b; len := len b; amount := amount b; cursor := c;
     abspos := abspos b |}.

Definition invalidate (r : rollsum_t) : rollsum_t :=
  {| havesum := false; weak_sum := weak_sum r; s1 := s1 r; s2 := s2 r |}.

(** ** The rolling checksum *)

Section Rollsum.

Variable CHAR_OFFSET : Z.

(** Modelled from the spec: [_hs_calc_weak_sum] is not part of [enc.c].  The
    two accumulators are unsigned 32-bit running sums,
    [s1 = sum (byte + offset)] and [s2 = sum of the partial s1], combined as
    [s1 | (s2 << 16)]. *)
Fixpoint weak_acc (bs : list Z) (a1 a2 : Z) : Z * Z :=
  match bs with
  | [] => (a1, a2)
  | b :: r =>
      let a1' := u32 (a1 + (b + CHAR_OFFSET)) in
      weak_acc r a1' (u32 (a2 + a1'))
  end.

Definition _hs_calc_weak_sum (bs : list Z) : Z :=
  let '(a1, a2) := weak_acc bs 0 0 in
  u32 (Z.lor a1 (Z.shiftl a2 16)).

(** [_hs_update_sums]; [None] is the failed [assert (pos >= 0)]. *)
Definition _hs_update_sums (inbuf : inbuf_t) (this_block_len : Z)
    (rollsum : rollsum_t) : option rollsum_t :=
  if negb (havesum rollsum) then
    let w := _hs_calc_weak_sum (sub (buf inbuf) (cursor inbuf) this_block_len) in
    Some {| havesum := true; weak_sum := w;
            s1 := Z.land w 65535; s2 := Z.shiftr w 16 |}
  else
    let pos := cursor inbuf + this_block_len - 1 in
    if pos <? 0 then None
    else if pos <=? amount inbuf then
      let s1' := u32 (s1 rollsum + (byte_at (buf inbuf) pos + CHAR_OFFSET)) in
      let s2' := u32 (s2 rollsum + s1') in
      Some {| havesum := true; weak_sum := u32 (s1' + Z.shiftl s2' 16);
              s1 := s1'; s2 := s2' |}
    else Some rollsum.

(** [_hs_roll_sums] *)
Definition _hs_roll_sums (inbuf : inbuf_t) (rollsum : rollsum_t)
    (block_len : Z) : rollsum_t :=
  let c := byte_at (buf inbuf) (cursor inbuf) + CHAR_OFFSET in
  {| havesum := havesum rollsum; weak_sum := weak_sum rollsum;
     s1 := u32 (s1 rollsum - c);
     s2 := u32 (s2 rollsum - block_len * c) |}.

(** The checksum state reached at window position [i] of [bs] by starting at
    position 0 and moving one byte at a time: [_hs_update_sums], then [i]
    times [_hs_roll_sums], [cursor++], [_hs_update_sums]. *)
Definition window (bs : list Z) (c : Z) : inbuf_t :=
  {| buf := bs; len := zlen bs; amount := zlen bs; cursor := c; abspos := 0 |}.

Definition rollsum_init : rollsum_t :=
  {| havesum := false; weak_sum := 0; s1 := 0; s2 := 0 |}.

Fixpoint roll_from (bs : list Z) (b : Z) (c : Z) (n : nat)
    (r : rollsum_t) : option rollsum_t :=
  match n with
  | O => Some r
  | S n' =>
      let r1 := _hs_roll_sums (window bs c) r b in
      match _hs_update_sums (window bs (c + 1)) b r1 with
      | Some r2 => roll_from bs b (c + 1) n' r2
      | None => None
      end
  end.

Definition roll_to (bs : list Z) (b : Z) (i : nat) : option rollsum_t :=
  match _hs_update_sums (window bs 0) b rollsum_init with
  | Some r0 => roll_from bs b 0 i r0
  | None => None
  end.

End Rollsum.

(** ** The encoder *)

Inductive hs_op := op_literal_1 | op_signature_1.

(** What the run did, in the order it did it: the calls of
    [_hs_output_block_hash] (absolute position, weak sum written, bytes
    handed to [_hs_calc_strong_sum]) and of [_hs_find_match] (the loop mode,
    window state, block length tried and token returned).  The source logs
    both through [_hs_trace]. *)
Inductive event :=
| EvBlockHash (pos weak : Z) (hashed : list Z)
| EvMatch (eof : bool) (base cur amt this_len token : Z).

(** The locals of [hs_encode] together with the objects behind its
    callbacks. *)
Record enc_t :=
  { stats : hs_stats_t;
    out : sink;
    upstream : stream;
    rollsum : rollsum_t;
    inbuf : inbuf_t;
    block_len : Z;
    new_block_len : Z;
    sig_tmpbuf : list Z;
    lit_tmpbuf : list Z;
    at_eof : bool;
    trace : list event }.

Definition with_stats (x : hs_stats_t) (e : enc_t) : enc_t :=
  {| stats := x; out := out e; upstream := upstream e; rollsum := rollsum e;
     inbuf := inbuf e; block_len := block_len e;
     new_block_len := new_block_len e; sig_tmpbuf := sig_tmpbuf e;
     lit_tmpbuf := lit_tmpbuf e; at_eof := at_eof e; trace := trace e |}.

Definition with_out (x : sink) (e : enc_t) : enc_t :=
  {| stats := stats e; out := x; upstream := upstream e; rollsum := rollsum e;
     inbuf := inbuf e; block_len := block_len e;
     new_block_len := new_block_len e; sig_tmpbuf := sig_tmpbuf e;
     lit_tmpbuf := lit_tmpbuf e; at_eof := at_eof e; trace := trace e |}.

Definition with_upstream (x : stream) (e : enc_t) : enc_t :=
  {| stats := stats e; out := out e; upstream := x; rollsum := rollsum e;
     inbuf := inbuf e; block_len := block_len e;
     new_block_len := new_block_len e; sig_tmpbuf := sig_tmpbuf e;
     lit_tmpbuf := lit_tmpbuf e; at_eof := at_eof e; trace := trace e |}.

Definition with_rollsum (x : rollsum_t) (e : enc_t) : enc_t :=
  {| stats := stats e; out := out e; upstream := upstream e; rollsum := x;
     inbuf := inbuf e; block_len := block_len e;
     new_block_len := new_block_len e; sig_tmpbuf := sig_tmpbuf e;
     lit_tmpbuf := lit_tmpbuf e; at_eof := at_eof e; trace := trace e |}.

Definition with_inbuf (x : inbuf_t) (e : enc_t) : enc_t :=
  {| stats := stats e; out := out e; upstream := upstream e;
     rollsum := rollsum e; inbuf := x; block_len := block_len e;
     new_block_len := new_block_len e; sig_tmpbuf := sig_tmpbuf e;
     lit_tmpbuf := lit_tmpbuf e; at_eof := at_eof e; trace := trace e |}.

Definition with_block_len (x y : Z) (e : enc_t) : enc_t :=
  {| stats := stats e; out := out e; upstream := upstream e;
     rollsum := rollsum e; inbuf := inbuf e; block_len := x;
     new_block_len := y; sig_tmpbuf := sig_tmpbuf e;
     lit_tmpbuf := lit_tmpbuf e; at_eof := at_eof e; trace := trace e |}.

Definition with_sig_tmpbuf (x : list Z) (e : enc_t) : enc_t :=
  {| stats := stats e; out := out e; upstream := upstream e;
     rollsum := rollsum e; inbuf := inbuf e; block_len := block_len e;
     new_block_len := new_block_len e; sig_tmpbuf := x;
     lit_tmpbuf := lit_tmpbuf e; at_eof := at_eof e; trace := trace e |}.

Definition with_lit_tmpbuf (x : list Z) (e : enc_t) : enc_t :=
  {| stats := stats e; out := out e; upstream := upstream e;
     rollsum := rollsum e; inbuf := inbuf e; block_len := block_len e;
     new_block_len := new_block_len e; sig_tmpbuf := sig_tmpbuf e;
     lit_tmpbuf := x; at_eof := at_eof e; trace := trace e |}.

Definition with_at_eof (x : bool) (e : enc_t) : enc_t :=
  {| stats := stats e; out := out e; upstream := upstream e;
     rollsum := rollsum e; inbuf := inbuf e; block_len := block_len e;
     new_block_len := new_block_len e; sig_tmpbuf := sig_tmpbuf e;
     lit_tmpbuf := lit_tmpbuf e; at_eof := x; trace := trace e |}.

Definition log (x : event) (e : enc_t) : enc_t :=
  {| stats := stats e; out := out e; upstream := upstream e;
     rollsum := rollsum e; inbuf := inbuf e; block_len := block_len e;
     new_block_len := new_block_len e; sig_tmpbuf := sig_tmpbuf e;
     lit_tmpbuf := lit_tmpbuf e; at_eof := at_eof e;
     trace := trace e ++ [x] |}.

(** How a piece of [hs_encode] ends: it falls through to the next
    statement, it leaves the function ([return] or [goto out]) with a result
    code, it stops the program (a failed [assert], a division by zero), or
    the model ran out of fuel. *)
Inductive flow :=
| Next (e : enc_t)
| Return (ret : Z) (e : enc_t)
| Crash
| NoFuel.

(** *** Collaborators that are not in [enc.c] *)

(** Modelled from the spec: [_hs_read_netlong] is missing.  One read of four
    bytes from the source; the result is the count the read returned, and
    the value is meaningful when that count is 4. *)
Definition _hs_read_netlong (s : stream) : Z * Z * stream :=
  let '(bs, s') := stream_read 4 s in (zlen bs, of_netlong bs, s').

(** Modelled from the spec: [_hs_write_netlong] is missing.  On the token
    stream a netlong is one write of four bytes. *)
Definition _hs_write_netlong (k : sink) (v : Z) : Z * sink :=
  sink_write 4 (Magic (u32 v)) k.

(** Modelled from the spec: [hs_membuf_write] is missing; a memory buffer
    grows by what is written to it. *)
Definition hs_membuf_write (m : list Z) (bs : list Z) : Z * list Z :=
  (zlen bs, m ++ bs).

Definition membuf_write_netlong (m : list Z) (v : Z) : Z * list Z :=
  hs_membuf_write m (netlong v).

(** Modelled from the spec: [_hs_fill_inbuf] is missing.  It reads from the
    upstream source into the free tail of the window and returns the count
    read, 0 at the end of the input. *)
Definition _hs_fill_inbuf (b : inbuf_t) (up : stream)
    : Z * inbuf_t * stream :=
  let '(bs, up') := stream_read (len b - amount b) up in
  let a := Z.to_nat (amount b) in
  (zlen bs,
   {| buf := firstn a (buf b) ++ bs ++ skipn (a + length bs) (buf b);
      len := len b; amount := amount b + zlen bs; cursor := cursor b;
      abspos := abspos b |},
   up').

(** Modelled from the spec: [_hs_slide_inbuf] is missing.  The bytes before
    the cursor are dropped, the rest moves to the front of the buffer (what
    lies behind it stays in place), and the base offset advances. *)
Definition _hs_slide_inbuf (b : inbuf_t) : inbuf_t :=
  let keep := amount b - cursor b in
  {| buf := sub (buf b) (cursor b) keep ++ skipn (Z.to_nat keep) (buf b);
     len := len b; amount := keep; cursor := 0;
     abspos := abspos b + cursor b |}.

(** Modelled from the spec: [_hs_append_literal] is missing. *)
Definition _hs_append_literal (m : list Z) (c : Z) : Z * list Z :=
  hs_membuf_write m [c].

Definition count_flush (kind : hs_op) (n : Z) (s : hs_stats_t) : hs_stats_t :=
  match kind with
  | op_literal_1 =>
      {| lit_cmds := lit_cmds s + 1; lit_bytes := lit_bytes s + n;
         sig_cmds := sig_cmds s; sig_bytes := sig_bytes s;
         copy_cmds := copy_cmds s; copy_bytes := copy_bytes s |}
  | op_signature_1 =>
      {| lit_cmds := lit_cmds s; lit_bytes := lit_bytes s;
         sig_cmds := sig_cmds s + 1; sig_bytes := sig_bytes s + n;
         copy_cmds := copy_cmds s; copy_bytes := copy_bytes s |}
  end.

Definition chunk (kind : hs_op) (bs : list Z) : cmd :=
  match kind with
  | op_literal_1 => Literal bs
  | op_signature_1 => Signature bs
  end.

(** Modelled from the spec: [_hs_flush_literal_buf] is missing.  An empty
    buffer is left alone; otherwise its content goes out as one command of
    the given kind, the command and its bytes are counted under that kind,
    and the buffer is emptied. *)
Definition _hs_flush_literal_buf (m : list Z) (k : sink) (s : hs_stats_t)
    (kind : hs_op) : Z * list Z * sink * hs_stats_t :=
  match m with
  | [] => (0, m, k, s)
  | _ :: _ =>
      let '(ret, k') := sink_write 0 (chunk kind m) k in
      if ret <? 0 then (-1, m, k', s)
      else (0, [], k', count_flush kind (zlen m) s)
  end.

(** Modelled from the spec: [_hs_emit_copy] is missing.  One [Copy] command
    with the offset and length it is given, counted in the statistics. *)
Definition _hs_emit_copy (k : sink) (offset length : Z) (s : hs_stats_t)
    : Z * sink * hs_stats_t :=
  let '(ret, k') := sink_write 0 (Copy offset length) k in
  if ret <? 0 then (-1, k', s)
  else (0, k',
        {| lit_cmds := lit_cmds s; lit_bytes := lit_bytes s;
           sig_cmds := sig_cmds s; sig_bytes := sig_bytes s;
           copy_cmds := copy_cmds s + 1;
           copy_bytes := copy_bytes s + length |}).

(** Modelled from the spec: [_hs_emit_eof] is missing. *)
Definition _hs_emit_eof (k : sink) : Z * sink := sink_write 0 Eof k.

(** Constants of [hsync.h], [hsyncproto.h] and [private.h], and the
    collaborators whose results the encoder only passes on: the table built
    from the old signature, the lookup in it, the strong checksum and the
    size [_hs_alloc_inbuf] gives the window for a block length. *)
Class collaborators :=
  { CHAR_OFFSET : Z;
    HS_SIG_MAGIC : Z;
    HS_LT_MAGIC : Z;
    sum_struct : Type;
    _hs_make_sum_struct : stream -> Z -> Z * sum_struct;
    _hs_find_in_hash : rollsum_t -> list Z -> Z -> sum_struct -> Z;
    _hs_calc_strong_sum : list Z -> list Z;
    alloc_len : Z -> Z }.

Section Encoder.

Context {C : collaborators}.

(** Modelled from the spec: [_hs_alloc_inbuf] is missing.  A fresh window,
    nothing valid in it, at stream offset 0. *)
Definition _hs_alloc_inbuf (block_len : Z) : inbuf_t :=
  {| buf := repeat 0 (Z.to_nat (alloc_len block_len));
     len := alloc_len block_len; amount := 0; cursor := 0; abspos := 0 |}.

(** *** The static helpers of [enc.c] *)

(** [_hs_newsig_header], as it is called: with [hs_membuf_write]. *)
Definition _hs_newsig_header (new_block_len : Z) (m : list Z)
    : Z * list Z :=
  let '(ret, m1) := membuf_write_netlong m HS_SIG_MAGIC in
  if ret <? 0 then (-1, m1)
  else
    let '(ret, m2) := membuf_write_netlong m1 new_block_len in
    if ret <? 0 then (-1, m2) else (0, m2).

(** [_hs_find_match] *)
Definition _hs_find_match (this_block_size : Z) (rollsum : rollsum_t)
    (inbuf : inbuf_t) (sums : sum_struct) : Z :=
  _hs_find_in_hash rollsum
    (sub (buf inbuf) (cursor inbuf) this_block_size) this_block_size sums.

(** [_hs_output_block_hash], as it is called: with [hs_membuf_write].  The
    strong sum is taken over [new_block_len] bytes from the cursor. *)
Definition hashed_bytes (inbuf : inbuf_t) (new_block_len : Z) : list Z :=
  sub (buf inbuf) (cursor inbuf) new_block_len.

Definition _hs_output_block_hash (m : list Z) (inbuf : inbuf_t)
    (new_block_len : Z) (rollsum : rollsum_t) : Z * list Z :=
  let '(_, m1) := membuf_write_netlong m (weak_sum rollsum) in
  let strong_sum := _hs_calc_strong_sum (hashed_bytes inbuf new_block_len) in
  let '(_, m2) := hs_membuf_write m1 strong_sum in
  (0, m2).

(** [_hs_signature_ready]; [None] is the division by zero. *)
Definition _hs_signature_ready (inbuf : inbuf_t) (new_block_len : Z)
    : option bool :=
  let abs_cursor := abspos inbuf + cursor inbuf in
  if new_block_len =? 0 then None
  else Some (Z.rem abs_cursor new_block_len =? 0).

(** [_hs_check_sig_version] *)
Definition _hs_check_sig_version (sigs : stream) : Z * stream :=
  let '(ret, rs_remote_version, sigs') := _hs_read_netlong sigs in
  if negb (ret =? 4) then (ret, sigs')
  else if negb (rs_remote_version =? u32 HS_SIG_MAGIC) then (-1, sigs')
  else (ret, sigs').

(** [_hs_read_blocksize]; the second component is [*block_len]. *)
Definition _hs_read_blocksize (sigs : stream) : Z * Z * stream :=
  let '(ret, v, sigs') := _hs_read_netlong sigs in
  if ret <? 0 then (-1, to_int v, sigs')
  else if negb (ret =? 4) then (-1, to_int v, sigs')
  else (0, to_int v, sigs').

(** [_hs_littok_header] *)
Definition _hs_littok_header (k : sink) : Z * sink :=
  let '(ret, k') := _hs_write_netlong k HS_LT_MAGIC in
  if ret <? 0 then (-1, k') else (0, k').

(** *** [hs_encode] *)

(** The condition of the inner [while]. *)
Definition readahead (e : enc_t) : bool :=
  if at_eof e then cursor (inbuf e) <? amount (inbuf e)
  else cursor (inbuf e) + block_len e <=? amount (inbuf e).

Definition this_block_len (e : enc_t) : Z :=
  Z.min (block_len e) (amount (inbuf e) - cursor (inbuf e)).

(** The branch taken on [token > 0]. *)
Definition encode_copy (token : Z) (e : enc_t) : flow :=
  let tbl := this_block_len e in
  let '(ret, m, k, s) :=
    _hs_flush_literal_buf (lit_tmpbuf e) (out e) (stats e) op_literal_1 in
  let e1 := with_stats s (with_out k (with_lit_tmpbuf m e)) in
  if ret <? 0 then Return (-1) e1
  else
    let '(ret, k, s) :=
      _hs_emit_copy (out e1) (token * block_len e1) tbl (stats e1) in
    let e2 := with_stats s (with_out k e1) in
    if ret <? 0 then Return (-1) e2
    else
      Next (with_rollsum (invalidate (rollsum e2))
              (with_inbuf (set_cursor (cursor (inbuf e2) + tbl) (inbuf e2))
                 e2)).

(** The branch taken otherwise. *)
Definition encode_literal (e : enc_t) : flow :=
  let '(_, m) :=
    _hs_append_literal (lit_tmpbuf e) (byte_at (buf (inbuf e)) (cursor (inbuf e))) in
  let e1 := with_lit_tmpbuf m e in
  let e2 :=
    with_rollsum (_hs_roll_sums CHAR_OFFSET (inbuf e1) (rollsum e1) (block_len e1))
      e1 in
  Next (with_inbuf (set_cursor (cursor (inbuf e2) + 1) (inbuf e2)) e2).

(** The body of the inner [while]. *)
Definition encode_block (sums : sum_struct) (e : enc_t) : flow :=
  let tbl := this_block_len e in
  match _hs_update_sums CHAR_OFFSET (inbuf e) tbl (rollsum e) with
  | None => Crash
  | Some r =>
      let e1 := with_rollsum r e in
      match _hs_signature_ready (inbuf e1) (new_block_len e1) with
      | None => Crash
      | Some ready =>
          let e2 :=
            if ready then
              let '(_, m) :=
                _hs_output_block_hash (sig_tmpbuf e1) (inbuf e1)
                  (new_block_len e1) (rollsum e1) in
              log (EvBlockHash (abspos (inbuf e1) + cursor (inbuf e1))
                     (weak_sum (rollsum e1))
                     (hashed_bytes (inbuf e1) (new_block_len e1)))
                (with_sig_tmpbuf m e1)
            else e1 in
          let token := _hs_find_match tbl (rollsum e2) (inbuf e2) sums in
          let e3 :=
            log (EvMatch (at_eof e2) (abspos (inbuf e2)) (cursor (inbuf e2))
                   (amount (inbuf e2)) tbl token) e2 in
          if 0 <? token then encode_copy token e3 else encode_literal e3
      end
  end.

(** The inner [while]. *)
Fixpoint scan (fuel : nat) (sums : sum_struct) (e : enc_t) : flow :=
  if readahead e then
    match fuel with
    | O => NoFuel
    | S fuel' =>
        match encode_block sums e with
        | Next e' => scan fuel' sums e'
        | r => r
        end
    end
  else Next e.

(** [_hs_fill_inbuf], [at_eof = (ret == 0)] and [inbuf->cursor = 0]. *)
Definition refill (e : enc_t) : enc_t :=
  let '(ret, b, up) := _hs_fill_inbuf (inbuf e) (upstream e) in
  with_inbuf (set_cursor 0 b) (with_at_eof (ret =? 0) (with_upstream up e)).

Definition slide (e : enc_t) : enc_t :=
  with_inbuf (_hs_slide_inbuf (inbuf e)) e.

(** The [do ... while (!at_eof)]. *)
Fixpoint encode_loop (fuel scan_fuel : nat) (sums : sum_struct) (e : enc_t)
    : flow :=
  match fuel with
  | O => NoFuel
  | S fuel' =>
      match scan scan_fuel sums (refill e) with
      | Next e2 =>
          if at_eof e2 then Next (slide e2)
          else encode_loop fuel' scan_fuel sums (slide e2)
      | r => r
      end
  end.

(** What follows the loop. *)
Definition encode_finish (e : enc_t) : flow :=
  let '(ret, m, k, s) :=
    _hs_flush_literal_buf (lit_tmpbuf e) (out e) (stats e) op_literal_1 in
  let e1 := with_stats s (with_out k (with_lit_tmpbuf m e)) in
  if ret <? 0 then Return ret e1
  else
    let '(ret, m, k, s) :=
      _hs_flush_literal_buf (sig_tmpbuf e1) (out e1) (stats e1)
        op_signature_1 in
    let e2 := with_stats s (with_out k (with_sig_tmpbuf m e1)) in
    if ret <? 0 then Return (-1) e2
    else
      let '(ret, k) := _hs_emit_eof (out e2) in
      let e3 := with_out k e2 in
      if ret <? 0 then Return ret e3 else Return 1 e3.

(** The caller's view on entry: its statistics structure as it stands, the
    upstream source and the sink. *)
Definition enter (up : stream) (k : sink) (s : hs_stats_t) : enc_t :=
  {| stats := s; out := k; upstream := up; rollsum := rollsum_init;
     inbuf := {| buf := []; len := 0; amount := 0; cursor := 0; abspos := 0 |};
     block_len := 0; new_block_len := 0; sig_tmpbuf := []; lit_tmpbuf := [];
     at_eof := false; trace := [] |}.

Definition hs_encode (fuel : nat) (sigs up : stream) (k : sink)
    (s : hs_stats_t) : flow :=
  let e := with_stats stats_zero (enter up k s) in
  let e := with_rollsum (invalidate (rollsum e)) e in
  let '(ret, sigs1) := _hs_check_sig_version sigs in
  if ret <? 0 then Return ret e
  else
    let '(r, bl, sigs2) := _hs_read_blocksize sigs1 in
    if r <? 0 then Return (-1) e
    else
      let e := with_block_len bl bl e in
      let '(ret, sums) := _hs_make_sum_struct sigs2 bl in
      if ret <? 0 then Return ret e
      else
        let '(ret, k1) := _hs_littok_header (out e) in
        let e := with_out k1 e in
        if ret <? 0 then Return ret e
        else
          let e := with_inbuf (_hs_alloc_inbuf bl) e in
          let '(ret, m) := _hs_newsig_header (new_block_len e) (sig_tmpbuf e) in
          let e := with_sig_tmpbuf m e in
          if ret <? 0 then Return ret e
          else
            let e := with_rollsum (invalidate (rollsum e)) e in
            match encode_loop fuel fuel sums e with
            | Next e' => encode_finish e'
            | r => r
            end.

(** The block length [hs_encode] takes from the old signature. *)
Definition old_block_len (sigs : stream) : Z :=
  let '(_, sigs1) := _hs_check_sig_version sigs in
  let '(_, bl, _) := _hs_read_blocksize sigs1 in bl.

End Encoder.

(** ** An instance to run the encoder on

    Stand-ins for what the encoder is parametrised by, so that the
    definitions above can be evaluated on concrete streams: sample values
    of the constants, a toy strong checksum of four bytes, a signature table
    that is the list of the (weak, strong) pairs of the old signature, and a
    lookup that returns the 1-based index of the first pair equal to the
    window's own pair, 0 when there is none. *)
Module Sample.

Definition char_offset : Z := 31.
Definition sig_magic : Z := 0x67640002.
Definition lt_magic : Z := 0x67640001.
Definition sum_length : nat := 4.

Definition strong_sum (bs : list Z) : list Z :=
  netlong (fold_left (fun a b => u32 (a * 257 + b + 1)) bs 0).

Definition sum_table : Type := list (Z * list Z).

Fixpoint parse_sums (n : nat) (bs : list Z) : option sum_table :=
  match n with
  | O => None
  | S n' =>
      match bs with
      | [] => Some []
      | _ :: _ =>
          if (length bs <? 4 + sum_length)%nat then None
          else
            match parse_sums n' (skipn (4 + sum_length) bs) with
            | Some t =>
                Some ((of_netlong (firstn 4 bs),
                       firstn sum_length (skipn 4 bs)) :: t)
            | None => None
            end
      end
  end.

(** Modelled from the spec: [_hs_make_sum_struct] is missing.  The rest of
    the old signature is a sequence of (weak, strong) pairs; a pair cut
    short is an error. *)
Definition make_sum_struct (sigs : stream) (block_len : Z)
    : Z * sum_table :=
  match parse_sums (S (length (data sigs))) (data sigs) with
  | Some t => (0, t)
  | None => (-1, [])
  end.

Fixpoint find_from (i : Z) (w : Z) (st : list Z) (t : sum_table) : Z :=
  match t with
  | [] => 0
  | (w', st') :: t' =>
      if (w =? w') && (if list_eq_dec Z.eq_dec st st' then true else false)
      then i
      else find_from (i + 1) w st t'
  end.

(** Modelled from the spec: [_hs_find_in_hash] is missing.  The token of a
    block is its 1-based index in the old signature; a block is found when
    both its weak and its strong sum are those of the window. *)
Definition find_in_hash (r : rollsum_t) (bs : list Z) (n : Z)
    (t : sum_table) : Z :=
  find_from 1 (weak_sum r) (strong_sum bs) t.

Definition window_len (block_len : Z) : Z := 2 * block_len.

(** The signature stream of an old file, block by block. *)
Fixpoint blocks (n : nat) (b : nat) (bs : list Z) : list (list Z) :=
  match n with
  | O => []
  | S n' =>
      match bs with
      | [] => []
      | _ :: _ => firstn b bs :: blocks n' b (skipn b bs)
      end
  end.

Definition signature_of (b : Z) (old : list Z) : list Z :=
  netlong sig_magic ++ netlong b ++
  flat_map
    (fun blk => netlong (_hs_calc_weak_sum char_offset blk) ++ strong_sum blk)
    (blocks (length old) (Z.to_nat b) old).

#[export] Instance sample : collaborators :=
  Build_collaborators char_offset sig_magic lt_magic sum_table
    make_sum_struct find_in_hash strong_sum window_len.

Definition encode (fuel : nat) (sigs up : stream) (k : sink)
    (s : hs_stats_t) : flow :=
  hs_encode (C := sample) fuel sigs up k s.

Definition open_sink : sink := {| written := []; quota := None |}.

End Sample.

(** ** Predicates of the properties *)

Section Predicates.

Context {C : collaborators}.

(** The event one pass of the inner loop logs for its lookup, and the
    event it logs before that when the cursor is on a block boundary. *)
Definition match_event (e : enc_t) (token : Z) : event :=
  EvMatch (at_eof e) (abspos (inbuf e)) (cursor (inbuf e))
    (amount (inbuf e)) (this_block_len e) token.

Definition hash_events (e : enc_t) (w : Z) : list event :=
  if Z.rem (abspos (inbuf e) + cursor (inbuf e)) (new_block_len e) =? 0
  then [EvBlockHash (abspos (inbuf e) + cursor (inbuf e)) w
          (hashed_bytes (inbuf e) (new_block_len e))]
  else [].

(** What a pass leaves alone. *)
Definition same_frame (e e' : enc_t) : Prop :=
  upstream e' = upstream e /\ at_eof e' = at_eof e /\
  block_len e' = block_len e /\ new_block_len e' = new_block_len e.

Definition advanced (d : Z) (e e' : enc_t) : Prop :=
  inbuf e' = set_cursor (cursor (inbuf e) + d) (inbuf e).

(** New-file bytes accounted for so far: flushed literals, literals still
    buffered, copies. *)
Definition bytes_done (e : enc_t) : Z :=
  lit_bytes (stats e) + zlen (lit_tmpbuf e) + copy_bytes (stats e).

(** The window and the source while a stream of [n] bytes is encoded with
    block length [b]: the cursor is inside the valid part of the buffer,
    the bytes before the window, in it and still to come add up to [n], and
    the end-of-input flag is raised only once the source is used up. *)
Definition wf (n b : Z) (e : enc_t) : Prop :=
  block_len e = b /\ new_block_len e = b /\ 0 < b /\ b <= len (inbuf e) /\
  0 <= cursor (inbuf e) <= amount (inbuf e) /\
  amount (inbuf e) <= len (inbuf e) /\ 0 <= abspos (inbuf e) /\
  abspos (inbuf e) + amount (inbuf e) + zlen (data (upstream e)) = n /\
  (at_eof e = true -> data (upstream e) = []).

(** The same at the head of the outer loop: what is left in the window is
    less than a block. *)
Definition wf_head (n b : Z) (e : enc_t) : Prop :=
  wf n b e /\ cursor (inbuf e) = 0 /\ amount (inbuf e) < b /\ at_eof e = false.

(** [hs_encode] gets as far as its loop when the old signature passes the
    three checks on it and the sink takes the header of the token stream. *)
Definition header_ok (sigs : stream) : bool :=
  let '(ret, sigs1) := _hs_check_sig_version sigs in
  let '(r, bl, sigs2) := _hs_read_blocksize sigs1 in
  (0 <=? ret) && (0 <=? r) && (0 <=? fst (_hs_make_sum_struct sigs2 bl)).

Definition old_sums (sigs : stream) : sum_struct :=
  let '(_, sigs1) := _hs_check_sig_version sigs in
  let '(_, bl, sigs2) := _hs_read_blocksize sigs1 in
  snd (_hs_make_sum_struct sigs2 bl).

Definition refuses (k : sink) : bool :=
  match quota k with Some O => true | _ => false end.

Definition after_header (k : sink) : sink := snd (_hs_littok_header k).

(** The state in which the loop is entered. *)
Definition start (bl : Z) (up : stream) (k : sink) : enc_t :=
  {| stats := stats_zero; out := k; upstream := up; rollsum := rollsum_init;
     inbuf := _hs_alloc_inbuf bl; block_len := bl; new_block_len := bl;
     sig_tmpbuf := netlong HS_SIG_MAGIC ++ netlong bl; lit_tmpbuf := [];
     at_eof := false; trace := [] |}.

(** The readahead policy, read off one lookup of the trace: the block tried
    is a full block that lies inside the valid part of the window, or the
    end of the input is reached and it is what is left of the window. *)
Definition match_ok (b : Z) (ev : event) : Prop :=
  match ev with
  | EvMatch eof _ cur amt this_len _ =>
      ((cur + b <= amt /\ this_len = b) \/
       (eof = true /\ cur < amt < cur + b /\ this_len = amt - cur)) /\
      cur + this_len <= amt /\
      (0 < b -> 0 <= cur /\ 0 < this_len)
  | EvBlockHash _ _ _ => True
  end.






End Predicates.

(** The two sums behind the weak checksum, taken exactly: the bytes with
    the offset added, and the same weighted by the number of bytes from
    each one to the end of the block. *)
Fixpoint sum1 (off : Z) (bs : list Z) : Z :=
  match bs with
  | [] => 0
  | x :: r => (x + off) + sum1 off r
  end.

Fixpoint sum2 (off : Z) (bs : list Z) : Z :=
  match bs with
  | [] => 0
  | x :: r => zlen bs * (x + off) + sum2 off r
  end.

(** The checksum state stands for the window [w]: [s1] is its byte sum,
    [s2] its weighted sum up to multiples of [2^16], and [weak_sum] its
    weak checksum. *)
Definition stands_for (off : Z) (w : list Z) (r : rollsum_t) : Prop :=
  havesum r = true /\ s1 r = sum1 off w /\
  s2 r mod 2 ^ 16 = sum2 off w mod 2 ^ 16 /\
  weak_sum r = _hs_calc_weak_sum off w.

(** ** The token stream as a whole *)

(** What a flush of the literal buffer writes. *)
Definition flushed (m : list Z) : list cmd :=
  match m with
  | [] => []
  | _ :: _ => [Literal m]
  end.

(** What the emit layer adds to the statistics for one command. *)
Definition count (c : cmd) (s : hs_stats_t) : hs_stats_t :=
  match c with
  | Literal m => count_flush op_literal_1 (zlen m) s
  | Signature m => count_flush op_signature_1 (zlen m) s
  | Copy _ l =>
      {| lit_cmds := lit_cmds s; lit_bytes := lit_bytes s;
         sig_cmds := sig_cmds s; sig_bytes := sig_bytes s;
         copy_cmds := copy_cmds s + 1; copy_bytes := copy_bytes s + l |}
  | Magic _ | Eof => s
  end.

Definition tally (cmds : list cmd) (s : hs_stats_t) : hs_stats_t :=
  fold_left (fun s c => count c s) cmds s.

(** The statistics of a token stream, counted from the stream itself. *)
Definition stats_of (cmds : list cmd) : hs_stats_t := tally cmds stats_zero.

(** The bytes of the new file a command stands for. *)
Definition span (c : cmd) : Z :=
  match c with
  | Literal m => zlen m
  | Copy _ l => l
  | Magic _ | Signature _ | Eof => 0
  end.

Definition spans (cmds : list cmd) : Z :=
  fold_right (fun c n => span c + n) 0 cmds.

(** The new file as a token stream spells it from offset [pos] on: a
    literal gives its bytes, a copy stands for the next [length] bytes of
    the new file [N]. *)
Fixpoint expand (N : list Z) (pos : Z) (cmds : list cmd) : list Z :=
  match cmds with
  | [] => []
  | Literal m :: r => m ++ expand N (pos + zlen m) r
  | Copy _ l :: r => sub N pos l ++ expand N (pos + l) r
  | (Magic _ | Signature _ | Eof) :: r => expand N pos r
  end.

(** The commands between the header and the signature chunk: a literal
    with at least one byte, or a copy of between one byte and a block whose
    offset is a positive multiple of the block length. *)
Definition data_cmd (b : Z) (c : cmd) : Prop :=
  match c with
  | Literal m => m <> []
  | Copy o l => (exists token, 0 < token /\ o = token * b) /\ 1 <= l <= b
  | Magic _ | Signature _ | Eof => False
  end.

(** The offsets in the new file at which a trace makes its lookups, in
    order. *)
Fixpoint match_positions (t : list event) : list Z :=
  match t with
  | [] => []
  | EvMatch _ base cur _ _ _ :: t' => (base + cur) :: match_positions t'
  | EvBlockHash _ _ _ :: t' => match_positions t'
  end.



(** The bytes the literals of a token stream carry, and the literal byte a
    lookup of the trace asks for: the byte of [N] at its offset, unless the
    token is positive. *)
Definition literals (cmds : list cmd) : list Z :=
  flat_map (fun c => match c with Literal m => m | _ => [] end) cmds.

Definition literal_of (N : list Z) (ev : event) : list Z :=
  match ev with
  | EvMatch _ base cur _ _ token =>
      if 0 <? token then [] else [byte_at N (base + cur)]
  | EvBlockHash _ _ _ => []
  end.

(** What a call has added to the sink [k] it was given. *)
Definition appended (k : sink) (e : enc_t) : list cmd :=
  skipn (length (written k)) (written (out e)).

Section TokenStream.

Context {C : collaborators}.

(** The bytes a block hash adds to the new signature. *)
Definition sig_entry (ev : event) : list Z :=
  match ev with
  | EvBlockHash _ w h => netlong w ++ _hs_calc_strong_sum h
  | EvMatch _ _ _ _ _ _ => []
  end.

(** The new signature that belongs to a trace: the header and one entry
    per block hash, in order. *)
Definition new_signature (b : Z) (t : list event) : list Z :=
  (netlong HS_SIG_MAGIC ++ netlong b) ++ flat_map sig_entry t.

(** A block hash taken where a whole block of the new file [N] is left
    covers that block. *)
Definition whole_block_hash (N : list Z) (b : Z) (ev : event) : Prop :=
  match ev with
  | EvBlockHash pos _ h => pos + b <= zlen N -> h = sub N pos b
  | EvMatch _ _ _ _ _ _ => True
  end.

(** The window holds the bytes of [N] from [abspos] on, and the source
    what follows them. *)
Definition window_ok (N : list Z) (e : enc_t) : Prop :=
  zlen (buf (inbuf e)) = len (inbuf e) /\
  sub (buf (inbuf e)) 0 (amount (inbuf e)) =
    sub N (abspos (inbuf e)) (amount (inbuf e)) /\
  data (upstream e) =
    skipn (Z.to_nat (abspos (inbuf e) + amount (inbuf e))) N.

(** The output while the loop runs: what has been written after [pre] are
    data commands that, with the literals still buffered, spell the new
    file up to the cursor; the statistics count them; the signature buffer
    is the new signature of the trace. *)
Definition stream_ok (N : list Z) (b : Z) (pre : list cmd) (e : enc_t)
    : Prop :=
  exists body,
    written (out e) = pre ++ body /\
    Forall (data_cmd b) body /\
    expand N 0 body ++ lit_tmpbuf e =
      sub N 0 (abspos (inbuf e) + cursor (inbuf e)) /\
    spans body + zlen (lit_tmpbuf e) = abspos (inbuf e) + cursor (inbuf e) /\
    stats e = stats_of body /\
    sig_tmpbuf e = new_signature b (trace e) /\
    Forall (whole_block_hash N b) (trace e).

(** *** The new signature, block by block *)






(** *** The loop seen from the new file

    What a pass of the inner loop depends on, once the window is set aside:
    the offset reached in the new file, the checksum state, the pending
    literals and the commands written. *)
Record file_state :=
  { fpos : Z; fsum : rollsum_t; flit : list Z; fout : list cmd }.

Definition file_view (e : enc_t) : file_state :=
  {| fpos := abspos (inbuf e) + cursor (inbuf e); fsum := rollsum e;
     flit := lit_tmpbuf e; fout := written (out e) |}.

(** One pass on the file [N] itself, the whole of it taken as the window;
    [None] at the end of the file and where the pass stops the program. *)
Definition pass_on_file (N : list Z) (b : Z) (sums : sum_struct)
    (st : file_state) : option file_state :=
  if fpos st <? zlen N then
    let l := Z.min b (zlen N - fpos st) in
    match _hs_update_sums CHAR_OFFSET (window N (fpos st)) l (fsum st) with
    | None => None
    | Some r =>
        let token := _hs_find_in_hash r (sub N (fpos st) l) l sums in
        if 0 <? token then
          Some {| fpos := fpos st + l; fsum := invalidate r; flit := [];
                  fout := fout st ++ flushed (flit st) ++ [Copy (token * b) l] |}
        else
          Some {| fpos := fpos st + 1;
                  fsum := _hs_roll_sums CHAR_OFFSET (window N (fpos st)) r b;
                  flit := flit st ++ [byte_at N (fpos st)];
                  fout := fout st |}
    end
  else None.

Inductive reaches (N : list Z) (b : Z) (sums : sum_struct)
    : file_state -> file_state -> Prop :=
| reaches_here (st : file_state) : reaches N b sums st st
| reaches_pass (st st1 st2 : file_state) :
    pass_on_file N b sums st = Some st1 ->
    reaches N b sums st1 st2 -> reaches N b sums st st2.

End TokenStream.

(** ** Inputs the properties below are evaluated on *)

(** A stream whose byte sum crosses [2^16] while the window moves: 33 zero
    bytes, 258 bytes [0xFF], one byte [0xFE]; block length 258.  The window
    at position 0 sums to less than [2^16] for every character offset up to
    31, the windows at positions 33 and 34 to more. *)
Definition carry_input : list Z :=
  repeat 0 33 ++ repeat 255 258 ++ [254].

Definition carry_pos (off : Z) : nat := (33 + Z.to_nat (off mod 2))%nat.

Definition offsets : list Z := map Z.of_nat (seq 0 32).

Definition abcd : list Z := [97; 98; 99; 100].
Definition abcdef : list Z := [97; 98; 99; 100; 101; 102].
Definition xabcdyyy : list Z := [120; 97; 98; 99; 100; 121; 121; 121].
Definition abcdyyyyabcd : list Z :=
  [97; 98; 99; 100; 121; 121; 121; 121; 97; 98; 99; 100].


(** The sample instance with a window of one byte more, so that the window
    has room even for a block length of 0. *)
Definition roomy : collaborators :=
  Build_collaborators Sample.char_offset Sample.sig_magic Sample.lt_magic
    Sample.sum_table Sample.make_sum_struct Sample.find_in_hash
    Sample.strong_sum (fun b => Sample.window_len b + 1).


(** A sink that takes two writes. *)
Definition tight_sink : sink := {| written := []; quota := Some 2%nat |}.

(** * Properties *)

(** ** Streams *)

Lemma zlen_nonneg (l : list Z) : 0 <= zlen l.
Proof. unfold zlen; lia. Qed.

Lemma zlen_app (l1 l2 : list Z) : zlen (l1 ++ l2) = zlen l1 + zlen l2.
Proof. unfold zlen; rewrite length_app; lia. Qed.

Lemma zlen_nil_inv (l : list Z) : zlen l = 0 -> l = [].
Proof. destruct l; [reflexivity | unfold zlen; simpl; lia]. Qed.

Lemma stream_count_le (m : Z) (s : stream) :
  stream_count m s <= m /\ stream_count m s <= zlen (data s).
Proof. unfold stream_count; destruct (caps s); lia. Qed.

Lemma stream_count_pos (m : Z) (s : stream) :
  0 < m -> 0 < zlen (data s) -> 0 < stream_count m s.
Proof. unfold stream_count; destruct (caps s); lia. Qed.

(** A read hands over a prefix of the data and keeps the rest. *)
Lemma stream_read_split (m : Z) (s : stream) :
  data s = fst (stream_read m s) ++ data (snd (stream_read m s)).
Proof. unfold stream_read; simpl; symmetry; apply firstn_skipn. Qed.

Lemma stream_read_zlen (m : Z) (s : stream) :
  zlen (fst (stream_read m s)) = Z.max 0 (stream_count m s).
Proof.
  pose proof (stream_count_le m s) as [_ H].
  unfold stream_read, zlen in *; simpl.
  rewrite length_firstn; lia.
Qed.

(** With room to read into, an empty read means the data are used up. *)
Lemma stream_read_eof (m : Z) (s : stream) :
  0 < m -> zlen (fst (stream_read m s)) = 0 -> data (snd (stream_read m s)) = [].
Proof.
  intros Hm H0.
  pose proof (stream_read_split m s) as Hs.
  pose proof (stream_read_zlen m s) as Hz.
  pose proof (zlen_nonneg (data s)) as Hn.
  destruct (Z.eq_dec (zlen (data s)) 0) as [He | Hne].
  - apply zlen_nil_inv in He. rewrite He in Hs.
    symmetry in Hs. apply app_eq_nil in Hs. tauto.
  - pose proof (stream_count_pos m s Hm). lia.
Qed.

(** ** The emit layer *)

Lemma flush_literal_spec (m : list Z) (k : sink) (s : hs_stats_t) :
  forall ret m' k' s',
    _hs_flush_literal_buf m k s op_literal_1 = (ret, m', k', s') ->
    (ret = 0 /\ m' = [] /\
     lit_bytes s' = lit_bytes s + zlen m /\ copy_bytes s' = copy_bytes s /\
     sig_cmds s' = sig_cmds s /\ sig_bytes s' = sig_bytes s /\
     copy_cmds s' = copy_cmds s /\
     (m = [] -> k' = k /\ s' = s) /\
     (m <> [] -> written k' = written k ++ [Literal m] /\
                 lit_cmds s' = lit_cmds s + 1))
    \/ (ret = -1 /\ m' = m /\ k' = k /\ s' = s).
Proof.
  intros ret m' k' s'. unfold _hs_flush_literal_buf, sink_write.
  destruct m as [| c m].
  - intros H; injection H as <- <- <- <-. left.
    unfold zlen; simpl. repeat split; try lia; congruence.
  - destruct (quota k) as [[| q] |]; simpl;
      intros H; injection H as <- <- <- <-.
    + right; auto.
    + left; simpl; repeat split; try lia; congruence.
    + left; simpl; repeat split; try lia; congruence.
Qed.

Lemma emit_copy_spec (k : sink) (o l : Z) (s : hs_stats_t) :
  forall ret k' s',
    _hs_emit_copy k o l s = (ret, k', s') ->
    (ret = 0 /\ written k' = written k ++ [Copy o l] /\
     lit_cmds s' = lit_cmds s /\ lit_bytes s' = lit_bytes s /\
     sig_cmds s' = sig_cmds s /\ sig_bytes s' = sig_bytes s /\
     copy_cmds s' = copy_cmds s + 1 /\ copy_bytes s' = copy_bytes s + l)
    \/ (ret = -1 /\ k' = k /\ s' = s).
Proof.
  intros ret k' s'. unfold _hs_emit_copy, sink_write.
  destruct (quota k) as [[| q] |]; simpl;
    intros H; injection H as <- <- <-.
  - right; auto.
  - left; simpl; repeat split; reflexivity.
  - left; simpl; repeat split; reflexivity.
Qed.

(** ** One pass of the inner loop *)

Section Loop.

Context {C : collaborators}.
Variable sums : sum_struct.

(** The copy branch either fails on a write, leaving the window where it
    was, or moves the cursor over the block and counts its bytes. *)
Lemma encode_copy_spec (token : Z) (e : enc_t) :
  match encode_copy token e with
  | Next e' =>
      same_frame e e' /\ trace e' = trace e /\
      advanced (this_block_len e) e e' /\
      bytes_done e' = bytes_done e + this_block_len e /\
      havesum (rollsum e') = false /\
      sig_tmpbuf e' = sig_tmpbuf e /\
      exists pre,
        written (out e') =
        pre ++ [Copy (token * block_len e) (this_block_len e)]
  | Return r e' =>
      r = -1 /\ same_frame e e' /\ trace e' = trace e /\ inbuf e' = inbuf e
  | Crash | NoFuel => False
  end.
Proof.
  unfold encode_copy.
  destruct (_hs_flush_literal_buf (lit_tmpbuf e) (out e) (stats e) op_literal_1)
    as [[[ret m] k] s] eqn:Hf.
  apply flush_literal_spec in Hf.
  destruct Hf as [(-> & -> & Hlb & Hcb & _) | (-> & -> & -> & ->)].
  2:{ simpl. unfold same_frame; simpl. repeat split. }
  change (0 <? 0) with false; cbv iota.
  cbn [with_stats with_out with_lit_tmpbuf out stats block_len].
  match goal with
  | |- context [_hs_emit_copy ?a ?b ?c ?d] =>
      destruct (_hs_emit_copy a b c d) as [[ret k'] s'] eqn:Hc
  end.
  apply emit_copy_spec in Hc.
  destruct Hc as [(-> & Hw & _ & Hlb' & _ & _ & _ & Hcb') | (-> & -> & ->)].
  2:{ simpl. unfold same_frame; simpl. repeat split. }
  change (0 <? 0) with false; cbv iota.
  unfold same_frame, advanced, bytes_done; simpl.
  repeat split; try reflexivity.
  - unfold zlen at 1; simpl. lia.
  - eexists; exact Hw.
Qed.

Lemma encode_literal_spec (e : enc_t) :
  exists e',
    encode_literal e = Next e' /\
    same_frame e e' /\ trace e' = trace e /\ advanced 1 e e' /\
    bytes_done e' = bytes_done e + 1 /\ out e' = out e /\
    sig_tmpbuf e' = sig_tmpbuf e /\ stats e' = stats e.
Proof.
  unfold encode_literal, _hs_append_literal, hs_membuf_write.
  eexists; split; [reflexivity |].
  unfold same_frame, advanced, bytes_done; simpl.
  repeat split. rewrite zlen_app. unfold zlen at 2; simpl. lia.
Qed.

(** One pass of the inner loop, case by case. *)
Lemma encode_block_spec (e : enc_t) :
  match encode_block sums e with
  | Next e' =>
      new_block_len e <> 0 /\ same_frame e e' /\
      exists token w,
        trace e' = trace e ++ hash_events e w ++ [match_event e token] /\
        ((0 < token /\ advanced (this_block_len e) e e' /\
          bytes_done e' = bytes_done e + this_block_len e /\
          exists pre,
            written (out e') =
            pre ++ [Copy (token * block_len e) (this_block_len e)])
         \/ (token <= 0 /\ advanced 1 e e' /\
             bytes_done e' = bytes_done e + 1 /\ out e' = out e))
  | Return r e' =>
      r = -1 /\ same_frame e e' /\ inbuf e' = inbuf e /\
      exists token w,
        trace e' = trace e ++ hash_events e w ++ [match_event e token]
  | Crash =>
      new_block_len e = 0 \/ cursor (inbuf e) + this_block_len e - 1 < 0
  | NoFuel => False
  end.
Proof.
  unfold encode_block.
  destruct (_hs_update_sums CHAR_OFFSET (inbuf e) (this_block_len e) (rollsum e))
    as [r |] eqn:Hupd.
  2:{ right. unfold _hs_update_sums in Hupd.
      destruct (negb (havesum (rollsum e))); [discriminate |].
      destruct (cursor (inbuf e) + this_block_len e - 1 <? 0) eqn:Hp.
      - lia.
      - destruct (_ <=? _); discriminate. }
  unfold _hs_signature_ready.
  change (new_block_len (with_rollsum r e)) with (new_block_len e).
  change (inbuf (with_rollsum r e)) with (inbuf e).
  destruct (new_block_len e =? 0) eqn:Hnb; [left; lia |].
  apply Z.eqb_neq in Hnb.
  set (e2 := if Z.rem (abspos (inbuf e) + cursor (inbuf e)) (new_block_len e) =? 0
             then _ else _).
  assert (He2 : same_frame e e2 /\ inbuf e2 = inbuf e /\
                lit_tmpbuf e2 = lit_tmpbuf e /\ stats e2 = stats e /\
                out e2 = out e /\
                trace e2 = trace e ++ hash_events e (weak_sum r)).
  { subst e2. unfold hash_events, same_frame.
    destruct (Z.rem _ _ =? 0); simpl.
    - repeat split.
    - rewrite app_nil_r. repeat split. }
  destruct He2 as ((Hup & Heof & Hbl & Hnbl) & Hib & Hlit & Hst & Hout & Htr).
  clearbody e2.
  set (token := _hs_find_match (this_block_len e) (rollsum e2) (inbuf e2) sums).
  clearbody token.
  set (e3 := log _ e2).
  assert (He3 : same_frame e e3 /\ inbuf e3 = inbuf e /\
                lit_tmpbuf e3 = lit_tmpbuf e /\ stats e3 = stats e /\
                out e3 = out e /\
                trace e3 = trace e ++ hash_events e (weak_sum r) ++
                           [match_event e token]).
  { subst e3. unfold same_frame, match_event; simpl.
    rewrite Htr, Hib, Heof, <- app_assoc. repeat split; assumption. }
  clearbody e3. clear e2 Hup Heof Hbl Hnbl Hib Hlit Hst Hout Htr.
  destruct He3 as ((Hup & Heof & Hbl & Hnbl) & Hib & Hlit & Hst & Hout & Htr).
  assert (Htbl : this_block_len e3 = this_block_len e)
    by (unfold this_block_len; rewrite Hbl, Hib; reflexivity).
  assert (Hbd : bytes_done e3 = bytes_done e)
    by (unfold bytes_done; rewrite Hst, Hlit; reflexivity).
  destruct (0 <? token) eqn:Htok.
  - apply Z.ltb_lt in Htok.
    pose proof (encode_copy_spec token e3) as Hc.
    destruct (encode_copy token e3) as [e' | r' e' | |]; try contradiction.
    + destruct Hc as ((Hup' & Heof' & Hbl' & Hnbl') & Htr' & Hadv & Hbd' & _ & _ & pre & Hw).
      split; [assumption |]. split.
      { unfold same_frame; repeat split; congruence. }
      exists token, (weak_sum r). split; [congruence |].
      left. split; [assumption |]. split.
      { unfold advanced in *. rewrite Hadv, Htbl, Hib. reflexivity. }
      split; [lia |].
      exists pre. rewrite Hw, Htbl, Hbl. reflexivity.
    + destruct Hc as (-> & (Hup' & Heof' & Hbl' & Hnbl') & Htr' & Hib').
      split; [reflexivity |]. split.
      { unfold same_frame; repeat split; congruence. }
      split; [congruence |].
      exists token, (weak_sum r). congruence.
  - apply Z.ltb_ge in Htok.
    destruct (encode_literal_spec e3)
      as (e' & -> & (Hup' & Heof' & Hbl' & Hnbl') & Htr' & Hadv & Hbd' & Hout' & _).
    split; [assumption |]. split.
    { unfold same_frame; repeat split; congruence. }
    exists token, (weak_sum r). split; [congruence |].
    right. split; [assumption |]. split.
    { unfold advanced in *. rewrite Hadv, Hib. reflexivity. }
    split; [lia | congruence].
Qed.

End Loop.

(** ** The two loops *)

Section Loops.

Context {C : collaborators}.
Variable sums : sum_struct.

(** Invariants of the inner loop. *)
Lemma scan_inv (Inv : enc_t -> Prop) (R : Z -> enc_t -> Prop) :
  (forall e, Inv e -> readahead e = true ->
     match encode_block sums e with
     | Next e' => Inv e'
     | Return r e' => R r e'
     | Crash | NoFuel => True
     end) ->
  forall fuel e, Inv e ->
    match scan fuel sums e with
    | Next e' => Inv e' /\ readahead e' = false
    | Return r e' => R r e'
    | Crash | NoFuel => True
    end.
Proof.
  intros Hstep fuel; induction fuel as [| fuel IH]; intros e HI; simpl.
  - destruct (readahead e) eqn:Hr; [exact I | split; assumption].
  - destruct (readahead e) eqn:Hr; [| split; assumption].
    specialize (Hstep e HI Hr).
    destruct (encode_block sums e); try exact I; [apply IH |]; assumption.
Qed.

(** Invariants of the outer loop: [Head] holds at its head, [Inv] inside
    the inner loop, [Exit] when it is left. *)
Lemma encode_loop_inv (Head Inv Exit : enc_t -> Prop) (R : Z -> enc_t -> Prop) :
  (forall e, Head e -> Inv (refill e)) ->
  (forall e, Inv e -> readahead e = true ->
     match encode_block sums e with
     | Next e' => Inv e'
     | Return r e' => R r e'
     | Crash | NoFuel => True
     end) ->
  (forall e, Inv e -> readahead e = false -> at_eof e = false -> Head (slide e)) ->
  (forall e, Inv e -> readahead e = false -> at_eof e = true -> Exit (slide e)) ->
  forall fuel k e, Head e ->
    match encode_loop fuel k sums e with
    | Next e' => Exit e'
    | Return r e' => R r e'
    | Crash | NoFuel => True
    end.
Proof.
  intros Hfill Hstep Hslide Hexit fuel k.
  induction fuel as [| fuel IH]; intros e HO; simpl; [exact I |].
  pose proof (scan_inv Inv R Hstep k (refill e) (Hfill e HO)) as Hs.
  destruct (scan k sums (refill e)) as [e2 | r e2 | |]; try exact I;
    [| assumption].
  destruct Hs as [HI Hr].
  destruct (at_eof e2) eqn:He; [apply Hexit | apply IH, Hslide]; assumption.
Qed.

(** *** The window invariant *)

Lemma refill_frame (e : enc_t) :
  block_len (refill e) = block_len e /\
  new_block_len (refill e) = new_block_len e /\
  trace (refill e) = trace e /\ stats (refill e) = stats e /\
  lit_tmpbuf (refill e) = lit_tmpbuf e /\ out (refill e) = out e /\
  abspos (inbuf (refill e)) = abspos (inbuf e) /\
  cursor (inbuf (refill e)) = 0.
Proof.
  unfold refill, _hs_fill_inbuf.
  destruct (stream_read _ _) as [bs up']; simpl. repeat split.
Qed.

Lemma slide_frame (e : enc_t) :
  block_len (slide e) = block_len e /\
  new_block_len (slide e) = new_block_len e /\
  trace (slide e) = trace e /\ stats (slide e) = stats e /\
  lit_tmpbuf (slide e) = lit_tmpbuf e /\ out (slide e) = out e /\
  at_eof (slide e) = at_eof e /\ upstream (slide e) = upstream e /\
  sig_tmpbuf (slide e) = sig_tmpbuf e /\
  abspos (inbuf (slide e)) = abspos (inbuf e) + cursor (inbuf e) /\
  cursor (inbuf (slide e)) = 0 /\
  amount (inbuf (slide e)) = amount (inbuf e) - cursor (inbuf e) /\
  len (inbuf (slide e)) = len (inbuf e).
Proof. unfold slide, _hs_slide_inbuf; simpl. repeat split. Qed.

Lemma wf_refill (n b : Z) (e : enc_t) : wf_head n b e -> wf n b (refill e).
Proof.
  intros ((Hbl & Hnbl & Hb & Hlen & Hcur & Hamt & Habs & Hsum & _) & Hc0 & Hlt & _).
  unfold refill, _hs_fill_inbuf.
  pose proof (stream_read_split (len (inbuf e) - amount (inbuf e)) (upstream e)) as Hsp.
  pose proof (stream_read_zlen (len (inbuf e) - amount (inbuf e)) (upstream e)) as Hz.
  pose proof (stream_read_eof (len (inbuf e) - amount (inbuf e)) (upstream e)) as He.
  pose proof (stream_count_le (len (inbuf e) - amount (inbuf e)) (upstream e)) as [Hle _].
  destruct (stream_read _ _) as [bs up']; simpl in *.
  assert (Hd : zlen (data (upstream e)) = zlen bs + zlen (data up'))
    by (rewrite Hsp at 1; apply zlen_app).
  unfold wf; simpl.
  repeat split; try assumption; try lia.
  intros H0. apply Z.eqb_eq in H0. apply He; lia.
Qed.

Lemma readahead_room (n b : Z) (e : enc_t) :
  wf n b e -> readahead e = true ->
  1 <= this_block_len e <= b /\
  cursor (inbuf e) + this_block_len e <= amount (inbuf e).
Proof.
  intros (Hbl & _ & Hb & _ & Hcur & _) Hr.
  unfold readahead in Hr. unfold this_block_len. rewrite Hbl in *.
  destruct (at_eof e); [apply Z.ltb_lt in Hr | apply Z.leb_le in Hr]; lia.
Qed.

(** A pass keeps the window invariant, moves the cursor forward and does
    not stop the program. *)
Lemma wf_encode_block (n b : Z) (e : enc_t) :
  wf n b e -> readahead e = true ->
  match encode_block sums e with
  | Next e' => wf n b e' /\ cursor (inbuf e) < cursor (inbuf e') /\
               amount (inbuf e') = amount (inbuf e)
  | Return r e' => wf n b e'
  | Crash | NoFuel => False
  end.
Proof.
  intros Hwf Hr.
  pose proof (readahead_room n b e Hwf Hr) as [Htbl Hin].
  destruct Hwf as (Hbl & Hnbl & Hb & Hlen & Hcur & Hamt & Habs & Hsum & Heof).
  pose proof (encode_block_spec sums e) as Hs.
  destruct (encode_block sums e) as [e' | r e' | |].
  - destruct Hs as (_ & (Hup & Hae & Hbl' & Hnbl') & token & w & _ & Hcase).
    assert (Hadv : exists d, 1 <= d <= this_block_len e /\ advanced d e e').
    { destruct Hcase as [(_ & Ha & _) | (_ & Ha & _)].
      - exists (this_block_len e); split; [lia | exact Ha].
      - exists 1; split; [lia | exact Ha]. }
    destruct Hadv as (d & Hd & Ha). unfold advanced in Ha.
    unfold wf. rewrite Ha, Hup, Hae, Hbl', Hnbl'; simpl.
    repeat split; try assumption; try lia.
  - destruct Hs as (_ & (Hup & Hae & Hbl' & Hnbl') & Hib & _).
    unfold wf. rewrite Hib, Hup, Hae, Hbl', Hnbl'.
    repeat split; try assumption; try lia.
  - lia.
  - exact Hs.
Qed.

Lemma wf_slide (n b : Z) (e : enc_t) :
  wf n b e -> readahead e = false -> at_eof e = false -> wf_head n b (slide e).
Proof.
  intros (Hbl & Hnbl & Hb & Hlen & Hcur & Hamt & Habs & Hsum & Heof) Hr Hae.
  unfold readahead in Hr. rewrite Hae in Hr. apply Z.leb_gt in Hr.
  destruct (slide_frame e)
    as (Hb1 & Hb2 & _ & _ & _ & _ & Hae' & Hup & _ & Hab' & Hc' & Ham' & Hl').
  unfold wf_head, wf. rewrite Hb1, Hb2, Hae', Hup, Hab', Hc', Ham', Hl'.
  repeat split; try assumption; try lia.
Qed.

(** At the end of the input the inner loop stops with the whole window
    consumed and nothing left upstream. *)
Lemma wf_exit (n b : Z) (e : enc_t) :
  wf n b e -> readahead e = false -> at_eof e = true ->
  abspos (inbuf e) + cursor (inbuf e) = n /\
  cursor (inbuf e) = amount (inbuf e).
Proof.
  intros (Hbl & Hnbl & Hb & Hlen & Hcur & Hamt & Habs & Hsum & Heof) Hr Hae.
  unfold readahead in Hr. rewrite Hae in Hr. apply Z.ltb_ge in Hr.
  rewrite (Heof Hae) in Hsum. unfold zlen in Hsum; simpl in Hsum. lia.
Qed.

(** *** Termination *)

Lemma scan_runs (n b : Z) (fuel : nat) :
  forall e, wf n b e ->
    amount (inbuf e) - cursor (inbuf e) <= Z.of_nat fuel ->
    match scan fuel sums e with
    | Crash | NoFuel => False
    | _ => True
    end.
Proof.
  induction fuel as [| fuel IH]; intros e Hwf Hm; simpl.
  - destruct (readahead e) eqn:Hr; [| exact I].
    pose proof (readahead_room n b e Hwf Hr). lia.
  - destruct (readahead e) eqn:Hr; [| exact I].
    pose proof (wf_encode_block n b e Hwf Hr) as Hs.
    destruct (encode_block sums e) as [e' | r e' | |]; auto.
    destruct Hs as (Hwf' & Hlt & Ham). apply IH; [assumption | lia].
Qed.

Lemma wf_scan (n b : Z) (fuel : nat) (e : enc_t) :
  wf n b e ->
  match scan fuel sums e with
  | Next e' => wf n b e' /\ readahead e' = false
  | Return r e' => wf n b e'
  | Crash | NoFuel => True
  end.
Proof.
  intros Hwf.
  apply (scan_inv (wf n b) (fun _ e' => wf n b e')); [| assumption].
  intros e0 H0 Hr. pose proof (wf_encode_block n b e0 H0 Hr) as Hs.
  destruct (encode_block sums e0); tauto.
Qed.

(** The inner loop touches neither the source nor the size of the window
    nor the end-of-input flag. *)
Lemma scan_frame (fuel : nat) (e : enc_t) :
  match scan fuel sums e with
  | Next e' =>
      upstream e' = upstream e /\ len (inbuf e') = len (inbuf e) /\
      at_eof e' = at_eof e
  | _ => True
  end.
Proof.
  assert (H : forall e0,
             upstream e0 = upstream e /\ len (inbuf e0) = len (inbuf e) /\
             at_eof e0 = at_eof e ->
             readahead e0 = true ->
             match encode_block sums e0 with
             | Next e' =>
                 upstream e' = upstream e /\ len (inbuf e') = len (inbuf e) /\
                 at_eof e' = at_eof e
             | _ => True
             end); cycle 1.
  { pose proof
      (scan_inv
         (fun e0 => upstream e0 = upstream e /\
                    len (inbuf e0) = len (inbuf e) /\ at_eof e0 = at_eof e)
         (fun _ _ => True)) as Hi.
    cbv beta in Hi.
    assert (Hstep : forall e0,
               upstream e0 = upstream e /\ len (inbuf e0) = len (inbuf e) /\
               at_eof e0 = at_eof e ->
               readahead e0 = true ->
               match encode_block sums e0 with
               | Next e' =>
                   upstream e' = upstream e /\
                   len (inbuf e') = len (inbuf e) /\ at_eof e' = at_eof e
               | Return _ _ => True
               | Crash | NoFuel => True
               end).
    { intros e0 H0 Hr. specialize (H e0 H0 Hr).
      destruct (encode_block sums e0); auto. }
    specialize (Hi Hstep fuel e (conj eq_refl (conj eq_refl eq_refl))).
    destruct (scan fuel sums e); try exact I. tauto. }
  intros e0 H0 _.
  pose proof (encode_block_spec sums e0) as Hs.
  destruct (encode_block sums e0) as [e' | r e' | |]; try exact I.
  destruct H0 as (Hu & Hl & Ha).
  destruct Hs as (_ & (Hup & Hae & _) & token & w & _ & Hcase).
  assert (Hlen : len (inbuf e') = len (inbuf e0)).
  { destruct Hcase as [(_ & Hadv & _) | (_ & Hadv & _)];
      unfold advanced in Hadv; rewrite Hadv; reflexivity. }
  repeat split; congruence.
Qed.

(** A refill that does not raise the end-of-input flag has taken bytes from
    the source. *)
Lemma refill_progress (e : enc_t) :
  len (inbuf (refill e)) = len (inbuf e) /\
  (at_eof (refill e) = false ->
   zlen (data (upstream (refill e))) < zlen (data (upstream e))).
Proof.
  unfold refill, _hs_fill_inbuf.
  pose proof (stream_read_split (len (inbuf e) - amount (inbuf e)) (upstream e)) as Hsp.
  destruct (stream_read _ _) as [bs up']; simpl in *.
  split; [reflexivity |]. intros H0. apply Z.eqb_neq in H0.
  rewrite Hsp, zlen_app. pose proof (zlen_nonneg bs). lia.
Qed.

(** With a unit of fuel per byte of the stream, and one to spare, and as
    much fuel for the inner loop as the window is long, the loop comes to
    an end. *)
Lemma encode_loop_runs (n b : Z) (k : nat) (fuel : nat) :
  forall e, wf_head n b e ->
    len (inbuf e) <= Z.of_nat k ->
    zlen (data (upstream e)) < Z.of_nat fuel ->
    match encode_loop fuel k sums e with
    | Crash | NoFuel => False
    | _ => True
    end.
Proof.
  induction fuel as [| fuel IH]; intros e Hh Hk Hf; simpl.
  - pose proof (zlen_nonneg (data (upstream e))). lia.
  - pose proof (wf_refill n b e Hh) as Hwf.
    destruct (refill_progress e) as [Hlen Hprog].
    assert (Hk' : amount (inbuf (refill e)) - cursor (inbuf (refill e))
                  <= Z.of_nat k).
    { destruct Hwf as (_ & _ & _ & _ & Hc & Ha & _). lia. }
    pose proof (scan_runs n b k (refill e) Hwf Hk') as Hr.
    pose proof (wf_scan n b k (refill e) Hwf) as Hs.
    pose proof (scan_frame k (refill e)) as Hfr.
    destruct (scan k sums (refill e)) as [e2 | r e2 | |]; auto.
    destruct Hs as [Hwf2 Hra]. destruct Hfr as (Hu2 & Hl2 & Ha2).
    destruct (at_eof e2) eqn:Hae; [exact I |].
    destruct (slide_frame e2)
      as (_ & _ & _ & _ & _ & _ & _ & Hu3 & _ & _ & _ & _ & Hl3).
    apply IH.
    + apply wf_slide; assumption.
    + lia.
    + rewrite Hu3, Hu2. symmetry in Ha2. specialize (Hprog Ha2). lia.
Qed.

End Loops.

(** ** The whole of [hs_encode] *)

Section Whole.

Context {C : collaborators}.

Lemma littok_header_taken (k : sink) :
  refuses k = false ->
  fst (_hs_littok_header k) = 0 /\
  written (after_header k) = written k ++ [Magic (u32 HS_LT_MAGIC)] /\
  (quota k = None -> quota (after_header k) = None).
Proof.
  unfold refuses, after_header, _hs_littok_header, _hs_write_netlong, sink_write.
  destruct (quota k) as [[| q] |]; simpl; intros H; try discriminate;
    repeat split; congruence.
Qed.

(** Past the checks, [hs_encode] is its loop followed by the final
    flushes. *)
Lemma hs_encode_run (fuel : nat) (sigs up : stream) (k : sink)
    (s : hs_stats_t) :
  header_ok sigs = true -> refuses k = false ->
  hs_encode fuel sigs up k s =
  match encode_loop fuel fuel (old_sums sigs)
          (start (old_block_len sigs) up (after_header k)) with
  | Next e' => encode_finish e'
  | r => r
  end.
Proof.
  intros Hok Hk.
  destruct (littok_header_taken k Hk) as (Hret & _).
  unfold hs_encode, header_ok, old_sums, old_block_len, after_header in *.
  destruct (_hs_check_sig_version sigs) as [ret sigs1].
  destruct (_hs_read_blocksize sigs1) as [[r bl] sigs2].
  destruct (_hs_make_sum_struct sigs2 bl) as [ret3 sums].
  apply andb_prop in Hok as [Hok H3]. apply andb_prop in Hok as [H1 H2].
  apply Z.leb_le in H1, H2, H3. simpl in H3.
  replace (ret <? 0) with false by (symmetry; apply Z.ltb_ge; lia).
  replace (r <? 0) with false by (symmetry; apply Z.ltb_ge; lia).
  replace (ret3 <? 0) with false by (symmetry; apply Z.ltb_ge; lia).
  cbn [out with_block_len with_rollsum with_stats enter].
  destruct (_hs_littok_header k) as [ret4 k1]. simpl in Hret. subst ret4.
  reflexivity.
Qed.

(** Short of that it returns a negative code and has written nothing. *)
Lemma hs_encode_refused (fuel : nat) (sigs up : stream) (k : sink)
    (s : hs_stats_t) :
  header_ok sigs = false \/ refuses k = true ->
  exists ret e,
    hs_encode fuel sigs up k s = Return ret e /\ ret < 0 /\
    out e = k /\ stats e = stats_zero /\ trace e = [].
Proof.
  intros H.
  unfold hs_encode, header_ok in *.
  destruct (_hs_check_sig_version sigs) as [ret sigs1].
  destruct (ret <? 0) eqn:H1.
  { apply Z.ltb_lt in H1. eexists _, _; split; [reflexivity |].
    repeat split; assumption. }
  destruct (_hs_read_blocksize sigs1) as [[r bl] sigs2].
  destruct (r <? 0) eqn:H2.
  { eexists _, _; split; [reflexivity |]. repeat split; try lia. }
  destruct (_hs_make_sum_struct sigs2 bl) as [ret3 sums].
  destruct (ret3 <? 0) eqn:H3.
  { apply Z.ltb_lt in H3. eexists _, _; split; [reflexivity |].
    repeat split; assumption. }
  apply Z.ltb_ge in H1, H2, H3.
  destruct H as [H | H].
  { simpl in H. apply andb_false_iff in H as [H | H];
      [apply andb_false_iff in H as [H | H] |]; apply Z.leb_gt in H; lia. }
  cbn [out with_block_len with_rollsum with_stats enter].
  unfold refuses in H.
  unfold _hs_littok_header, _hs_write_netlong, sink_write.
  destruct (quota k) as [[| q] |] eqn:Hq; try discriminate.
  simpl. eexists _, _; split; [reflexivity |].
  repeat split; try lia.
Qed.

Lemma hs_encode_cases (sigs : stream) (k : sink) :
  (header_ok sigs = true /\ refuses k = false) \/
  (header_ok sigs = false \/ refuses k = true).
Proof. destruct (header_ok sigs), (refuses k); auto. Qed.

(** The final flushes: the buffered literals are counted as literal bytes,
    the signature buffer as signature bytes, and the trace is left alone. *)
Lemma encode_finish_spec (e : enc_t) :
  exists ret e',
    encode_finish e = Return ret e' /\ trace e' = trace e /\
    block_len e' = block_len e /\
    (ret = 1 ->
     lit_bytes (stats e') = lit_bytes (stats e) + zlen (lit_tmpbuf e) /\
     copy_bytes (stats e') = copy_bytes (stats e) /\
     copy_cmds (stats e') = copy_cmds (stats e)).
Proof.
  unfold encode_finish.
  destruct (_hs_flush_literal_buf (lit_tmpbuf e) (out e) (stats e) op_literal_1)
    as [[[ret m] k] s] eqn:Hf.
  apply flush_literal_spec in Hf.
  destruct Hf as [(-> & -> & Hlb & Hcb & _ & _ & Hcc & _) | (-> & -> & -> & ->)].
  2:{ simpl. eexists _, _; split; [reflexivity |]. repeat split; lia. }
  change (0 <? 0) with false; cbv iota.
  cbn [with_stats with_out with_lit_tmpbuf sig_tmpbuf out stats].
  unfold _hs_flush_literal_buf at 1, _hs_emit_eof, sink_write.
  destruct (sig_tmpbuf e) as [| c sg];
    destruct (quota k) as [[| [| q]] |]; cbn -[Z.add];
    eexists _, _; (split; [reflexivity |]);
    (split; [reflexivity |]); (split; [reflexivity |]);
    intros H1; try discriminate H1; repeat split; simpl; lia.
Qed.

Lemma wf_head_start (b : Z) (up : stream) (k : sink) :
  0 < b -> b <= alloc_len b -> wf_head (zlen (data up)) b (start b up k).
Proof.
  intros Hb Ha. unfold wf_head, wf, start; simpl.
  repeat split; try lia; try discriminate.
Qed.

End Whole.

(** ** Results on the whole run *)

Section Run.

Context {C : collaborators}.

Lemma bytes_done_refill (e : enc_t) : bytes_done (refill e) = bytes_done e.
Proof.
  destruct (refill_frame e) as (_ & _ & _ & Hs & Hl & _).
  unfold bytes_done; rewrite Hs, Hl; reflexivity.
Qed.

Lemma bytes_done_slide (e : enc_t) : bytes_done (slide e) = bytes_done e.
Proof.
  destruct (slide_frame e) as (_ & _ & _ & Hs & Hl & _).
  unfold bytes_done; rewrite Hs, Hl; reflexivity.
Qed.


(** C2.  Every successful encode accounts for each byte of the new file
    exactly once: the literal bytes and the copied bytes of the returned
    statistics add up to the length of the input.  (The block length read
    from the old signature is positive and the window holds at least one
    block.) *)
Theorem literal_and_copy_bytes_cover_input (fuel : nat) (sigs up : stream)
    (k : sink) (s : hs_stats_t) (e : enc_t) :
  0 < old_block_len sigs ->
  old_block_len sigs <= alloc_len (old_block_len sigs) ->
  hs_encode fuel sigs up k s = Return 1 e ->
  lit_bytes (stats e) + copy_bytes (stats e) = zlen (data up).
Proof.
  intros Hb Ha Hrun.
  destruct (hs_encode_cases sigs k) as [[Hok Hq] | Hbad].
  2:{ destruct (hs_encode_refused fuel sigs up k s Hbad)
        as (ret & e' & H & Hneg & _).
      rewrite Hrun in H. injection H as <- _. lia. }
  rewrite (hs_encode_run fuel sigs up k s Hok Hq) in Hrun.
  set (n := zlen (data up)) in *. set (b := old_block_len sigs) in *.
  pose proof
    (encode_loop_inv (old_sums sigs)
       (fun e0 => wf_head n b e0 /\
                  bytes_done e0 = abspos (inbuf e0) + cursor (inbuf e0))
       (fun e0 => wf n b e0 /\
                  bytes_done e0 = abspos (inbuf e0) + cursor (inbuf e0))
       (fun e0 => bytes_done e0 = n)
       (fun r _ => r = -1)) as Hinv.
  cbv beta in Hinv.
  assert (Hloop :
    match encode_loop fuel fuel (old_sums sigs) (start b up (after_header k)) with
    | Next e' => bytes_done e' = n
    | Return r _ => r = -1
    | _ => True
    end).
  { apply Hinv.
    - (* refill *)
      intros e0 [Hh Hd]. split; [apply wf_refill; assumption |].
      destruct (refill_frame e0) as (_ & _ & _ & _ & _ & _ & Hab & Hc).
      destruct Hh as (_ & Hc0 & _).
      rewrite bytes_done_refill, Hab, Hc. lia.
    - (* one pass *)
      intros e0 [Hwf Hd] Hr.
      pose proof (wf_encode_block (old_sums sigs) n b e0 Hwf Hr) as Hw.
      pose proof (encode_block_spec (old_sums sigs) e0) as Hs.
      destruct (encode_block (old_sums sigs) e0) as [e' | r e' | |];
        try exact I.
      + destruct Hw as (Hwf' & _). split; [assumption |].
        destruct Hs as (_ & _ & token & w & _ & Hcase).
        destruct Hcase as [(_ & Hadv & Hbd & _) | (_ & Hadv & Hbd & _)];
          unfold advanced in Hadv; rewrite Hadv, Hbd; simpl; lia.
      + tauto.
    - (* slide, more to come *)
      intros e0 [Hwf Hd] Hr Hae. split; [apply wf_slide; assumption |].
      destruct (slide_frame e0)
        as (_ & _ & _ & _ & _ & _ & _ & _ & _ & Hab & Hc & _).
      rewrite bytes_done_slide, Hab, Hc. lia.
    - (* slide, at the end *)
      intros e0 [Hwf Hd] Hr Hae.
      destruct (wf_exit n b e0 Hwf Hr Hae) as [Hn _].
      rewrite bytes_done_slide. lia.
    - split; [apply wf_head_start; assumption | reflexivity]. }
  destruct (encode_loop _ _ _ _) as [eL | r e' | |]; try discriminate.
  - destruct (encode_finish_spec eL) as (ret & e' & Hfin & _ & _ & Hst).
    rewrite Hfin in Hrun. injection Hrun as -> ->.
    destruct (Hst eq_refl) as (Hl & Hc & _).
    unfold bytes_done in Hloop. lia.
  - injection Hrun as -> _. lia.
Qed.

(** *** The readahead policy *)

Lemma match_event_ok (b : Z) (e : enc_t) (token : Z) :
  block_len e = b -> readahead e = true ->
  (0 < b -> 0 <= cursor (inbuf e)) ->
  match_ok b (match_event e token).
Proof.
  intros Hbl Hr Hc.
  unfold readahead in Hr. unfold match_ok, match_event, this_block_len.
  rewrite Hbl in *.
  destruct (at_eof e).
  - apply Z.ltb_lt in Hr.
    destruct (Z.le_gt_cases (cursor (inbuf e) + b) (amount (inbuf e))).
    + repeat split; lia.
    + repeat split; lia.
  - apply Z.leb_le in Hr. repeat split; lia.
Qed.

Lemma hash_events_ok (b : Z) (e : enc_t) (w : Z) :
  Forall (match_ok b) (hash_events e w).
Proof.
  unfold hash_events. destruct (_ =? _); repeat constructor.
Qed.

(** C9.  Every lookup of a run tries a block inside the valid part of the
    window: a full block when [cursor + block_len <= amount], and otherwise
    only at the end of the input, the block then being the
    [amount - cursor] bytes that are left. *)
Theorem match_only_within_window (fuel : nat) (sigs up : stream)
    (k : sink) (s : hs_stats_t) (ret : Z) (e : enc_t) :
  hs_encode fuel sigs up k s = Return ret e ->
  Forall (match_ok (block_len e)) (trace e).
Proof.
  intros Hrun.
  destruct (hs_encode_cases sigs k) as [[Hok Hq] | Hbad].
  2:{ destruct (hs_encode_refused fuel sigs up k s Hbad)
        as (ret' & e' & H & _ & _ & _ & Ht).
      rewrite Hrun in H. injection H as _ <-. rewrite Ht. constructor. }
  rewrite (hs_encode_run fuel sigs up k s Hok Hq) in Hrun.
  set (b := old_block_len sigs) in *.
  set (Inv := fun e0 : enc_t =>
                block_len e0 = b /\ (0 < b -> 0 <= cursor (inbuf e0)) /\
                Forall (match_ok b) (trace e0)).
  assert (Hloop :
    match encode_loop fuel fuel (old_sums sigs) (start b up (after_header k)) with
    | Next e' => Inv e'
    | Return _ e' => block_len e' = b /\ Forall (match_ok b) (trace e')
    | _ => True
    end).
  { apply (encode_loop_inv (old_sums sigs) Inv Inv Inv
             (fun _ e' => block_len e' = b /\ Forall (match_ok b) (trace e'))).
    - intros e0 (Hbl & _ & Ht).
      destruct (refill_frame e0) as (Hb' & _ & Ht' & _ & _ & _ & _ & Hc).
      unfold Inv. rewrite Hb', Ht', Hc. repeat split; try assumption; lia.
    - intros e0 (Hbl & Hc & Ht) Hr.
      pose proof (encode_block_spec (old_sums sigs) e0) as Hs.
      destruct (encode_block (old_sums sigs) e0) as [e' | r e' | |];
        try exact I.
      + destruct Hs as (_ & (_ & _ & Hbl' & _) & token & w & Htr & Hcase).
        assert (Hnew : Forall (match_ok b) (trace e')).
        { rewrite Htr. apply Forall_app; split; [assumption |].
          apply Forall_app; split; [apply hash_events_ok |].
          constructor; [apply match_event_ok; assumption | constructor]. }
        unfold Inv. repeat split; try congruence.
        intros Hb.
        pose proof (match_event_ok b e0 token Hbl Hr Hc) as (_ & _ & Hpos).
        destruct (Hpos Hb) as [Hc0 Hl0].
        destruct Hcase as [(_ & Hadv & _) | (_ & Hadv & _)];
          unfold advanced in Hadv; rewrite Hadv; simpl; lia.
      + destruct Hs as (_ & (_ & _ & Hbl' & _) & _ & token & w & Htr).
        split; [congruence |].
        rewrite Htr. apply Forall_app; split; [assumption |].
        apply Forall_app; split; [apply hash_events_ok |].
        constructor; [apply match_event_ok; assumption | constructor].
    - intros e0 (Hbl & _ & Ht) _ _.
      destruct (slide_frame e0)
        as (Hb' & _ & Ht' & _ & _ & _ & _ & _ & _ & _ & Hc & _).
      unfold Inv. rewrite Hb', Ht', Hc. repeat split; try assumption; lia.
    - intros e0 (Hbl & _ & Ht) _ _.
      destruct (slide_frame e0)
        as (Hb' & _ & Ht' & _ & _ & _ & _ & _ & _ & _ & Hc & _).
      unfold Inv. rewrite Hb', Ht', Hc. repeat split; try assumption; lia.
    - unfold Inv, start; simpl. repeat split; try lia. constructor. }
  destruct (encode_loop _ _ _ _) as [eL | r e' | |]; try discriminate.
  - destruct (encode_finish_spec eL) as (ret' & e' & Hfin & Ht & Hbl & _).
    rewrite Hfin in Hrun. injection Hrun as _ <-.
    destruct Hloop as (Hb' & _ & HF). rewrite Ht, Hbl, Hb'. exact HF.
  - injection Hrun as _ <-. destruct Hloop as [Hb' HF].
    rewrite Hb'. exact HF.
Qed.


End Run.

(** ** Block hashes *)

Section Hashes.

Context {C : collaborators}.




(** The loop is only left early on a refused write, with [-1]. *)
Lemma encode_loop_return (fuel k : nat) (sums : sum_struct) (e : enc_t) :
  match encode_loop fuel k sums e with
  | Return r _ => r = -1
  | _ => True
  end.
Proof.
  pose proof
    (encode_loop_inv sums (fun _ => True) (fun _ => True) (fun _ => True)
       (fun r _ => r = -1)) as H.
  cbv beta in H.
  assert (Hstep : forall e0 : enc_t, True -> readahead e0 = true ->
            match encode_block sums e0 with
            | Next _ => True
            | Return r _ => r = -1
            | _ => True
            end).
  { intros e0 _ _. pose proof (encode_block_spec sums e0) as Hs.
    destruct (encode_block sums e0); try exact I. apply Hs. }
  specialize (H (fun _ _ => I) Hstep (fun _ _ _ _ => I) (fun _ _ _ _ => I)
                fuel k e I).
  destruct (encode_loop fuel k sums e); try exact I. exact H.
Qed.


End Hashes.

(** ** The empty input *)

Section Empty.

Context {C : collaborators}.



End Empty.

(** ** A sink that takes every write *)

Section Open.

Context {C : collaborators}.

Lemma sink_write_open (ok : Z) (c : cmd) (k : sink) :
  quota k = None ->
  sink_write ok c k = (ok, {| written := written k ++ [c]; quota := None |}).
Proof. intros Hq. unfold sink_write. rewrite Hq. reflexivity. Qed.

Lemma flush_open (m : list Z) (k : sink) (s : hs_stats_t) (kind : hs_op) :
  quota k = None ->
  exists k' s',
    _hs_flush_literal_buf m k s kind = (0, [], k', s') /\ quota k' = None.
Proof.
  intros Hq. unfold _hs_flush_literal_buf. destruct m as [| c m].
  - eexists _, _; split; [reflexivity | assumption].
  - rewrite (sink_write_open _ _ _ Hq). change (0 <? 0) with false. cbv iota.
    eexists _, _; split; reflexivity.
Qed.

Lemma encode_copy_open (token : Z) (e : enc_t) :
  quota (out e) = None ->
  exists e', encode_copy token e = Next e' /\ quota (out e') = None.
Proof.
  intros Hq. unfold encode_copy.
  destruct (flush_open (lit_tmpbuf e) (out e) (stats e) op_literal_1 Hq)
    as (k' & s' & -> & Hq').
  change (0 <? 0) with false. cbv iota.
  cbn [with_stats with_out with_lit_tmpbuf out stats block_len].
  unfold _hs_emit_copy. rewrite (sink_write_open _ _ _ Hq').
  change (0 <? 0) with false. cbv iota.
  eexists; split; reflexivity.
Qed.

Lemma encode_block_open (sums : sum_struct) (e : enc_t) :
  quota (out e) = None ->
  match encode_block sums e with
  | Next e' => quota (out e') = None
  | Return _ _ => False
  | Crash | NoFuel => True
  end.
Proof.
  intros Hq. unfold encode_block.
  destruct (_hs_update_sums _ _ _ _) as [r |]; [| exact I].
  destruct (_hs_signature_ready _ _) as [ready |]; [| exact I].
  match goal with
  | |- context [log ?ev ?x] =>
      set (e3 := log ev x);
      assert (H3 : quota (out e3) = None)
        by (subst e3; destruct ready;
            [destruct (_hs_output_block_hash _ _ _ _) |]; exact Hq);
      clearbody e3
  end.
  match goal with
  | |- context [encode_copy ?t e3] =>
      destruct (encode_copy_open t e3 H3) as (e1 & He1 & Hq1)
  end.
  destruct (encode_literal_spec e3) as (e2 & He2 & _ & _ & _ & _ & Ho & _).
  destruct (0 <? _).
  - rewrite He1. exact Hq1.
  - rewrite He2, Ho. exact H3.
Qed.

Lemma encode_loop_open (fuel k : nat) (sums : sum_struct) (e : enc_t) :
  quota (out e) = None ->
  match encode_loop fuel k sums e with
  | Next e' => quota (out e') = None
  | Return _ _ => False
  | Crash | NoFuel => True
  end.
Proof.
  intros Hq.
  apply (encode_loop_inv sums
           (fun e0 => quota (out e0) = None) (fun e0 => quota (out e0) = None)
           (fun e0 => quota (out e0) = None) (fun _ _ => False));
    try assumption.
  - intros e0 H0. destruct (refill_frame e0) as (_ & _ & _ & _ & _ & -> & _).
    exact H0.
  - intros e0 H0 _. apply encode_block_open, H0.
  - intros e0 H0 _ _.
    destruct (slide_frame e0) as (_ & _ & _ & _ & _ & -> & _). exact H0.
  - intros e0 H0 _ _.
    destruct (slide_frame e0) as (_ & _ & _ & _ & _ & -> & _). exact H0.
Qed.

Lemma encode_finish_succeeds (e : enc_t) :
  quota (out e) = None -> exists e', encode_finish e = Return 1 e'.
Proof.
  intros Hq. unfold encode_finish.
  destruct (flush_open (lit_tmpbuf e) (out e) (stats e) op_literal_1 Hq)
    as (k1 & s1 & -> & Hq1).
  change (0 <? 0) with false. cbv iota.
  cbn [with_stats with_out with_lit_tmpbuf sig_tmpbuf out stats].
  destruct (flush_open (sig_tmpbuf e) k1 s1 op_signature_1 Hq1)
    as (k2 & s2 & -> & Hq2).
  change (0 <? 0) with false. cbv iota.
  cbn [with_stats with_out with_sig_tmpbuf out].
  unfold _hs_emit_eof. rewrite (sink_write_open _ _ _ Hq2).
  change (0 <? 0) with false. cbv iota.
  eexists; reflexivity.
Qed.

(** X20.  The encode succeeds: with an old signature that passes the
    checks, a positive block length, a window that holds a block, a sink
    that takes every write and enough fuel, [hs_encode] returns 1. *)
Lemma hs_encode_succeeds (fuel : nat) (sigs up : stream) (k : sink)
    (s : hs_stats_t) :
  header_ok sigs = true -> quota k = None ->
  0 < old_block_len sigs ->
  old_block_len sigs <= alloc_len (old_block_len sigs) ->
  alloc_len (old_block_len sigs) <= Z.of_nat fuel ->
  zlen (data up) < Z.of_nat fuel ->
  exists e, hs_encode fuel sigs up k s = Return 1 e.
Proof.
  intros Hok Hq Hb Ha Hk Hf.
  assert (Hr : refuses k = false) by (unfold refuses; rewrite Hq; reflexivity).
  rewrite (hs_encode_run fuel sigs up k s Hok Hr).
  destruct (littok_header_taken k Hr) as (_ & _ & Hq'). specialize (Hq' Hq).
  pose proof (encode_loop_runs (old_sums sigs) (zlen (data up))
                (old_block_len sigs) fuel fuel
                (start (old_block_len sigs) up (after_header k))
                (wf_head_start _ up _ Hb Ha) Hk Hf) as Hruns.
  pose proof (encode_loop_open fuel fuel (old_sums sigs)
                (start (old_block_len sigs) up (after_header k)) Hq') as Hopen.
  destruct (encode_loop _ _ _ _) as [eL | r e' | |]; try contradiction.
  apply encode_finish_succeeds, Hopen.
Qed.

End Open.

(** ** The rolling checksum *)

Lemma halves_join (w : Z) :
  0 <= w < 2 ^ 32 ->
  w = Z.lor (Z.land w 65535) (Z.shiftl (Z.shiftr w 16) 16).
Proof.
  intros Hw.
  change 65535 with (Z.ones 16). rewrite Z.land_ones by lia.
  rewrite Z.shiftr_div_pow2, Z.shiftl_mul_pow2 by lia.
  assert (Hl : Z.land (w mod 2 ^ 16) (w / 2 ^ 16 * 2 ^ 16) = 0).
  { apply Z.bits_inj'. intros i Hi.
    rewrite Z.land_spec, Z.bits_0.
    destruct (Z.ltb_spec i 16).
    - rewrite <- Z.shiftl_mul_pow2 by lia.
      rewrite Z.shiftl_spec_low by lia. apply andb_false_r.
    - rewrite Z.mod_pow2_bits_high by lia. reflexivity. }
  rewrite <- (Z.lxor_lor _ _ Hl), <- (Z.add_nocarry_lxor _ _ Hl).
  pose proof (Z.div_mod w (2 ^ 16)). lia.
Qed.

Lemma calc_weak_sum_range (off : Z) (bs : list Z) :
  0 <= _hs_calc_weak_sum off bs < 2 ^ 32.
Proof.
  unfold _hs_calc_weak_sum. destruct (weak_acc off bs 0 0) as [a1 a2].
  unfold u32. apply Z.mod_pos_bound. reflexivity.
Qed.

(** After a fresh computation the weak sum is split into the two
    accumulators, low half and high half. *)
Lemma fresh_sum_is_split (off : Z) (b : inbuf_t) (n : Z) (r r' : rollsum_t) :
  havesum r = false -> _hs_update_sums off b n r = Some r' ->
  havesum r' = true /\
  weak_sum r' = Z.lor (s1 r') (Z.shiftl (s2 r') 16) /\
  0 <= s1 r' < 2 ^ 16 /\ 0 <= s2 r' < 2 ^ 16.
Proof.
  intros Hh Hu. unfold _hs_update_sums in Hu. rewrite Hh in Hu.
  cbn [negb] in Hu. injection Hu as <-. cbn [havesum weak_sum s1 s2].
  pose proof (calc_weak_sum_range off (sub (buf b) (cursor b) n)) as Hw.
  set (w := _hs_calc_weak_sum off (sub (buf b) (cursor b) n)) in *.
  clearbody w.
  split; [reflexivity |]. split; [apply halves_join; assumption |]. split.
  - change 65535 with (Z.ones 16). rewrite Z.land_ones by lia.
    apply Z.mod_pos_bound. reflexivity.
  - rewrite Z.shiftr_div_pow2 by lia. split.
    + apply Z.div_pos; lia.
    + apply Z.div_lt_upper_bound; lia.
Qed.

(** The offsets are gone through one by one, each by evaluation. *)
Ltac each_offset tac :=
  unfold offsets; cbn [map seq];
  repeat (apply Forall_cons; [tac |]); apply Forall_nil.

(** C3.  On [carry_input] with blocks of 258 bytes the weak sum rolled
    forward from position 0 differs from the weak sum computed afresh over
    the same window, whatever the character offset between 0 and 31: the
    byte sum of the window has grown past 16 bits and [_hs_update_sums]
    adds the unmasked [s1] into the high half. *)
Theorem rolled_sum_differs_from_fresh :
  Forall
    (fun off =>
       exists r,
         roll_to off carry_input 258 (carry_pos off) = Some r /\
         weak_sum r <>
         _hs_calc_weak_sum off
           (sub carry_input (Z.of_nat (carry_pos off)) 258))
    offsets.
Proof.
  each_offset
    ltac:(eexists; split;
          [vm_compute; reflexivity | vm_compute; discriminate]).
Qed.

(** C8.  On the same input the state that holds the sum of the window
    reached by rolling has a [weak_sum] that is not [s1 | (s2 << 16)]:
    [s1] has left the low 16 bits and the sum carries into the high half. *)
Theorem rolled_sum_is_not_split :
  Forall
    (fun off =>
       exists r,
         roll_to off carry_input 258 (carry_pos off) = Some r /\
         havesum r = true /\ 2 ^ 16 <= s1 r /\
         weak_sum r <> u32 (Z.lor (s1 r) (Z.shiftl (s2 r) 16)))
    offsets.
Proof.
  each_offset
    ltac:(eexists; split; [vm_compute; reflexivity |];
          split; [reflexivity |];
          split; vm_compute; discriminate).
Qed.

(** ** Rolling without carry *)

Section NoCarry.

Variable off : Z.

Lemma u32_add_l (a b : Z) : u32 (u32 a + b) = u32 (a + b).
Proof. unfold u32. apply Z.add_mod_idemp_l. discriminate. Qed.

Lemma u32_add_r (a b : Z) : u32 (a + u32 b) = u32 (a + b).
Proof. unfold u32. apply Z.add_mod_idemp_r. discriminate. Qed.

Lemma u32_small (a : Z) : 0 <= a < 2 ^ 16 -> u32 a = a.
Proof. intros H. unfold u32. apply Z.mod_small. lia. Qed.

Lemma u32_quot (a : Z) : exists q, u32 a = a + 2 ^ 32 * q.
Proof.
  exists (- (a / 2 ^ 32)). unfold u32. rewrite Z.mod_eq by discriminate. lia.
Qed.

Lemma mod16_intro (x y q : Z) :
  x = y + 2 ^ 16 * q -> x mod 2 ^ 16 = y mod 2 ^ 16.
Proof.
  intros ->. rewrite Z.mul_comm. apply Z.mod_add. discriminate.
Qed.

Lemma mod16_elim (x y : Z) :
  x mod 2 ^ 16 = y mod 2 ^ 16 -> exists q, x = y + 2 ^ 16 * q.
Proof.
  intros H. exists (x / 2 ^ 16 - y / 2 ^ 16).
  pose proof (Z.div_mod x (2 ^ 16)). pose proof (Z.div_mod y (2 ^ 16)). lia.
Qed.

(** A low half and a high half put together. *)
Lemma halves_sum (a x : Z) :
  0 <= a < 2 ^ 16 ->
  u32 (a + x * 2 ^ 16) = a + (x mod 2 ^ 16) * 2 ^ 16.
Proof.
  intros Ha. unfold u32. symmetry.
  pose proof (Z.mod_pos_bound x (2 ^ 16)).
  apply (Z.mod_unique _ _ (x / 2 ^ 16)); [left; lia |].
  pose proof (Z.div_mod x (2 ^ 16)). lia.
Qed.

Lemma lor_halves (a x : Z) :
  0 <= a < 2 ^ 16 -> Z.lor a (Z.shiftl x 16) = a + x * 2 ^ 16.
Proof.
  intros Ha. rewrite Z.shiftl_mul_pow2 by lia.
  assert (Hl : Z.land a (x * 2 ^ 16) = 0).
  { apply Z.bits_inj'. intros i Hi.
    rewrite Z.land_spec, Z.bits_0.
    destruct (Z.ltb_spec i 16).
    - rewrite <- Z.shiftl_mul_pow2 by lia.
      rewrite Z.shiftl_spec_low by lia. apply andb_false_r.
    - rewrite <- (Z.mod_small a (2 ^ 16)) by lia.
      rewrite Z.mod_pow2_bits_high by lia. reflexivity. }
  rewrite <- (Z.lxor_lor _ _ Hl), <- (Z.add_nocarry_lxor _ _ Hl). reflexivity.
Qed.

(** The one-shot sum in terms of the exact sums. *)
Lemma weak_acc_spec (bs : list Z) :
  forall a1 a2,
    weak_acc off bs (u32 a1) (u32 a2) =
    (u32 (a1 + sum1 off bs), u32 (a2 + zlen bs * a1 + sum2 off bs)).
Proof.
  induction bs as [| x r IH]; intros a1 a2.
  - cbn [weak_acc sum1 sum2]. change (zlen []) with 0.
    f_equal; f_equal; lia.
  - cbn [weak_acc sum1 sum2].
    rewrite u32_add_l, u32_add_l, u32_add_r, IH.
    assert (Hz : zlen (x :: r) = zlen r + 1)
      by (unfold zlen; cbn [length]; lia).
    rewrite Hz. f_equal; f_equal; lia.
Qed.

Lemma calc_weak_sum_spec (w : list Z) :
  0 <= sum1 off w < 2 ^ 16 ->
  _hs_calc_weak_sum off w =
  sum1 off w + (sum2 off w mod 2 ^ 16) * 2 ^ 16.
Proof.
  intros H1. unfold _hs_calc_weak_sum.
  change 0 with (u32 0) at 1 2. rewrite weak_acc_spec.
  rewrite !Z.add_0_l, Z.mul_0_r, Z.add_0_l.
  rewrite (u32_small _ H1), (lor_halves _ _ H1), (halves_sum _ _ H1).
  f_equal. f_equal.
  destruct (u32_quot (sum2 off w)) as (q & ->).
  apply (mod16_intro _ _ (2 ^ 16 * q)). lia.
Qed.

(** The fresh path establishes the correspondence. *)
Lemma fresh_stands_for (b : inbuf_t) (n : Z) (r r' : rollsum_t) :
  havesum r = false ->
  0 <= sum1 off (sub (buf b) (cursor b) n) < 2 ^ 16 ->
  _hs_update_sums off b n r = Some r' ->
  stands_for off (sub (buf b) (cursor b) n) r'.
Proof.
  intros Hh H1 Hu. unfold _hs_update_sums in Hu. rewrite Hh in Hu.
  cbn [negb] in Hu. injection Hu as <-.
  unfold stands_for. cbn [havesum weak_sum s1 s2].
  rewrite (calc_weak_sum_spec _ H1).
  set (S1 := sum1 off (sub (buf b) (cursor b) n)) in *.
  set (S2 := sum2 off (sub (buf b) (cursor b) n)) in *.
  pose proof (Z.mod_pos_bound S2 (2 ^ 16)) as Hm.
  split; [reflexivity |]. split; [| split; [| reflexivity]].
  - change 65535 with (Z.ones 16). rewrite Z.land_ones by lia.
    rewrite Z.mod_add by discriminate. apply Z.mod_small. lia.
  - rewrite Z.shiftr_div_pow2 by lia.
    rewrite Z.div_add by discriminate.
    rewrite (Z.div_small S1) by lia. rewrite Z.add_0_l.
    apply Z.mod_mod. discriminate.
Qed.

(** *** Windows as lists *)

Lemma skipn_nth (l : list Z) :
  forall n, (n < length l)%nat ->
    skipn n l = nth n l 0 :: skipn (S n) l.
Proof.
  induction l as [| x l IH]; intros n Hn; [simpl in Hn; lia |].
  destruct n as [| n]; [reflexivity |].
  cbn [skipn nth]. apply IH. simpl in Hn. lia.
Qed.

Lemma firstn_snoc (l : list Z) :
  forall n, (n < length l)%nat ->
    firstn (S n) l = firstn n l ++ [nth n l 0].
Proof.
  induction l as [| x l IH]; intros n Hn; [simpl in Hn; lia |].
  destruct n as [| n]; [reflexivity |].
  cbn [firstn nth app]. f_equal. apply IH. simpl in Hn. lia.
Qed.

Lemma nth_skipn_add (l : list Z) :
  forall c n, nth n (skipn c l) 0 = nth (c + n) l 0.
Proof.
  induction l as [| x l IH]; intros c n.
  - rewrite skipn_nil. destruct n, c; reflexivity.
  - destruct c as [| c]; [reflexivity |]. cbn [skipn Nat.add nth]. apply IH.
Qed.

Lemma sub_cons (bs : list Z) (c b : Z) :
  0 <= c -> c < zlen bs -> 0 < b ->
  sub bs c b = byte_at bs c :: sub bs (c + 1) (b - 1).
Proof.
  intros Hc Hl Hb. unfold sub, byte_at, zlen in *.
  replace (Z.to_nat b) with (S (Z.to_nat (b - 1))) by lia.
  replace (Z.to_nat (c + 1)) with (S (Z.to_nat c)) by lia.
  rewrite (skipn_nth bs (Z.to_nat c)) by lia. reflexivity.
Qed.

Lemma sub_snoc (bs : list Z) (c b : Z) :
  0 <= c -> 0 <= b -> c + b < zlen bs ->
  sub bs c (b + 1) = sub bs c b ++ [byte_at bs (c + b)].
Proof.
  intros Hc Hb Hl. unfold sub, byte_at, zlen in *.
  replace (Z.to_nat (b + 1)) with (S (Z.to_nat b)) by lia.
  rewrite firstn_snoc by (rewrite length_skipn; lia).
  rewrite nth_skipn_add. do 3 f_equal. lia.
Qed.

Lemma zlen_sub (bs : list Z) (c b : Z) :
  0 <= c -> 0 <= b -> c + b <= zlen bs -> zlen (sub bs c b) = b.
Proof.
  intros Hc Hb Hl. unfold sub, zlen in *.
  rewrite length_firstn, length_skipn. lia.
Qed.

Lemma sum1_snoc (l : list Z) (y : Z) :
  sum1 off (l ++ [y]) = sum1 off l + (y + off).
Proof.
  induction l as [| x l IH]; cbn [app sum1]; [lia | rewrite IH; lia].
Qed.

Lemma sum2_snoc (l : list Z) (y : Z) :
  sum2 off (l ++ [y]) = sum2 off l + sum1 off l + (y + off).
Proof.
  induction l as [| x l IH].
  - cbn [app sum1 sum2]. change (zlen [y]) with 1. lia.
  - cbn [app sum1 sum2]. rewrite IH.
    assert (zlen (x :: l ++ [y]) = zlen (x :: l) + 1)
      by (unfold zlen; cbn [length]; rewrite length_app; cbn [length]; lia).
    lia.
Qed.

(** *** One step of the window *)

(** Dropping the leading byte and adding the trailing one keeps the state
    in step with the window, as long as the byte sum of the new window
    fits 16 bits. *)
Lemma roll_stands_for (bs : list Z) (b c : Z) (r : rollsum_t) :
  0 < b -> 0 <= c -> c + b < zlen bs ->
  0 <= sum1 off (sub bs (c + 1) b) < 2 ^ 16 ->
  stands_for off (sub bs c b) r ->
  exists r',
    _hs_update_sums off (window bs (c + 1)) b
      (_hs_roll_sums off (window bs c) r b) = Some r' /\
    stands_for off (sub bs (c + 1) b) r'.
Proof.
  intros Hb Hc Hl Hnew (Hh & H1 & H2 & _).
  pose proof (sub_cons bs c b Hc ltac:(lia) Hb) as Hold.
  pose proof (sub_snoc bs (c + 1) (b - 1) ltac:(lia) ltac:(lia) ltac:(lia))
    as Hnext.
  replace (b - 1 + 1) with b in Hnext by lia.
  replace (c + 1 + (b - 1)) with (c + b) in Hnext by lia.
  pose proof (zlen_sub bs (c + 1) (b - 1) ltac:(lia) ltac:(lia) ltac:(lia))
    as Hmid.
  set (M := sub bs (c + 1) (b - 1)) in *.
  set (x := byte_at bs c) in *. set (y := byte_at bs (c + b)) in *.
  assert (HS1 : sum1 off (sub bs (c + 1) b) =
                sum1 off (sub bs c b) - (x + off) + (y + off)).
  { rewrite Hnext, Hold, sum1_snoc. cbn [sum1]. lia. }
  assert (HS2 : sum2 off (sub bs (c + 1) b) =
                sum2 off (sub bs c b) - b * (x + off)
                + sum1 off (sub bs (c + 1) b)).
  { rewrite HS1, Hnext, Hold, sum2_snoc. cbn [sum1 sum2].
    assert (zlen (x :: M) = b) by (unfold zlen in *; cbn [length]; lia).
    lia. }
  unfold _hs_update_sums, _hs_roll_sums, window.
  cbn [havesum buf cursor amount s1 s2 weak_sum]. rewrite Hh. cbn [negb].
  replace (c + 1 + b - 1) with (c + b) by lia. fold y. fold x.
  replace (c + b <? 0) with false by (symmetry; apply Z.ltb_ge; lia).
  replace (c + b <=? zlen bs) with true by (symmetry; apply Z.leb_le; lia).
  eexists; split; [reflexivity |].
  unfold stands_for. cbn [havesum s1 s2 weak_sum].
  assert (Hs1 : u32 (u32 (s1 r - (x + off)) + (y + off)) =
                sum1 off (sub bs (c + 1) b)).
  { rewrite u32_add_l, H1, <- (u32_small _ Hnew), HS1; f_equal; lia. }
  rewrite Hs1.
  assert (Hs2 : u32 (u32 (s2 r - b * (x + off)) + sum1 off (sub bs (c + 1) b))
                  mod 2 ^ 16 = sum2 off (sub bs (c + 1) b) mod 2 ^ 16).
  { rewrite u32_add_l.
    destruct (u32_quot (s2 r - b * (x + off) + sum1 off (sub bs (c + 1) b)))
      as (q1 & ->).
    destruct (mod16_elim _ _ H2) as (q0 & Hq0).
    apply (mod16_intro _ _ (q0 + 2 ^ 16 * q1)). rewrite HS2. lia. }
  split; [reflexivity |]. split; [reflexivity |]. split; [exact Hs2 |].
  rewrite (calc_weak_sum_spec _ Hnew).
  rewrite Z.shiftl_mul_pow2 by lia.
  rewrite (halves_sum _ _ Hnew), Hs2. reflexivity.
Qed.

(** X21.  Rolling agrees with computing afresh while nothing carries: as
    long as the byte sum of every window passed fits 16 bits, the weak sum
    in the state rolled forward from position 0 is the weak sum computed
    afresh over the window reached. *)
Lemma roll_agrees_without_carry (bs : list Z) (b : Z) (i : nat) :
  0 < b -> Z.of_nat i + b <= zlen bs ->
  (forall c : nat, (c <= i)%nat ->
     0 <= sum1 off (sub bs (Z.of_nat c) b) < 2 ^ 16) ->
  exists r,
    roll_to off bs b i = Some r /\
    weak_sum r = _hs_calc_weak_sum off (sub bs (Z.of_nat i) b).
Proof.
  intros Hb Hl Hsum.
  assert (Hgen : forall n c r,
            (c + n <= i)%nat ->
            stands_for off (sub bs (Z.of_nat c) b) r ->
            exists r',
              roll_from off bs b (Z.of_nat c) n r = Some r' /\
              stands_for off (sub bs (Z.of_nat (c + n)) b) r').
  { induction n as [| n IH]; intros c r Hc Hr.
    - exists r. rewrite Nat.add_0_r. split; [reflexivity | assumption].
    - cbn [roll_from].
      destruct (roll_stands_for bs b (Z.of_nat c) r Hb ltac:(lia) ltac:(lia))
        as (r1 & Hu & Hr1); [| assumption |].
      { replace (Z.of_nat c + 1) with (Z.of_nat (S c)) by lia.
        apply Hsum. lia. }
      rewrite Hu.
      replace (Z.of_nat c + 1) with (Z.of_nat (S c)) in * by lia.
      destruct (IH (S c) r1 ltac:(lia) Hr1) as (r' & Hr' & Hst).
      exists r'. split; [exact Hr' |].
      replace (c + S n)%nat with (S c + n)%nat by lia. exact Hst. }
  unfold roll_to.
  destruct (_hs_update_sums off (window bs 0) b rollsum_init) as [r0 |] eqn:H0.
  2:{ unfold _hs_update_sums in H0. discriminate H0. }
  pose proof (fresh_stands_for (window bs 0) b rollsum_init r0 eq_refl
                (Hsum 0%nat ltac:(lia)) H0) as Hr0.
  cbn [window buf cursor] in Hr0.
  destruct (Hgen i 0%nat r0 ltac:(lia) Hr0) as (r & Hr & Hst).
  exists r. split; [exact Hr |]. apply Hst.
Qed.

End NoCarry.

(** ** The check of the old signature's magic *)

Section Magic.

Context {C : collaborators}.

(** X17.  A magic that was read in full and is not the expected one ends
    the call with [-1] before anything is written. *)
Lemma wrong_magic_rejected (fuel : nat) (sigs up : stream) (k : sink)
    (s : hs_stats_t) (v : Z) (sigs' : stream) :
  _hs_read_netlong sigs = (4, v, sigs') -> v <> u32 HS_SIG_MAGIC ->
  exists e,
    hs_encode fuel sigs up k s = Return (-1) e /\
    out e = k /\ stats e = stats_zero.
Proof.
  intros Hr Hv. unfold hs_encode, _hs_check_sig_version. rewrite Hr.
  change (negb (4 =? 4)) with false. cbv iota.
  apply Z.eqb_neq in Hv. rewrite Hv. cbn [negb].
  change (-1 <? 0) with true. cbv iota.
  eexists; split; [reflexivity |]. split; reflexivity.
Qed.

Lemma read_netlong_count (sigs : stream) :
  0 <= fst (fst (_hs_read_netlong sigs)) <= zlen (data sigs) /\
  zlen (data (snd (_hs_read_netlong sigs))) <= zlen (data sigs).
Proof.
  unfold _hs_read_netlong.
  pose proof (stream_read_split 4 sigs) as Hs.
  pose proof (zlen_nonneg (fst (stream_read 4 sigs))).
  pose proof (zlen_nonneg (data (snd (stream_read 4 sigs)))).
  destruct (stream_read 4 sigs) as [bs s']; simpl in *.
  rewrite Hs, zlen_app. lia.
Qed.

(** X18.  A signature stream of fewer than four bytes is turned down as
    well, with [-1] and before anything is written, but not by the check of
    the magic: the short count passes it, and it is the read of the block
    length that fails. *)
Lemma truncated_stream_rejected (fuel : nat) (sigs up : stream) (k : sink)
    (s : hs_stats_t) :
  zlen (data sigs) < 4 ->
  0 <= fst (_hs_check_sig_version sigs) /\
  exists e,
    hs_encode fuel sigs up k s = Return (-1) e /\
    out e = k /\ stats e = stats_zero.
Proof.
  intros Hlen.
  pose proof (read_netlong_count sigs) as [Hc Hrest].
  unfold hs_encode, _hs_check_sig_version.
  destruct (_hs_read_netlong sigs) as [[ret v] sigs1]; simpl in Hc, Hrest.
  replace (ret =? 4) with false by (symmetry; apply Z.eqb_neq; lia).
  cbn [negb fst].
  split; [lia |].
  replace (ret <? 0) with false by (symmetry; apply Z.ltb_ge; lia).
  pose proof (read_netlong_count sigs1) as [Hc2 _].
  unfold _hs_read_blocksize.
  destruct (_hs_read_netlong sigs1) as [[ret2 v2] sigs2]; simpl in Hc2.
  replace (ret2 <? 0) with false by (symmetry; apply Z.ltb_ge; lia).
  replace (ret2 =? 4) with false by (symmetry; apply Z.eqb_neq; lia).
  cbn [negb]. change (-1 <? 0) with true. cbv iota.
  eexists; split; [reflexivity |]. split; reflexivity.
Qed.

End Magic.

(** ** Slices of the new file *)

Lemma firstn_add_skipn (l : list Z) (n m : nat) :
  firstn n l ++ firstn m (skipn n l) = firstn (n + m) l.
Proof.
  revert l; induction n as [| n IH]; intros l; [reflexivity |].
  destruct l as [| x l]; [rewrite skipn_nil, !firstn_nil; reflexivity |].
  cbn [Nat.add firstn skipn app]. f_equal. apply IH.
Qed.

(** Two slices that follow each other make one. *)
Lemma sub_app_next (l : list Z) (c p t : Z) :
  0 <= c -> 0 <= p -> 0 <= t ->
  sub l c p ++ sub l (c + p) t = sub l c (p + t).
Proof.
  intros Hc Hp Ht. unfold sub.
  replace (Z.to_nat (c + p)) with (Z.to_nat p + Z.to_nat c)%nat by lia.
  replace (Z.to_nat (p + t)) with (Z.to_nat p + Z.to_nat t)%nat by lia.
  rewrite <- skipn_skipn. apply firstn_add_skipn.
Qed.

(** A slice of a slice. *)
Lemma sub_sub (l : list Z) (c n c' n' : Z) :
  0 <= c -> 0 <= c' -> 0 <= n' -> c' + n' <= n ->
  sub (sub l c n) c' n' = sub l (c + c') n'.
Proof.
  intros Hc Hc' Hn' Hle. unfold sub.
  rewrite skipn_firstn_comm, firstn_firstn, skipn_skipn.
  replace (Nat.min (Z.to_nat n') (Z.to_nat n - Z.to_nat c'))
    with (Z.to_nat n') by lia.
  replace (Z.to_nat (c + c')) with (Z.to_nat c' + Z.to_nat c)%nat by lia.
  reflexivity.
Qed.

Lemma sub_all (l : list Z) : sub l 0 (zlen l) = l.
Proof.
  unfold sub, zlen. rewrite Nat2Z.id. cbn [Z.to_nat skipn]. apply firstn_all.
Qed.

Lemma byte_at_sub (l : list Z) (c n i : Z) :
  0 <= c -> 0 <= i < n -> byte_at (sub l c n) i = byte_at l (c + i).
Proof.
  intros Hc Hi. unfold byte_at, sub.
  rewrite nth_firstn.
  replace (Z.to_nat i <? Z.to_nat n)%nat with true
    by (symmetry; apply Nat.ltb_lt; lia).
  rewrite nth_skipn_add. f_equal. lia.
Qed.

Lemma sub_app_l (l1 l2 : list Z) (n : Z) :
  n = zlen l1 -> sub (l1 ++ l2) 0 n = l1.
Proof.
  intros ->. unfold sub, zlen. rewrite Nat2Z.id. cbn [Z.to_nat skipn].
  rewrite firstn_app, Nat.sub_diag, firstn_all. cbn [firstn].
  apply app_nil_r.
Qed.

(** ** What a pass writes *)

Section Effect.

Context {C : collaborators}.
Variable sums : sum_struct.

Lemma tally_app (a c : list cmd) (s : hs_stats_t) :
  tally (a ++ c) s = tally c (tally a s).
Proof. apply fold_left_app. Qed.

Lemma spans_app (a c : list cmd) : spans (a ++ c) = spans a + spans c.
Proof.
  unfold spans. induction a as [| x a IH]; cbn [app fold_right]; lia.
Qed.

Lemma expand_app (N : list Z) (a c : list cmd) :
  forall pos,
    expand N pos (a ++ c) = expand N pos a ++ expand N (pos + spans a) c.
Proof.
  induction a as [| x a IH]; intros pos.
  - unfold spans. cbn [app expand fold_right]. rewrite Z.add_0_r. reflexivity.
  - replace (spans (x :: a)) with (span x + spans a) by reflexivity.
    cbn [app].
    destruct x as [v | m | m | o l |]; cbn [expand span];
      rewrite IH, <- ?app_assoc, ?Z.add_0_l, ?Z.add_assoc; reflexivity.
Qed.

Lemma flushed_data (b : Z) (m : list Z) : Forall (data_cmd b) (flushed m).
Proof.
  destruct m as [| c m]; constructor; [discriminate | constructor].
Qed.

Lemma flushed_spans (m : list Z) : spans (flushed m) = zlen m.
Proof.
  destruct m as [| c m]; unfold spans; cbn [flushed fold_right span];
    [reflexivity | lia].
Qed.

Lemma flushed_expand (N : list Z) (pos : Z) (m : list Z) :
  expand N pos (flushed m) = m.
Proof.
  destruct m as [| c m]; cbn [flushed expand]; [reflexivity | apply app_nil_r].
Qed.

(** A flush that succeeds writes [flushed m], counts it and empties the
    buffer. *)
Lemma flush_literal_effect (m : list Z) (k : sink) (s : hs_stats_t)
    (kind : hs_op) :
  forall ret m' k' s',
    _hs_flush_literal_buf m k s kind = (ret, m', k', s') ->
    (ret = 0 /\ m' = [] /\
     written k' =
       written k ++ match m with [] => [] | _ :: _ => [chunk kind m] end /\
     s' = tally (match m with [] => [] | _ :: _ => [chunk kind m] end) s)
    \/ ret = -1.
Proof.
  intros ret m' k' s'. unfold _hs_flush_literal_buf, sink_write.
  destruct m as [| c m].
  - intros H; injection H as <- <- <- <-. left.
    rewrite app_nil_r. repeat split.
  - destruct (quota k) as [[| q] |]; simpl;
      intros H; injection H as <- <- <- <-.
    + right; reflexivity.
    + left. destruct kind; repeat split.
    + left. destruct kind; repeat split.
Qed.

Lemma emit_copy_effect (k : sink) (o l : Z) (s : hs_stats_t) :
  forall ret k' s',
    _hs_emit_copy k o l s = (ret, k', s') ->
    (ret = 0 /\ written k' = written k ++ [Copy o l] /\
     s' = tally [Copy o l] s)
    \/ ret = -1.
Proof.
  intros ret k' s'. unfold _hs_emit_copy, sink_write.
  destruct (quota k) as [[| q] |]; simpl;
    intros H; injection H as <- <- <-.
  - right; reflexivity.
  - left; repeat split.
  - left; repeat split.
Qed.

Lemma encode_copy_effect (token : Z) (e : enc_t) :
  match encode_copy token e with
  | Next e' =>
      written (out e') =
        written (out e) ++
        (flushed (lit_tmpbuf e) ++
         [Copy (token * block_len e) (this_block_len e)]) /\
      lit_tmpbuf e' = [] /\
      stats e' =
        tally (flushed (lit_tmpbuf e) ++
               [Copy (token * block_len e) (this_block_len e)]) (stats e) /\
      sig_tmpbuf e' = sig_tmpbuf e /\
      rollsum e' = invalidate (rollsum e)
  | _ => True
  end.
Proof.
  unfold encode_copy.
  destruct (_hs_flush_literal_buf (lit_tmpbuf e) (out e) (stats e) op_literal_1)
    as [[[ret m] k] s] eqn:Hf.
  apply flush_literal_effect in Hf.
  destruct Hf as [(-> & -> & Hw & Hs) | ->]; [| exact I].
  change (0 <? 0) with false; cbv iota.
  cbn [with_stats with_out with_lit_tmpbuf out stats block_len].
  match goal with
  | |- context [_hs_emit_copy ?a ?b ?c ?d] =>
      destruct (_hs_emit_copy a b c d) as [[ret k'] s'] eqn:Hc
  end.
  apply emit_copy_effect in Hc.
  destruct Hc as [(-> & Hw' & Hs') | ->]; [| exact I].
  change (0 <? 0) with false; cbv iota.
  cbn [out stats lit_tmpbuf sig_tmpbuf rollsum with_rollsum with_inbuf
       with_stats with_out with_lit_tmpbuf].
  rewrite Hw', Hw, Hs', Hs, tally_app, <- app_assoc.
  repeat split.
Qed.

(** One pass, with what it writes: the trace and the signature buffer grow
    by the block hash, if one is due; then either a copy goes out behind
    the pending literals, or the byte under the cursor joins them. *)
Lemma encode_block_effect (e : enc_t) :
  match encode_block sums e with
  | Next e' =>
      exists token w r,
        w = weak_sum r /\
        _hs_update_sums CHAR_OFFSET (inbuf e) (this_block_len e) (rollsum e)
          = Some r /\
        token =
          _hs_find_in_hash r
            (sub (buf (inbuf e)) (cursor (inbuf e)) (this_block_len e))
            (this_block_len e) sums /\
        trace e' = trace e ++ hash_events e w ++ [match_event e token] /\
        sig_tmpbuf e' =
          sig_tmpbuf e ++ flat_map sig_entry (hash_events e w) /\
        ((0 < token /\ advanced (this_block_len e) e e' /\
          written (out e') =
            written (out e) ++
            (flushed (lit_tmpbuf e) ++
             [Copy (token * block_len e) (this_block_len e)]) /\
          lit_tmpbuf e' = [] /\
          stats e' =
            tally (flushed (lit_tmpbuf e) ++
                   [Copy (token * block_len e) (this_block_len e)]) (stats e) /\
          rollsum e' = invalidate r)
         \/ (token <= 0 /\ advanced 1 e e' /\ out e' = out e /\
             lit_tmpbuf e' =
               lit_tmpbuf e ++ [byte_at (buf (inbuf e)) (cursor (inbuf e))] /\
             stats e' = stats e /\
             rollsum e' =
               _hs_roll_sums CHAR_OFFSET (inbuf e) r (block_len e)))
  | _ => True
  end.
Proof.
  unfold encode_block.
  destruct (_hs_update_sums CHAR_OFFSET (inbuf e) (this_block_len e) (rollsum e))
    as [r |]; [| exact I].
  unfold _hs_signature_ready.
  change (new_block_len (with_rollsum r e)) with (new_block_len e).
  change (inbuf (with_rollsum r e)) with (inbuf e).
  destruct (new_block_len e =? 0); [exact I |].
  set (e2 := if Z.rem (abspos (inbuf e) + cursor (inbuf e)) (new_block_len e) =? 0
             then _ else _).
  assert (He2 : block_len e2 = block_len e /\ at_eof e2 = at_eof e /\
                rollsum e2 = r /\ inbuf e2 = inbuf e /\
                lit_tmpbuf e2 = lit_tmpbuf e /\ stats e2 = stats e /\
                out e2 = out e /\
                trace e2 = trace e ++ hash_events e (weak_sum r) /\
                sig_tmpbuf e2 =
                  sig_tmpbuf e ++
                  flat_map sig_entry (hash_events e (weak_sum r))).
  { subst e2. unfold hash_events.
    destruct (Z.rem _ _ =? 0).
    - unfold _hs_output_block_hash, membuf_write_netlong, hs_membuf_write.
      cbn [flat_map sig_entry block_len at_eof inbuf lit_tmpbuf stats out
           trace sig_tmpbuf log with_sig_tmpbuf with_rollsum rollsum
           weak_sum new_block_len].
      rewrite app_nil_r, <- app_assoc. repeat split.
    - cbn [flat_map]. rewrite !app_nil_r. repeat split. }
  destruct He2 as (Hbl & Heof & Hrs & Hib & Hlit & Hst & Hout & Htr & Hsg).
  clearbody e2.
  set (token := _hs_find_match (this_block_len e) (rollsum e2) (inbuf e2) sums).
  assert (Hfound :
            token =
            _hs_find_in_hash r
              (sub (buf (inbuf e)) (cursor (inbuf e)) (this_block_len e))
              (this_block_len e) sums).
  { subst token. unfold _hs_find_match. rewrite Hib, Hrs. reflexivity. }
  clearbody token.
  set (e3 := log _ e2).
  assert (He3 : block_len e3 = block_len e /\ rollsum e3 = r /\
                inbuf e3 = inbuf e /\
                lit_tmpbuf e3 = lit_tmpbuf e /\ stats e3 = stats e /\
                out e3 = out e /\
                trace e3 = trace e ++ hash_events e (weak_sum r) ++
                           [match_event e token] /\
                sig_tmpbuf e3 =
                  sig_tmpbuf e ++
                  flat_map sig_entry (hash_events e (weak_sum r))).
  { subst e3. unfold match_event; simpl.
    rewrite Htr, Hib, Heof, <- app_assoc. repeat split; assumption. }
  clearbody e3. clear e2 Hbl Heof Hrs Hib Hlit Hst Hout Htr Hsg.
  destruct He3 as (Hbl & Hrs & Hib & Hlit & Hst & Hout & Htr & Hsg).
  assert (Htbl : this_block_len e3 = this_block_len e)
    by (unfold this_block_len; rewrite Hbl, Hib; reflexivity).
  destruct (0 <? token) eqn:Htok.
  - apply Z.ltb_lt in Htok.
    pose proof (encode_copy_spec token e3) as Hc.
    pose proof (encode_copy_effect token e3) as Hd.
    destruct (encode_copy token e3) as [e' | r' e' | |]; try exact I.
    destruct Hc as (_ & Htr' & Hadv & _).
    destruct Hd as (Hw & Hl' & Hs' & Hsg' & Hrs').
    exists token, (weak_sum r), r.
    split; [reflexivity |]. split; [reflexivity |]. split; [assumption |].
    split; [congruence |]. split; [congruence |].
    left. split; [assumption |]. split.
    { unfold advanced in *. rewrite Hadv, Htbl, Hib. reflexivity. }
    rewrite Hw, Hs', Hrs', Hlit, Hout, Hst, Htbl, Hbl, Hrs.
    repeat split. assumption.
  - apply Z.ltb_ge in Htok.
    destruct (encode_literal_spec e3)
      as (e' & Hrun & _ & Htr' & Hadv & _ & Hout' & Hsg' & Hst').
    assert (Hl' : lit_tmpbuf e' =
                  lit_tmpbuf e3 ++ [byte_at (buf (inbuf e3)) (cursor (inbuf e3))]).
    { unfold encode_literal, _hs_append_literal, hs_membuf_write in Hrun.
      injection Hrun as <-. reflexivity. }
    assert (Hrs' : rollsum e' =
                   _hs_roll_sums CHAR_OFFSET (inbuf e3) (rollsum e3)
                     (block_len e3)).
    { unfold encode_literal, _hs_append_literal, hs_membuf_write in Hrun.
      injection Hrun as <-. reflexivity. }
    rewrite Hrun.
    exists token, (weak_sum r), r.
    split; [reflexivity |]. split; [reflexivity |]. split; [assumption |].
    split; [congruence |]. split; [congruence |].
    right. split; [assumption |]. split.
    { unfold advanced in *. rewrite Hadv, Hib. reflexivity. }
    rewrite Hl', Hrs', Hlit, Hib, Hrs, Hbl. repeat split; congruence.
Qed.

End Effect.

(** ** The window and the new file *)

Section Window.

Context {C : collaborators}.
Variable sums : sum_struct.
Variable N : list Z.

Lemma stream_read_parts (m : Z) (s : stream) :
  exists k : nat,
    fst (stream_read m s) = firstn k (data s) /\
    data (snd (stream_read m s)) = skipn k (data s) /\
    (k <= length (data s))%nat /\ Z.of_nat k <= Z.max 0 m.
Proof.
  pose proof (stream_count_le m s) as [H1 H2].
  exists (Z.to_nat (stream_count m s)). unfold stream_read; cbn [fst snd data].
  unfold zlen in H2. repeat split; lia.
Qed.

Lemma window_refill (n b : Z) (e : enc_t) :
  wf n b e -> window_ok N e -> window_ok N (refill e).
Proof.
  intros (_ & _ & _ & _ & Hcur & Hamt & Habs & _) (Hlen & Hwin & Hup).
  unfold refill, _hs_fill_inbuf.
  destruct (stream_read_parts (len (inbuf e) - amount (inbuf e)) (upstream e))
    as (k & Hbs & Hrest & Hk & Hroom).
  destruct (stream_read _ _) as [bs up']; cbn [fst snd] in Hbs, Hrest.
  unfold window_ok.
  cbn [inbuf with_inbuf set_cursor buf len amount abspos upstream
       with_at_eof with_upstream].
  assert (Hbl : length bs = k) by (rewrite Hbs, length_firstn; lia).
  assert (Hzb : zlen bs = Z.of_nat k) by (unfold zlen; lia).
  unfold zlen in Hlen.
  split; [| split].
  - unfold zlen.
    rewrite !length_app, length_firstn, length_skipn. lia.
  - rewrite app_assoc, sub_app_l.
    2:{ rewrite zlen_app. unfold zlen. rewrite length_firstn. lia. }
    rewrite <- sub_app_next by (try lia; apply zlen_nonneg).
    f_equal.
    + rewrite <- Hwin. reflexivity.
    + rewrite Hzb, Hbs, Hup. unfold sub. rewrite Nat2Z.id. reflexivity.
  - rewrite Hrest, Hup, skipn_skipn. f_equal. lia.
Qed.

Lemma window_slide (n b : Z) (e : enc_t) :
  wf n b e -> window_ok N e -> window_ok N (slide e).
Proof.
  intros (_ & _ & _ & _ & Hcur & Hamt & Habs & _) (Hlen & Hwin & Hup).
  unfold slide, _hs_slide_inbuf, window_ok.
  cbn [inbuf with_inbuf buf len amount abspos upstream cursor].
  set (keep := amount (inbuf e) - cursor (inbuf e)).
  assert (Hk : 0 <= keep) by (subst keep; lia).
  assert (Hz : zlen (sub (buf (inbuf e)) (cursor (inbuf e)) keep) = keep)
    by (apply zlen_sub; subst keep; lia).
  split; [| split].
  - rewrite zlen_app, Hz. unfold zlen in *. rewrite length_skipn. lia.
  - rewrite sub_app_l by (symmetry; exact Hz).
    replace (sub (buf (inbuf e)) (cursor (inbuf e)) keep)
      with (sub (sub (buf (inbuf e)) 0 (amount (inbuf e)))
              (cursor (inbuf e)) keep)
      by (rewrite sub_sub by (subst keep; lia); reflexivity).
    rewrite Hwin. apply sub_sub; subst keep; lia.
  - rewrite Hup. f_equal. subst keep. lia.
Qed.

(** The bytes under the cursor are those of the new file at the cursor's
    absolute position. *)
Lemma window_block (e : enc_t) (l : Z) :
  window_ok N e -> 0 <= abspos (inbuf e) -> 0 <= cursor (inbuf e) ->
  0 <= l -> cursor (inbuf e) + l <= amount (inbuf e) ->
  sub (buf (inbuf e)) (cursor (inbuf e)) l =
  sub N (abspos (inbuf e) + cursor (inbuf e)) l.
Proof.
  intros (_ & Hwin & _) Habs Hcur Hl Hle.
  replace (sub (buf (inbuf e)) (cursor (inbuf e)) l)
    with (sub (sub (buf (inbuf e)) 0 (amount (inbuf e))) (cursor (inbuf e)) l)
    by (rewrite sub_sub by lia; reflexivity).
  rewrite Hwin. apply sub_sub; lia.
Qed.

Lemma window_byte (e : enc_t) :
  window_ok N e -> 0 <= abspos (inbuf e) ->
  0 <= cursor (inbuf e) < amount (inbuf e) ->
  byte_at (buf (inbuf e)) (cursor (inbuf e)) =
  byte_at N (abspos (inbuf e) + cursor (inbuf e)).
Proof.
  intros (_ & Hwin & _) Habs Hcur.
  replace (byte_at (buf (inbuf e)) (cursor (inbuf e)))
    with (byte_at (sub (buf (inbuf e)) 0 (amount (inbuf e))) (cursor (inbuf e)))
    by (rewrite byte_at_sub by lia; reflexivity).
  rewrite Hwin. apply byte_at_sub; lia.
Qed.

End Window.

(** ** The token stream of a successful run *)

Section Stream.

Context {C : collaborators}.
Variable sums : sum_struct.
Variable N : list Z.
Variable b : Z.
Variable pre : list cmd.

Lemma refill_sig_tmpbuf (e : enc_t) : sig_tmpbuf (refill e) = sig_tmpbuf e.
Proof.
  unfold refill, _hs_fill_inbuf.
  destruct (stream_read _ _) as [bs up']. reflexivity.
Qed.

Lemma stream_ok_refill (e : enc_t) :
  cursor (inbuf e) = 0 -> stream_ok N b pre e -> stream_ok N b pre (refill e).
Proof.
  intros Hc (body & H).
  destruct (refill_frame e) as (_ & _ & Ht & Hs & Hl & Ho & Hab & Hc').
  exists body. rewrite Ht, Hs, Hl, Ho, Hab, Hc', refill_sig_tmpbuf.
  rewrite Hc in H. exact H.
Qed.

Lemma stream_ok_slide (e : enc_t) :
  stream_ok N b pre e -> stream_ok N b pre (slide e).
Proof.
  intros (body & H).
  destruct (slide_frame e)
    as (_ & _ & Ht & Hs & Hl & Ho & _ & _ & Hsg & Hab & Hc' & _).
  exists body. rewrite Ht, Hs, Hl, Ho, Hab, Hc', Hsg, Z.add_0_r. exact H.
Qed.

Lemma sig_entry_match (e : enc_t) (token : Z) :
  flat_map sig_entry [match_event e token] = [].
Proof. reflexivity. Qed.

(** A block hash taken while a whole block of the new file is left is
    taken over that block. *)
Lemma hash_events_whole (e : enc_t) (w : Z) :
  wf (zlen N) b e -> window_ok N e -> readahead e = true ->
  Forall (whole_block_hash N b) (hash_events e w).
Proof.
  intros Hwf Hwin Hr.
  destruct Hwf as (Hbl & Hnbl & Hb & Hlen & Hcur & Hamt & Habs & Hsum & Heof).
  unfold hash_events. destruct (_ =? _); [| constructor].
  constructor; [| constructor].
  cbn [whole_block_hash]. intros Hfit. unfold hashed_bytes. rewrite Hnbl.
  apply window_block; try assumption; try lia.
  unfold readahead in Hr. rewrite Hbl in Hr.
  destruct (at_eof e).
  - rewrite (Heof eq_refl) in Hsum. unfold zlen at 1 in Hsum.
    cbn [length] in Hsum. lia.
  - apply Z.leb_le in Hr. exact Hr.
Qed.

(** A pass keeps the three invariants. *)
Lemma stream_ok_encode_block (e : enc_t) :
  wf (zlen N) b e -> window_ok N e -> stream_ok N b pre e ->
  readahead e = true ->
  match encode_block sums e with
  | Next e' => wf (zlen N) b e' /\ window_ok N e' /\ stream_ok N b pre e'
  | Return r _ => r = -1
  | Crash | NoFuel => True
  end.
Proof.
  intros Hwf Hwin (body & Hw & Hdata & Hexp & Hsp & Hst & Hsg & Hh) Hr.
  pose proof (readahead_room _ _ _ Hwf Hr) as [Htbl Hin].
  pose proof (hash_events_whole e) as Hhw.
  pose proof (wf_encode_block sums _ _ _ Hwf Hr) as Hwf'.
  pose proof (encode_block_spec sums e) as Hspec.
  pose proof (encode_block_effect sums e) as Heff.
  destruct (encode_block sums e) as [e' | r e' | |]; try exact I;
    [| apply Hspec].
  destruct Hwf' as (Hwf' & _).
  destruct Hspec as (_ & (Hup & _) & _).
  destruct Heff as (token & w & r1 & _ & _ & _ & Htr & Hsg' & Hcase).
  specialize (Hhw w Hwf Hwin Hr).
  assert (Hib : exists d, advanced d e e').
  { destruct Hcase as [(_ & Ha & _) | (_ & Ha & _)]; eauto. }
  destruct Hib as (d & Hadv). unfold advanced in Hadv.
  split; [assumption |]. split.
  { destruct Hwin as (H1 & H2 & H3). unfold window_ok.
    rewrite Hadv, Hup. exact (conj H1 (conj H2 H3)). }
  assert (Htrace : Forall (whole_block_hash N b) (trace e')).
  { rewrite Htr. apply Forall_app; split; [assumption |].
    apply Forall_app; split; [assumption |].
    constructor; [exact I | constructor]. }
  assert (Hsig : sig_tmpbuf e' = new_signature b (trace e')).
  { rewrite Hsg', Htr, Hsg. unfold new_signature.
    rewrite !flat_map_app, sig_entry_match, app_nil_r, <- !app_assoc.
    reflexivity. }
  destruct Hwf as (Hbl & Hnbl & Hb & Hlen & Hcur & Hamt & Habs & Hsum & Heof).
  pose proof (zlen_nonneg (data (upstream e))) as Hd0.
  destruct Hcase as [(Htok & Ha & Hw' & Hl' & Hs' & _)
                   | (Htok & Ha & Ho' & Hl' & Hs' & _)];
    unfold advanced in Ha.
  - exists (body ++ flushed (lit_tmpbuf e) ++
            [Copy (token * block_len e) (this_block_len e)]).
    rewrite Hw', Hl', Hs', Ha, Hw, Hst, Hbl.
    cbn [abspos cursor set_cursor].
    split; [rewrite <- app_assoc; reflexivity |]. split.
    { apply Forall_app; split; [assumption |].
      apply Forall_app; split; [apply flushed_data |].
      constructor; [| constructor].
      split; [exists token; split; [assumption | reflexivity] | lia]. }
    split.
    { rewrite app_nil_r, expand_app, expand_app, flushed_expand.
      cbn [expand]. rewrite app_nil_r, app_assoc, Hexp.
      rewrite flushed_spans, Z.add_0_l, Hsp.
      rewrite Z.add_assoc.
      rewrite <- (sub_app_next N 0 _ (this_block_len e)) by lia.
      reflexivity. }
    split.
    { rewrite !spans_app, flushed_spans. unfold spans at 2, zlen at 2.
      cbn [fold_right span length]. lia. }
    split; [unfold stats_of; rewrite (tally_app body); reflexivity |].
    split; assumption.
  - exists body.
    rewrite Ho', Hl', Hs', Ha. cbn [abspos cursor set_cursor].
    split; [assumption |]. split; [assumption |]. split.
    { rewrite app_assoc, Hexp.
      rewrite (window_byte N e Hwin) by lia.
      rewrite Z.add_assoc.
      rewrite (sub_snoc N 0 (abspos (inbuf e) + cursor (inbuf e))) by lia.
      reflexivity. }
    split.
    { rewrite zlen_app. unfold zlen at 2. cbn [length]. lia. }
    split; [assumption |]. split; assumption.
Qed.

End Stream.

Section Success.

Context {C : collaborators}.

(** The loop as a whole: when it is left, the data commands written and
    the literals still buffered spell the whole of the new file. *)
Lemma encode_loop_stream (sums : sum_struct) (N : list Z) (b : Z)
    (pre : list cmd) (fuel k : nat) (e : enc_t) :
  wf_head (zlen N) b e -> window_ok N e -> stream_ok N b pre e ->
  match encode_loop fuel k sums e with
  | Next e' =>
      stream_ok N b pre e' /\
      abspos (inbuf e') + cursor (inbuf e') = zlen N
  | Return r _ => r = -1
  | Crash | NoFuel => True
  end.
Proof.
  intros Hh Hwin Hst.
  apply (encode_loop_inv sums
           (fun e0 => wf_head (zlen N) b e0 /\ window_ok N e0 /\
                      stream_ok N b pre e0)
           (fun e0 => wf (zlen N) b e0 /\ window_ok N e0 /\
                      stream_ok N b pre e0)
           (fun e0 => stream_ok N b pre e0 /\
                      abspos (inbuf e0) + cursor (inbuf e0) = zlen N)
           (fun r _ => r = -1)).
  - intros e0 (H1 & H2 & H3).
    split; [apply wf_refill; assumption |].
    split; [apply (window_refill N (zlen N) b); [apply H1 | assumption] |].
    apply stream_ok_refill; [apply H1 | assumption].
  - intros e0 (H1 & H2 & H3) Hr.
    apply stream_ok_encode_block; assumption.
  - intros e0 (H1 & H2 & H3) Hr Hae.
    split; [apply wf_slide; assumption |].
    split; [apply (window_slide N (zlen N) b); assumption |].
    apply stream_ok_slide; assumption.
  - intros e0 (H1 & H2 & H3) Hr Hae.
    split; [apply stream_ok_slide; assumption |].
    destruct (wf_exit _ _ _ H1 Hr Hae) as [Hn _].
    destruct (slide_frame e0)
      as (_ & _ & _ & _ & _ & _ & _ & _ & _ & Hab & Hc & _).
    rewrite Hab, Hc. lia.
  - split; [assumption | split; assumption].
Qed.

(** The final flushes of a run that succeeds: the pending literals, the
    signature chunk and the end marker go out in this order and are
    counted. *)
Lemma encode_finish_effect (e e' : enc_t) :
  sig_tmpbuf e <> [] -> encode_finish e = Return 1 e' ->
  written (out e') =
    written (out e) ++
    (flushed (lit_tmpbuf e) ++ [Signature (sig_tmpbuf e); Eof]) /\
  stats e' =
    tally (flushed (lit_tmpbuf e) ++ [Signature (sig_tmpbuf e); Eof])
      (stats e) /\
  trace e' = trace e.
Proof.
  intros Hne. unfold encode_finish.
  destruct (_hs_flush_literal_buf (lit_tmpbuf e) (out e) (stats e) op_literal_1)
    as [[[ret m] k] s] eqn:Hf.
  apply flush_literal_effect in Hf.
  destruct Hf as [(-> & -> & Hw & Hs) | ->]; [| discriminate].
  change (0 <? 0) with false; cbv iota.
  cbn [with_stats with_out with_lit_tmpbuf sig_tmpbuf out stats].
  destruct (_hs_flush_literal_buf (sig_tmpbuf e) k s op_signature_1)
    as [[[ret m] k2] s2] eqn:Hf.
  apply flush_literal_effect in Hf.
  destruct Hf as [(-> & -> & Hw2 & Hs2) | ->]; [| discriminate].
  change (0 <? 0) with false; cbv iota.
  cbn [with_stats with_out with_sig_tmpbuf out].
  unfold _hs_emit_eof, sink_write.
  destruct (sig_tmpbuf e) as [| c sg]; [contradiction |].
  cbn [chunk] in Hw2, Hs2.
  destruct (quota k2) as [[| q] |]; cbn [fst snd Z.ltb Z.compare];
    intros H; try discriminate H; injection H as <-;
    cbn [out stats trace with_out with_stats with_sig_tmpbuf with_lit_tmpbuf
         written];
    rewrite Hw2, Hw, Hs2, Hs, !tally_app, <- !app_assoc; repeat split.
Qed.

Lemma window_ok_start (b : Z) (up : stream) (k : sink) :
  0 <= alloc_len b -> window_ok (data up) (start b up k).
Proof.
  intros Ha. unfold window_ok, start, _hs_alloc_inbuf.
  cbn [inbuf buf len amount abspos upstream].
  split; [unfold zlen; rewrite repeat_length; lia |].
  split; reflexivity.
Qed.

Lemma stream_ok_start (b : Z) (up : stream) (k : sink) :
  stream_ok (data up) b (written k) (start b up k).
Proof.
  exists []. unfold start, new_signature.
  cbn [out written lit_tmpbuf inbuf _hs_alloc_inbuf abspos cursor stats
       sig_tmpbuf trace flat_map expand app].
  rewrite !app_nil_r.
  split; [reflexivity |]. split; [constructor |].
  split; [reflexivity |]. split; [reflexivity |].
  split; [reflexivity |]. split; [reflexivity | constructor].
Qed.

(** A run that returns 1, in full: behind what the sink held it has
    written the header of the token stream, data commands that spell the new
    file, the signature chunk and the end marker; its statistics count
    these commands; and the block hashes taken over whole blocks are taken
    over the bytes of the new file. *)
Lemma hs_encode_stream (fuel : nat) (sigs up : stream) (k : sink)
    (s : hs_stats_t) (e : enc_t) :
  0 < old_block_len sigs ->
  old_block_len sigs <= alloc_len (old_block_len sigs) ->
  hs_encode fuel sigs up k s = Return 1 e ->
  exists body,
    written (out e) =
      written k ++
      Magic (u32 HS_LT_MAGIC) ::
      body ++ [Signature (new_signature (old_block_len sigs) (trace e)); Eof] /\
    Forall (data_cmd (old_block_len sigs)) body /\
    expand (data up) 0 body = data up /\
    stats e =
      stats_of
        (Magic (u32 HS_LT_MAGIC) ::
         body ++
         [Signature (new_signature (old_block_len sigs) (trace e)); Eof]) /\
    Forall (whole_block_hash (data up) (old_block_len sigs)) (trace e).
Proof.
  intros Hb Ha Hrun.
  destruct (hs_encode_cases sigs k) as [[Hok Hq] | Hbad].
  2:{ destruct (hs_encode_refused fuel sigs up k s Hbad)
        as (ret & e' & H & Hneg & _).
      rewrite Hrun in H. injection H as <- _. lia. }
  rewrite (hs_encode_run fuel sigs up k s Hok Hq) in Hrun.
  destruct (littok_header_taken k Hq) as (_ & Hk1 & _).
  set (b := old_block_len sigs) in *.
  pose proof (encode_loop_stream (old_sums sigs) (data up) b
                (written (after_header k)) fuel fuel
                (start b up (after_header k))
                (wf_head_start b up _ Hb Ha)
                (window_ok_start b up _ ltac:(lia))
                (stream_ok_start b up _)) as Hloop.
  destruct (encode_loop _ _ _ _) as [eL | r e' | |]; try discriminate.
  2:{ injection Hrun as -> _. lia. }
  destruct Hloop as ((body & Hw & Hdata & Hexp & Hsp & Hst & Hsg & Hh) & Hend).
  assert (Hne : sig_tmpbuf eL <> []).
  { rewrite Hsg. unfold new_signature, netlong. discriminate. }
  destruct (encode_finish_effect eL e Hne Hrun) as (Hw' & Hs' & Ht').
  exists (body ++ flushed (lit_tmpbuf eL)).
  rewrite Ht', Hw', Hs', Hw, Hk1, Hst, Hsg.
  split; [rewrite <- !app_assoc; reflexivity |]. split.
  { apply Forall_app; split; [assumption | apply flushed_data]. }
  split.
  { rewrite expand_app, flushed_expand, Hexp, Hend. apply sub_all. }
  split; [| assumption].
  unfold stats_of.
  change (tally (Magic (u32 HS_LT_MAGIC) :: ?l) stats_zero)
    with (tally l stats_zero).
  rewrite <- app_assoc, !tally_app. reflexivity.
Qed.

End Success.

Section Output.

Context {C : collaborators}.

Lemma skipn_app_l (l1 l2 : list cmd) : skipn (length l1) (l1 ++ l2) = l2.
Proof. induction l1 as [| x l1 IH]; [reflexivity | exact IH]. Qed.

Lemma hs_encode_appended (fuel : nat) (sigs up : stream) (k : sink)
    (s : hs_stats_t) (e : enc_t) :
  0 < old_block_len sigs ->
  old_block_len sigs <= alloc_len (old_block_len sigs) ->
  hs_encode fuel sigs up k s = Return 1 e ->
  exists body,
    written (out e) = written k ++ appended k e /\
    appended k e =
      Magic (u32 HS_LT_MAGIC) ::
      body ++ [Signature (new_signature (old_block_len sigs) (trace e)); Eof] /\
    Forall (data_cmd (old_block_len sigs)) body /\
    expand (data up) 0 body = data up /\
    stats e = stats_of (appended k e).
Proof.
  intros Hb Ha Hrun.
  destruct (hs_encode_stream fuel sigs up k s e Hb Ha Hrun)
    as (body & Hw & Hdata & Hexp & Hst & _).
  exists body. unfold appended. rewrite Hw, skipn_app_l.
  repeat split; assumption.
Qed.



(** X3.  The literal and copy commands of a run that returns 1 spell the
    new file: going through them in order from offset 0, with every copy
    standing for the next [length] bytes, the literals carry exactly the
    bytes of the new file that lie between the copied blocks, and the walk
    ends at the end of the file. *)
Theorem commands_spell_input (fuel : nat) (sigs up : stream) (k : sink)
    (s : hs_stats_t) (e : enc_t) :
  0 < old_block_len sigs ->
  old_block_len sigs <= alloc_len (old_block_len sigs) ->
  hs_encode fuel sigs up k s = Return 1 e ->
  expand (data up) 0 (appended k e) = data up.
Proof.
  intros Hb Ha Hrun.
  destruct (hs_encode_appended fuel sigs up k s e Hb Ha Hrun)
    as (body & _ & -> & _ & Hexp & _).
  cbn [expand]. rewrite expand_app, Hexp. cbn [expand]. apply app_nil_r.
Qed.


(** X5.  Every block hash a run that returns 1 has taken at an offset
    where a whole block of the new file is left has its strong sum computed
    over exactly that block of the new file. *)
Theorem whole_block_hashes_cover_blocks (fuel : nat) (sigs up : stream)
    (k : sink) (s : hs_stats_t) (e : enc_t) :
  0 < old_block_len sigs ->
  old_block_len sigs <= alloc_len (old_block_len sigs) ->
  hs_encode fuel sigs up k s = Return 1 e ->
  Forall (whole_block_hash (data up) (old_block_len sigs)) (trace e).
Proof.
  intros Hb Ha Hrun.
  destruct (hs_encode_stream fuel sigs up k s e Hb Ha Hrun)
    as (body & _ & _ & _ & _ & Hh).
  exact Hh.
Qed.

End Output.

Section NothingFound.

Context {C : collaborators}.

(** As long as no lookup finds a block, the loop writes nothing. *)
Lemma encode_loop_quiet (fuel k : nat) (sums : sum_struct) (e : enc_t) :
  (forall r bs n, _hs_find_in_hash r bs n sums <= 0) ->
  match encode_loop fuel k sums e with
  | Next e' => out e' = out e
  | _ => True
  end.
Proof.
  intros Hnone.
  pose proof
    (encode_loop_inv sums (fun e0 => out e0 = out e)
       (fun e0 => out e0 = out e) (fun e0 => out e0 = out e)
       (fun _ _ => True)) as H.
  cbv beta in H.
  assert (Hgoal : match encode_loop fuel k sums e with
                  | Next e' => out e' = out e
                  | Return _ _ => True
                  | Crash | NoFuel => True
                  end).
  { apply H; try reflexivity.
    - intros e0 H0.
      destruct (refill_frame e0) as (_ & _ & _ & _ & _ & -> & _). exact H0.
    - intros e0 H0 _.
      pose proof (encode_block_effect sums e0) as Heff.
      destruct (encode_block sums e0) as [e' | r e' | |]; try exact I.
      destruct Heff as (token & w & r & _ & _ & Htok & _ & _ & Hcase).
      destruct Hcase as [(Hpos & _) | (_ & _ & Ho & _)].
      + specialize (Hnone r (sub (buf (inbuf e0)) (cursor (inbuf e0))
                               (this_block_len e0)) (this_block_len e0)).
        lia.
      + congruence.
    - intros e0 H0 _ _.
      destruct (slide_frame e0) as (_ & _ & _ & _ & _ & -> & _). exact H0.
    - intros e0 H0 _ _.
      destruct (slide_frame e0) as (_ & _ & _ & _ & _ & -> & _). exact H0. }
  destruct (encode_loop fuel k sums e); try exact I. exact Hgoal.
Qed.

(** X6.  When no lookup finds a block of the old file, a run that returns
    1 has sent the whole new file as one literal (none if the file is
    empty), between the header and the signature chunk, and no copy. *)
Theorem nothing_found_one_literal (fuel : nat) (sigs up : stream) (k : sink)
    (s : hs_stats_t) (e : enc_t) :
  0 < old_block_len sigs ->
  old_block_len sigs <= alloc_len (old_block_len sigs) ->
  (forall r bs n, _hs_find_in_hash r bs n (old_sums sigs) <= 0) ->
  hs_encode fuel sigs up k s = Return 1 e ->
  appended k e =
    Magic (u32 HS_LT_MAGIC) ::
    flushed (data up) ++
    [Signature (new_signature (old_block_len sigs) (trace e)); Eof] /\
  copy_cmds (stats e) = 0 /\ lit_bytes (stats e) = zlen (data up).
Proof.
  intros Hb Ha Hnone Hrun.
  destruct (hs_encode_cases sigs k) as [[Hok Hq] | Hbad].
  2:{ destruct (hs_encode_refused fuel sigs up k s Hbad)
        as (ret & e' & H & Hneg & _).
      rewrite Hrun in H. injection H as <- _. lia. }
  rewrite (hs_encode_run fuel sigs up k s Hok Hq) in Hrun.
  destruct (littok_header_taken k Hq) as (_ & Hk1 & _).
  set (b := old_block_len sigs) in *.
  assert (Ha0 : 0 <= alloc_len b) by lia.
  pose proof (encode_loop_stream (old_sums sigs) (data up) b
                (written (after_header k)) fuel fuel
                (start b up (after_header k))
                (wf_head_start b up _ Hb Ha)
                (window_ok_start b up _ Ha0)
                (stream_ok_start b up _)) as Hloop.
  pose proof (encode_loop_quiet fuel fuel (old_sums sigs)
                (start b up (after_header k)) Hnone) as Hquiet.
  destruct (encode_loop _ _ _ _) as [eL | r e' | |]; try discriminate.
  2:{ injection Hrun as -> _. lia. }
  destruct Hloop as ((body & Hw & _ & Hexp & _ & Hst & Hsg & _) & Hend).
  assert (Hbody : body = []).
  { rewrite Hquiet in Hw. cbn [start out] in Hw.
    rewrite <- (app_nil_r (written (after_header k))) in Hw at 1.
    apply app_inv_head in Hw. symmetry; exact Hw. }
  subst body. cbn [expand app] in Hexp. rewrite Hend, sub_all in Hexp.
  assert (Hne : sig_tmpbuf eL <> []).
  { rewrite Hsg. unfold new_signature, netlong. discriminate. }
  destruct (encode_finish_effect eL e Hne Hrun) as (Hw' & Hs' & Ht').
  rewrite Hquiet in Hw'. cbn [start out] in Hw'.
  rewrite Hk1, Hexp, Hsg, <- Ht', <- app_assoc in Hw'.
  split.
  { unfold appended. rewrite Hw', skipn_app_l. reflexivity. }
  rewrite Hs', Hst, Hexp.
  destruct (data up) as [| c m]; split; reflexivity.
Qed.

End NothingFound.

(** ** Ways out of [hs_encode] *)

Section Codes.

Context {C : collaborators}.



Lemma encode_finish_code (e e' : enc_t) (ret : Z) :
  encode_finish e = Return ret e' -> ret = 1 \/ ret = -1.
Proof.
  unfold encode_finish.
  destruct (_hs_flush_literal_buf (lit_tmpbuf e) (out e) (stats e) op_literal_1)
    as [[[r m] k] s] eqn:Hf.
  apply flush_literal_effect in Hf.
  destruct Hf as [(-> & _) | ->].
  2:{ change (-1 <? 0) with true. cbv iota.
      intros H; injection H as <- _. right; reflexivity. }
  change (0 <? 0) with false; cbv iota.
  match goal with
  | |- context [_hs_flush_literal_buf ?a ?b ?c ?d] =>
      destruct (_hs_flush_literal_buf a b c d) as [[[r2 m2] k2] s2] eqn:Hf
  end.
  apply flush_literal_effect in Hf.
  destruct Hf as [(-> & _) | ->].
  2:{ change (-1 <? 0) with true. cbv iota.
      intros H; injection H as <- _. right; reflexivity. }
  change (0 <? 0) with false; cbv iota.
  unfold _hs_emit_eof, sink_write.
  destruct (quota _) as [[| q] |]; cbn [Z.ltb Z.compare];
    intros H; injection H as <- _; auto.
Qed.

(** X9.  The result of [hs_encode] is 1 or negative: it never returns 0
    and no positive code other than 1. *)
Theorem hs_encode_code (fuel : nat) (sigs up : stream) (k : sink)
    (s : hs_stats_t) (ret : Z) (e : enc_t) :
  hs_encode fuel sigs up k s = Return ret e -> ret = 1 \/ ret < 0.
Proof.
  intros Hrun.
  destruct (hs_encode_cases sigs k) as [[Hok Hq] | Hbad].
  2:{ destruct (hs_encode_refused fuel sigs up k s Hbad)
        as (ret' & e' & H & Hneg & _).
      rewrite Hrun in H. injection H as <- _. right; exact Hneg. }
  rewrite (hs_encode_run fuel sigs up k s Hok Hq) in Hrun.
  pose proof (encode_loop_return fuel fuel (old_sums sigs)
                (start (old_block_len sigs) up (after_header k))) as Hl.
  destruct (encode_loop _ _ _ _) as [eL | r e' | |]; try discriminate.
  - destruct (encode_finish_code _ _ _ Hrun); [left | right]; lia.
  - injection Hrun as <- _. right; lia.
Qed.

(** A pass with a block length of 0 for the new signature stops at the
    division in [_hs_signature_ready]. *)
Lemma encode_block_zero (sums : sum_struct) (e : enc_t) :
  new_block_len e = 0 -> havesum (rollsum e) = false ->
  encode_block sums e = Crash.
Proof.
  intros Hn Hh. unfold encode_block, _hs_update_sums, _hs_signature_ready.
  rewrite Hh. cbn [negb new_block_len with_rollsum]. rewrite Hn. reflexivity.
Qed.

(** X10.  An old signature that gives the block length 0 stops the
    program: with a new file that is not empty and a window of at least one
    byte, the first pass of the loop divides by zero in
    [_hs_signature_ready]. *)
Theorem zero_block_length_stops (fuel : nat) (sigs up : stream) (k : sink)
    (s : hs_stats_t) :
  header_ok sigs = true -> refuses k = false ->
  old_block_len sigs = 0 -> 0 < alloc_len 0 -> data up <> [] ->
  hs_encode (S fuel) sigs up k s = Crash.
Proof.
  intros Hok Hq Hb Ha Hup.
  rewrite (hs_encode_run (S fuel) sigs up k s Hok Hq), Hb.
  set (e0 := start 0 up (after_header k)).
  assert (He : readahead (refill e0) = true /\
               new_block_len (refill e0) = 0 /\
               havesum (rollsum (refill e0)) = false).
  { pose proof (stream_read_zlen (alloc_len 0 - 0) up) as Hz.
    pose proof (stream_count_pos (alloc_len 0 - 0) up) as Hp.
    assert (Hd : 0 < zlen (data up)).
    { destruct (data up); [contradiction | unfold zlen; cbn [length]; lia]. }
    unfold refill, _hs_fill_inbuf, readahead. subst e0.
    cbn [start inbuf upstream _hs_alloc_inbuf len amount].
    destruct (stream_read (alloc_len 0 - 0) up) as [bs up'].
    cbn [fst] in Hz.
    cbn [at_eof with_inbuf with_at_eof with_upstream inbuf set_cursor cursor
         amount block_len new_block_len rollsum havesum rollsum_init].
    replace (zlen bs =? 0) with false by (symmetry; apply Z.eqb_neq; lia).
    cbn [start block_len].
    split; [apply Z.leb_le; lia | split; reflexivity]. }
  destruct He as (Hr & Hn & Hh).
  cbn [encode_loop scan]. rewrite Hr, (encode_block_zero (old_sums sigs) _ Hn Hh).
  reflexivity.
Qed.

End Codes.

(** ** The header of the new signature, read back *)

Lemma of_netlong_netlong (v : Z) : of_netlong (netlong v) = u32 v.
Proof.
  unfold of_netlong, netlong. cbn [fold_left].
  assert (Hx : 0 <= u32 v < 2 ^ 32)
    by (unfold u32; apply Z.mod_pos_bound; reflexivity).
  set (x := u32 v) in *. clearbody x.
  change 255 with (Z.ones 8).
  rewrite !Z.land_ones, !Z.shiftr_div_pow2 by lia.
  change (2 ^ 24) with 16777216. change (2 ^ 16) with 65536.
  change (2 ^ 8) with 256. change (2 ^ 32) with 4294967296 in Hx.
  Z.div_mod_to_equations. lia.
Qed.

Lemma stream_read_whole4 (a b c d : Z) (l : list Z) :
  stream_read 4 (whole (a :: b :: c :: d :: l)) = ([a; b; c; d], whole l).
Proof.
  unfold stream_read, stream_count, whole. cbn [data caps tl].
  replace (Z.min 4 (zlen (a :: b :: c :: d :: l))) with 4
    by (unfold zlen; cbn [length]; lia).
  reflexivity.
Qed.

Lemma read_netlong_whole (v : Z) (l : list Z) :
  _hs_read_netlong (whole (netlong v ++ l)) = (4, u32 v, whole l).
Proof.
  unfold _hs_read_netlong.
  rewrite <- (of_netlong_netlong v).
  unfold netlong at 1. cbn [app]. rewrite stream_read_whole4.
  reflexivity.
Qed.

Section ReadBack.

Context {C : collaborators}.

(** X11.  What [_hs_newsig_header] writes is what [_hs_check_sig_version]
    and [_hs_read_blocksize] read: a signature stream that begins with the
    header written for a block length below [2^31] passes the version check
    with the count 4, and the block length read back is the one written. *)
Theorem newsig_header_read_back (b : Z) (rest : list Z) :
  0 <= b < 2 ^ 31 ->
  let sigs := whole (snd (_hs_newsig_header b []) ++ rest) in
  fst (_hs_newsig_header b []) = 0 /\
  fst (_hs_check_sig_version sigs) = 4 /\
  fst (fst (_hs_read_blocksize (snd (_hs_check_sig_version sigs)))) = 0 /\
  old_block_len sigs = b.
Proof.
  intros Hb sigs.
  assert (Hhdr : _hs_newsig_header b [] =
                 (0, netlong HS_SIG_MAGIC ++ netlong b)).
  { unfold _hs_newsig_header, membuf_write_netlong, hs_membuf_write.
    reflexivity. }
  assert (Hchk : _hs_check_sig_version sigs = (4, whole (netlong b ++ rest))).
  { subst sigs. rewrite Hhdr. cbn [snd]. rewrite <- !app_assoc.
    unfold _hs_check_sig_version. rewrite read_netlong_whole.
    change (negb (4 =? 4)) with false. cbv iota.
    rewrite Z.eqb_refl. reflexivity. }
  assert (Hu : to_int (u32 b) = b).
  { unfold to_int, u32. rewrite Z.mod_small by lia.
    replace (b <? 2 ^ 31) with true by (symmetry; apply Z.ltb_lt; lia).
    reflexivity. }
  assert (Hblk : _hs_read_blocksize (whole (netlong b ++ rest)) =
                 (0, b, whole rest)).
  { unfold _hs_read_blocksize. rewrite read_netlong_whole, Hu. reflexivity. }
  unfold old_block_len. rewrite Hhdr, Hchk. cbn [fst snd]. rewrite Hblk.
  repeat split.
Qed.

End ReadBack.

(** ** The scan goes forward *)

Lemma StronglySorted_snoc (l : list Z) (p : Z) :
  StronglySorted Z.lt l -> Forall (fun x => x < p) l ->
  StronglySorted Z.lt (l ++ [p]).
Proof.
  induction 1 as [| x l Hs IH Hx]; intros Hp; cbn [app].
  - constructor; constructor.
  - inversion Hp as [| ? ? Hxp Hlp]; subst.
    constructor; [apply IH; assumption |].
    apply Forall_app; split; [assumption | constructor; [assumption | constructor]].
Qed.

Lemma match_positions_app (t1 t2 : list event) :
  match_positions (t1 ++ t2) = match_positions t1 ++ match_positions t2.
Proof.
  induction t1 as [| [pos w h | eof base cur amt l tok] t1 IH]; cbn [app match_positions];
    [reflexivity | exact IH | rewrite IH; reflexivity].
Qed.

Section Forward.

Context {C : collaborators}.

Lemma match_positions_pass (e : enc_t) (w token : Z) :
  match_positions (hash_events e w ++ [match_event e token]) =
  [abspos (inbuf e) + cursor (inbuf e)].
Proof. unfold hash_events. destruct (_ =? _); reflexivity. Qed.

(** X12.  The lookups of a run are made at strictly increasing offsets of
    the new file, all of them inside the file: no offset is tried twice and
    the scan never goes back. *)
Theorem lookups_move_forward (fuel : nat) (sigs up : stream) (k : sink)
    (s : hs_stats_t) (ret : Z) (e : enc_t) :
  0 < old_block_len sigs ->
  old_block_len sigs <= alloc_len (old_block_len sigs) ->
  hs_encode fuel sigs up k s = Return ret e ->
  StronglySorted Z.lt (match_positions (trace e)) /\
  Forall (fun p => 0 <= p < zlen (data up)) (match_positions (trace e)).
Proof.
  intros Hb Ha Hrun.
  destruct (hs_encode_cases sigs k) as [[Hok Hq] | Hbad].
  2:{ destruct (hs_encode_refused fuel sigs up k s Hbad)
        as (ret' & e' & H & _ & _ & _ & Ht).
      rewrite Hrun in H. injection H as _ <-. rewrite Ht.
      split; constructor. }
  rewrite (hs_encode_run fuel sigs up k s Hok Hq) in Hrun.
  set (n := zlen (data up)) in *. set (b := old_block_len sigs) in *.
  set (sorted := fun (lim : Z) (e0 : enc_t) =>
                   StronglySorted Z.lt (match_positions (trace e0)) /\
                   Forall (fun p => 0 <= p < lim)
                     (match_positions (trace e0))).
  set (here := fun e0 : enc_t => abspos (inbuf e0) + cursor (inbuf e0)).
  assert (Hloop :
    match encode_loop fuel fuel (old_sums sigs) (start b up (after_header k)) with
    | Next e' => sorted n e'
    | Return _ e' => sorted n e'
    | _ => True
    end).
  { apply (encode_loop_inv (old_sums sigs)
             (fun e0 => wf_head n b e0 /\ sorted (here e0) e0)
             (fun e0 => wf n b e0 /\ sorted (here e0) e0)
             (sorted n) (fun _ e' => sorted n e')).
    - intros e0 (Hh & Hs). split; [apply wf_refill; assumption |].
      destruct (refill_frame e0) as (_ & _ & Ht & _ & _ & _ & Hab & Hc).
      destruct Hh as (_ & Hc0 & _).
      unfold sorted, here in *. rewrite Ht, Hab, Hc. rewrite Hc0 in Hs.
      exact Hs.
    - intros e0 (Hwf & Hs1 & Hs2) Hr.
      pose proof (readahead_room n b e0 Hwf Hr) as [Htbl Hin].
      pose proof (wf_encode_block (old_sums sigs) n b e0 Hwf Hr) as Hw.
      pose proof (encode_block_spec (old_sums sigs) e0) as Hs.
      assert (Hnew : forall t' token w,
                t' = trace e0 ++ hash_events e0 w ++ [match_event e0 token] ->
                StronglySorted Z.lt (match_positions t') /\
                Forall (fun p => 0 <= p < here e0 + 1) (match_positions t')).
      { intros t' token w ->.
        rewrite match_positions_app, match_positions_pass. split.
        - apply StronglySorted_snoc; [assumption |].
          eapply Forall_impl; [| exact Hs2]. cbv beta. unfold here in *. intros; lia.
        - apply Forall_app; split.
          + eapply Forall_impl; [| exact Hs2]. cbv beta. unfold here in *. intros; lia.
          + destruct Hwf as (_ & _ & _ & _ & Hcur & _ & Habs & _).
            constructor; [unfold here; lia | constructor]. }
      assert (Hlim : here e0 + 1 <= n).
      { destruct Hwf as (_ & _ & _ & _ & Hcur & _ & Habs & Hsum & _).
        pose proof (zlen_nonneg (data (upstream e0))). unfold here. lia. }
      destruct (encode_block (old_sums sigs) e0) as [e' | r e' | |];
        try exact I.
      + destruct Hw as (Hwf' & Hlt & _). split; [assumption |].
        destruct Hs as (_ & _ & token & w & Htr & Hcase).
        destruct (Hnew _ token w Htr) as [Hn1 Hn2].
        split; [assumption |].
        eapply Forall_impl; [| exact Hn2]. cbv beta.
        assert (Hab : abspos (inbuf e') = abspos (inbuf e0)).
        { destruct Hcase as [(_ & Hadv & _) | (_ & Hadv & _)];
            unfold advanced in Hadv; rewrite Hadv; reflexivity. }
        unfold here. intros; lia.
      + destruct Hs as (_ & _ & _ & token & w & Htr).
        destruct (Hnew _ token w Htr) as [Hn1 Hn2].
        split; [assumption |].
        eapply Forall_impl; [| exact Hn2]. cbv beta. unfold here in *. intros; lia.
    - intros e0 (Hwf & Hs) Hr Hae. split; [apply wf_slide; assumption |].
      destruct (slide_frame e0)
        as (_ & _ & Ht & _ & _ & _ & _ & _ & _ & Hab & Hc & _).
      unfold sorted, here in *. rewrite Ht, Hab, Hc, Z.add_0_r. exact Hs.
    - intros e0 (Hwf & Hs1 & Hs2) Hr Hae.
      destruct (wf_exit n b e0 Hwf Hr Hae) as [Hn _].
      destruct (slide_frame e0) as (_ & _ & Ht & _).
      unfold sorted, here in *. rewrite Ht, <- Hn. split; assumption.
    - split; [apply wf_head_start; assumption |].
      unfold sorted, start; cbn [trace match_positions]. split; constructor. }
  destruct (encode_loop _ _ _ _) as [eL | r e' | |]; try discriminate.
  - destruct (encode_finish_spec eL) as (ret' & e' & Hfin & Ht & _).
    rewrite Hfin in Hrun. injection Hrun as _ <-. rewrite Ht. exact Hloop.
  - injection Hrun as _ <-. exact Hloop.
Qed.

End Forward.

(** ** A fresh weak sum *)

(** X13.  With no sum held, [_hs_update_sums] computes the weak sum of the
    block under the cursor afresh and splits it: the state then holds the
    sum, its low half in [s1] and its high half in [s2], both within 16
    bits, and [weak_sum] is [s1 | (s2 << 16)]. *)
Theorem fresh_sum_held_in_halves (off : Z) (b : inbuf_t) (n : Z)
    (r : rollsum_t) :
  havesum r = false ->
  exists r',
    _hs_update_sums off b n r = Some r' /\ havesum r' = true /\
    weak_sum r' = _hs_calc_weak_sum off (sub (buf b) (cursor b) n) /\
    weak_sum r' = Z.lor (s1 r') (Z.shiftl (s2 r') 16) /\
    0 <= s1 r' < 2 ^ 16 /\ 0 <= s2 r' < 2 ^ 16.
Proof.
  intros Hh.
  destruct (_hs_update_sums off b n r) as [r' |] eqn:Hu.
  2:{ unfold _hs_update_sums in Hu. rewrite Hh in Hu. discriminate Hu. }
  destruct (fresh_sum_is_split off b n r r' Hh Hu) as (H1 & H2 & H3 & H4).
  exists r'. split; [reflexivity |]. split; [assumption |].
  split; [| split; [assumption | split; assumption]].
  unfold _hs_update_sums in Hu. rewrite Hh in Hu. cbn [negb] in Hu.
  injection Hu as <-. reflexivity.
Qed.

(** ** The reader's chunks *)

Section Chunks.

Context {C : collaborators}.
Variable sums : sum_struct.
Variable N : list Z.
Variable b : Z.

Lemma reaches_snoc (st st1 st2 : file_state) :
  reaches N b sums st st1 -> pass_on_file N b sums st1 = Some st2 ->
  reaches N b sums st st2.
Proof.
  induction 1 as [st | st st' st1 Hp Hr IH]; intros H2.
  - eapply reaches_pass; [exact H2 | apply reaches_here].
  - eapply reaches_pass; [exact Hp | apply IH, H2].
Qed.

(** The passes on the file are a function of the state: two runs that
    have both come to the end of the file are in the same state. *)
Lemma reaches_end_unique (st s1 s2 : file_state) :
  reaches N b sums st s1 -> reaches N b sums st s2 ->
  pass_on_file N b sums s1 = None -> pass_on_file N b sums s2 = None ->
  s1 = s2.
Proof.
  induction 1 as [st | st st' s1 Hp Hr IH]; intros H2 E1 E2.
  - inversion H2 as [| ? st'' ? Hp' Hr']; subst; [reflexivity | congruence].
  - inversion H2 as [| ? st'' ? Hp' Hr']; subst; [congruence |].
    rewrite Hp in Hp'. injection Hp' as <-. apply IH; assumption.
Qed.

(** A pass keeps the window on the file. *)
Lemma stream_free_pass (e : enc_t) :
  wf (zlen N) b e -> window_ok N e -> readahead e = true ->
  match encode_block sums e with
  | Next e' => wf (zlen N) b e' /\ window_ok N e'
  | _ => True
  end.
Proof.
  intros Hwf Hwin Hr.
  pose proof (wf_encode_block sums _ _ _ Hwf Hr) as Hwf'.
  pose proof (encode_block_spec sums e) as Hspec.
  destruct (encode_block sums e) as [e' | r e' | |]; try exact I.
  destruct Hwf' as (Hwf' & _). split; [assumption |].
  destruct Hspec as (_ & (Hup & _) & token & w & _ & Hcase).
  assert (Hib : exists d, advanced d e e').
  { destruct Hcase as [(_ & Ha & _) | (_ & Ha & _)]; eauto. }
  destruct Hib as (d & Hadv). unfold advanced in Hadv.
  destruct Hwin as (H1 & H2 & H3). unfold window_ok.
  rewrite Hadv, Hup. exact (conj H1 (conj H2 H3)).
Qed.

(** In the window the bytes the checksum is updated with are those of the
    file. *)
Lemma update_sums_on_file (e : enc_t) (l : Z) (r : rollsum_t) :
  window_ok N e -> 0 <= abspos (inbuf e) -> 0 <= cursor (inbuf e) ->
  abspos (inbuf e) + amount (inbuf e) <= zlen N ->
  1 <= l -> cursor (inbuf e) + l <= amount (inbuf e) ->
  _hs_update_sums CHAR_OFFSET (inbuf e) l r =
  _hs_update_sums CHAR_OFFSET
    (window N (abspos (inbuf e) + cursor (inbuf e))) l r.
Proof.
  intros Hwin Habs Hcur Hfit Hl Hin.
  pose proof (window_block N e l Hwin Habs Hcur ltac:(lia) Hin) as Hblk.
  unfold _hs_update_sums. cbn [window buf cursor amount].
  destruct (negb (havesum r)); [rewrite Hblk; reflexivity |].
  replace (cursor (inbuf e) + l - 1 <? 0) with false
    by (symmetry; apply Z.ltb_ge; lia).
  replace (abspos (inbuf e) + cursor (inbuf e) + l - 1 <? 0) with false
    by (symmetry; apply Z.ltb_ge; lia).
  replace (cursor (inbuf e) + l - 1 <=? amount (inbuf e)) with true
    by (symmetry; apply Z.leb_le; lia).
  replace (abspos (inbuf e) + cursor (inbuf e) + l - 1 <=? zlen N) with true
    by (symmetry; apply Z.leb_le; lia).
  pose proof (window_block N e l Hwin Habs Hcur ltac:(lia) Hin) as Hsub.
  assert (Hbyte : byte_at (buf (inbuf e)) (cursor (inbuf e) + l - 1) =
                  byte_at N (abspos (inbuf e) + cursor (inbuf e) + l - 1)).
  { replace (cursor (inbuf e) + l - 1) with (cursor (inbuf e) + (l - 1))
      by lia.
    replace (abspos (inbuf e) + cursor (inbuf e) + l - 1)
      with (abspos (inbuf e) + cursor (inbuf e) + (l - 1)) by lia.
    rewrite <- (byte_at_sub (buf (inbuf e)) (cursor (inbuf e)) l (l - 1))
      by lia.
    rewrite <- (byte_at_sub N (abspos (inbuf e) + cursor (inbuf e)) l (l - 1))
      by lia.
    rewrite Hsub. reflexivity. }
  rewrite Hbyte. reflexivity.
Qed.

(** A pass of the inner loop is the pass on the file. *)
Lemma pass_on_file_follows (e : enc_t) :
  wf (zlen N) b e -> window_ok N e -> readahead e = true ->
  match encode_block sums e with
  | Next e' => pass_on_file N b sums (file_view e) = Some (file_view e')
  | _ => True
  end.
Proof.
  intros Hwf Hwin Hr.
  pose proof (readahead_room _ _ _ Hwf Hr) as [Htbl Hin].
  pose proof (encode_block_effect sums e) as Heff.
  destruct (encode_block sums e) as [e' | r e' | |]; try exact I.
  destruct Heff as (token & w & r & _ & Hupd & Htok & _ & _ & Hcase).
  destruct Hwf as (Hbl & Hnbl & Hb & Hlen & Hcur & Hamt & Habs & Hsum & Heof).
  pose proof (zlen_nonneg (data (upstream e))) as Hd0.
  assert (Hl : Z.min b (zlen N - (abspos (inbuf e) + cursor (inbuf e))) =
               this_block_len e).
  { unfold this_block_len. rewrite Hbl.
    unfold readahead in Hr. rewrite Hbl in Hr.
    destruct (at_eof e).
    - rewrite (Heof eq_refl) in Hsum. unfold zlen at 1 in Hsum.
      cbn [length] in Hsum. f_equal. lia.
    - apply Z.leb_le in Hr. lia. }
  unfold pass_on_file, file_view. cbn [fpos fsum flit fout].
  replace (abspos (inbuf e) + cursor (inbuf e) <? zlen N) with true
    by (symmetry; apply Z.ltb_lt; lia).
  rewrite Hl.
  rewrite <- (update_sums_on_file e (this_block_len e) (rollsum e))
    by (try assumption; lia).
  rewrite Hupd.
  rewrite <- (window_block N e (this_block_len e)) by (try assumption; lia).
  rewrite <- Htok.
  destruct Hcase as [(Hpos & Ha & Hw & Hlit & _ & Hrs)
                    | (Hpos & Ha & Ho & Hlit & _ & Hrs)];
    unfold advanced in Ha.
  - replace (0 <? token) with true by (symmetry; apply Z.ltb_lt; lia).
    rewrite Ha, Hw, Hlit, Hrs, Hbl. cbn [abspos cursor set_cursor].
    rewrite Z.add_assoc. reflexivity.
  - replace (0 <? token) with false by (symmetry; apply Z.ltb_ge; lia).
    rewrite Ha, Ho, Hlit, Hrs, Hbl. cbn [abspos cursor set_cursor].
    rewrite Z.add_assoc. unfold _hs_roll_sums. cbn [window buf cursor].
    rewrite (window_byte N e Hwin) by lia. reflexivity.
Qed.

Lemma file_view_refill (e : enc_t) :
  cursor (inbuf e) = 0 -> file_view (refill e) = file_view e.
Proof.
  intros Hc. unfold file_view, refill, _hs_fill_inbuf.
  destruct (stream_read _ _) as [bs up']. cbn. rewrite Hc. reflexivity.
Qed.

Lemma file_view_slide (e : enc_t) : file_view (slide e) = file_view e.
Proof.
  unfold file_view, slide, _hs_slide_inbuf. cbn. rewrite Z.add_0_r.
  reflexivity.
Qed.

(** The loop as a whole is a sequence of passes on the file that comes to
    its end. *)
Lemma encode_loop_on_file (st : file_state) (fuel k : nat) (e : enc_t) :
  wf_head (zlen N) b e -> window_ok N e ->
  reaches N b sums st (file_view e) ->
  match encode_loop fuel k sums e with
  | Next e' =>
      reaches N b sums st (file_view e') /\ fpos (file_view e') = zlen N
  | _ => True
  end.
Proof.
  intros Hh Hwin Hst.
  pose proof
    (encode_loop_inv sums
       (fun e0 => wf_head (zlen N) b e0 /\ window_ok N e0 /\
                  reaches N b sums st (file_view e0))
       (fun e0 => wf (zlen N) b e0 /\ window_ok N e0 /\
                  reaches N b sums st (file_view e0))
       (fun e0 => reaches N b sums st (file_view e0) /\
                  fpos (file_view e0) = zlen N)
       (fun _ _ => True)) as Hinv.
  cbv beta in Hinv.
  assert (Hgoal :
    match encode_loop fuel k sums e with
    | Next e' =>
        reaches N b sums st (file_view e') /\ fpos (file_view e') = zlen N
    | Return _ _ => True
    | Crash | NoFuel => True
    end).
  { apply Hinv.
    - intros e0 (H1 & H2 & H3).
      split; [apply wf_refill; assumption |].
      split; [apply (window_refill N (zlen N) b); [apply H1 | assumption] |].
      rewrite file_view_refill by apply H1. assumption.
    - intros e0 (H1 & H2 & H3) Hr.
      pose proof (stream_free_pass e0 H1 H2 Hr) as Hk.
      pose proof (pass_on_file_follows e0 H1 H2 Hr) as Hp.
      destruct (encode_block sums e0) as [e' | r e' | |]; try exact I.
      destruct Hk as (Hwf' & Hwin').
      split; [assumption |]. split; [assumption |].
      eapply reaches_snoc; eassumption.
    - intros e0 (H1 & H2 & H3) Hr Hae.
      split; [apply wf_slide; assumption |].
      split; [apply (window_slide N (zlen N) b); assumption |].
      rewrite file_view_slide. assumption.
    - intros e0 (H1 & H2 & H3) Hr Hae.
      rewrite file_view_slide. split; [assumption |].
      destruct (wf_exit _ _ _ H1 Hr Hae) as [Hn _]. exact Hn.
    - split; [assumption | split; assumption]. }
  destruct (encode_loop fuel k sums e); try exact I. exact Hgoal.
Qed.

End Chunks.

Section Transparent.

Context {C : collaborators}.

Lemma before_signature (x y : list cmd) (a c : list Z) :
  x ++ [Signature a; Eof] = y ++ [Signature c; Eof] -> x = y.
Proof.
  intros H.
  change [Signature a; Eof] with ([Signature a] ++ [Eof]) in H.
  change [Signature c; Eof] with ([Signature c] ++ [Eof]) in H.
  rewrite !app_assoc in H.
  apply app_inj_tail in H as [H _]. apply app_inj_tail in H as [H _].
  exact H.
Qed.

(** A run that returns 1, as passes on the new file: the commands written
    before the signature chunk are the output of the passes on the file,
    followed by the literals pending at the end. *)
Lemma hs_encode_on_file (fuel : nat) (sigs up : stream) (k : sink)
    (s : hs_stats_t) (e : enc_t) :
  0 < old_block_len sigs ->
  old_block_len sigs <= alloc_len (old_block_len sigs) ->
  hs_encode fuel sigs up k s = Return 1 e ->
  exists st sg,
    reaches (data up) (old_block_len sigs) (old_sums sigs)
      {| fpos := 0; fsum := rollsum_init; flit := [];
         fout := written k ++ [Magic (u32 HS_LT_MAGIC)] |} st /\
    pass_on_file (data up) (old_block_len sigs) (old_sums sigs) st = None /\
    written (out e) = fout st ++ flushed (flit st) ++ [Signature sg; Eof].
Proof.
  intros Hb Ha Hrun.
  destruct (hs_encode_cases sigs k) as [[Hok Hq] | Hbad].
  2:{ destruct (hs_encode_refused fuel sigs up k s Hbad)
        as (ret & e' & H & Hneg & _).
      rewrite Hrun in H. injection H as <- _. lia. }
  rewrite (hs_encode_run fuel sigs up k s Hok Hq) in Hrun.
  destruct (littok_header_taken k Hq) as (_ & Hk1 & _).
  set (b := old_block_len sigs) in *.
  assert (Ha0 : 0 <= alloc_len b) by lia.
  pose proof (encode_loop_stream (old_sums sigs) (data up) b
                (written (after_header k)) fuel fuel
                (start b up (after_header k))
                (wf_head_start b up _ Hb Ha)
                (window_ok_start b up _ Ha0)
                (stream_ok_start b up _)) as Hloop.
  pose proof (encode_loop_on_file (old_sums sigs) (data up) b
                (file_view (start b up (after_header k))) fuel fuel
                (start b up (after_header k))
                (wf_head_start b up _ Hb Ha)
                (window_ok_start b up _ Ha0)
                (reaches_here _ _ _ _)) as Hfile.
  destruct (encode_loop _ _ _ _) as [eL | r e' | |]; try discriminate.
  2:{ injection Hrun as -> _. lia. }
  destruct Hloop as ((body & _ & _ & _ & _ & _ & Hsg & _) & _).
  destruct Hfile as (Hreach & Hend).
  assert (Hne : sig_tmpbuf eL <> []).
  { rewrite Hsg. unfold new_signature, netlong. discriminate. }
  destruct (encode_finish_effect eL e Hne Hrun) as (Hw' & _).
  exists (file_view eL), (sig_tmpbuf eL).
  split; [| split].
  - unfold file_view at 1 in Hreach.
    cbn [start inbuf _hs_alloc_inbuf abspos cursor rollsum lit_tmpbuf out]
      in Hreach.
    rewrite Hk1 in Hreach. exact Hreach.
  - unfold pass_on_file. rewrite Hend, Z.ltb_irrefl. reflexivity.
  - exact Hw'.
Qed.

(** X14.  The commands before the signature chunk do not depend on the
    way the reader of the new file hands over its data: two runs on the
    same new file, old signature and sink that both return 1, one with the
    reader cutting its reads as [caps1] says and one as [caps2] says, write
    the same literal and copy commands. *)
Theorem reader_chunks_are_transparent (fuel1 fuel2 : nat) (sigs : stream)
    (N : list Z) (caps1 caps2 : list nat) (k : sink) (s1 s2 : hs_stats_t)
    (e1 e2 : enc_t) :
  0 < old_block_len sigs ->
  old_block_len sigs <= alloc_len (old_block_len sigs) ->
  hs_encode fuel1 sigs {| data := N; caps := caps1 |} k s1 = Return 1 e1 ->
  hs_encode fuel2 sigs {| data := N; caps := caps2 |} k s2 = Return 1 e2 ->
  exists body sg1 sg2,
    appended k e1 = Magic (u32 HS_LT_MAGIC) :: body ++ [Signature sg1; Eof] /\
    appended k e2 = Magic (u32 HS_LT_MAGIC) :: body ++ [Signature sg2; Eof].
Proof.
  intros Hb Ha Hrun1 Hrun2.
  destruct (hs_encode_on_file _ _ _ _ _ _ Hb Ha Hrun1)
    as (st1 & sg1 & Hr1 & He1 & Hw1).
  destruct (hs_encode_on_file _ _ _ _ _ _ Hb Ha Hrun2)
    as (st2 & sg2 & Hr2 & He2 & Hw2).
  cbn [data] in *.
  pose proof (reaches_end_unique _ _ _ _ _ _ Hr1 Hr2 He1 He2) as <-.
  destruct (hs_encode_appended _ _ _ _ _ _ Hb Ha Hrun1)
    as (body & Hwa & Happ & _).
  rewrite Hwa, Happ in Hw1.
  exists body, (new_signature (old_block_len sigs) (trace e1)), sg2.
  split; [exact Happ |].
  unfold appended. rewrite Hw2.
  assert (Hpre : fout st1 ++ flushed (flit st1) =
                 written k ++ Magic (u32 HS_LT_MAGIC) :: body).
  { change (written k ++ Magic (u32 HS_LT_MAGIC) ::
            body ++ [Signature (new_signature (old_block_len sigs) (trace e1)); Eof])
      with (written k ++ (Magic (u32 HS_LT_MAGIC) :: body) ++
            [Signature (new_signature (old_block_len sigs) (trace e1)); Eof])
      in Hw1.
    rewrite !app_assoc in Hw1.
    apply before_signature in Hw1. symmetry. exact Hw1. }
  rewrite app_assoc, Hpre, <- app_assoc, skipn_app_l. reflexivity.
Qed.

End Transparent.

(** ** Nothing left behind *)

Section Drained.

Context {C : collaborators}.

Lemma encode_finish_buffers (e e' : enc_t) :
  encode_finish e = Return 1 e' ->
  upstream e' = upstream e /\ lit_tmpbuf e' = [] /\ sig_tmpbuf e' = [].
Proof.
  unfold encode_finish.
  destruct (_hs_flush_literal_buf (lit_tmpbuf e) (out e) (stats e) op_literal_1)
    as [[[ret m] k] s] eqn:Hf.
  apply flush_literal_effect in Hf.
  destruct Hf as [(-> & -> & _) | ->]; [| discriminate].
  change (0 <? 0) with false; cbv iota.
  cbn [with_stats with_out with_lit_tmpbuf sig_tmpbuf out stats].
  destruct (_hs_flush_literal_buf (sig_tmpbuf e) k s op_signature_1)
    as [[[ret m] k2] s2] eqn:Hf.
  apply flush_literal_effect in Hf.
  destruct Hf as [(-> & -> & _) | ->]; [| discriminate].
  change (0 <? 0) with false; cbv iota.
  cbn [with_stats with_out with_sig_tmpbuf out].
  unfold _hs_emit_eof, sink_write.
  destruct (quota k2) as [[| q] |]; cbn [fst snd Z.ltb Z.compare];
    intros H; try discriminate H; injection H as <-; repeat split.
Qed.

(** X15.  A run that returns 1 has read the new file to its end and has
    left nothing behind in its buffers: the source is used up, the whole of
    the window has been gone through, and the literal and the signature
    buffer have been flushed. *)
Theorem input_read_to_the_end (fuel : nat) (sigs up : stream) (k : sink)
    (s : hs_stats_t) (e : enc_t) :
  0 < old_block_len sigs ->
  old_block_len sigs <= alloc_len (old_block_len sigs) ->
  hs_encode fuel sigs up k s = Return 1 e ->
  data (upstream e) = [] /\
  abspos (inbuf e) = zlen (data up) /\ amount (inbuf e) = 0 /\
  lit_tmpbuf e = [] /\ sig_tmpbuf e = [].
Proof.
  intros Hb Ha Hrun.
  destruct (hs_encode_cases sigs k) as [[Hok Hq] | Hbad].
  2:{ destruct (hs_encode_refused fuel sigs up k s Hbad)
        as (ret & e' & H & Hneg & _).
      rewrite Hrun in H. injection H as <- _. lia. }
  rewrite (hs_encode_run fuel sigs up k s Hok Hq) in Hrun.
  set (n := zlen (data up)) in *. set (b := old_block_len sigs) in *.
  assert (Hloop :
    match encode_loop fuel fuel (old_sums sigs) (start b up (after_header k)) with
    | Next e' =>
        data (upstream e') = [] /\ abspos (inbuf e') = n /\
        amount (inbuf e') = 0
    | Return r _ => r = -1
    | _ => True
    end).
  { apply (encode_loop_inv (old_sums sigs) (wf_head n b) (wf n b)
             (fun e' => data (upstream e') = [] /\ abspos (inbuf e') = n /\
                        amount (inbuf e') = 0)
             (fun r _ => r = -1)).
    - intros e0 H0. apply wf_refill; assumption.
    - intros e0 H0 Hr.
      pose proof (wf_encode_block (old_sums sigs) n b e0 H0 Hr) as Hw.
      pose proof (encode_block_spec (old_sums sigs) e0) as Hs.
      destruct (encode_block (old_sums sigs) e0) as [e' | r e' | |];
        try exact I; [apply Hw | apply Hs].
    - intros e0 H0 Hr Hae. apply wf_slide; assumption.
    - intros e0 H0 Hr Hae.
      destruct (wf_exit n b e0 H0 Hr Hae) as [Hn Hc].
      destruct H0 as (_ & _ & _ & _ & _ & _ & _ & _ & Heof).
      destruct (slide_frame e0)
        as (_ & _ & _ & _ & _ & _ & _ & Hu & _ & Hab & _ & Ham & _).
      rewrite Hu, Hab, Ham. split; [apply Heof, Hae | lia].
    - apply wf_head_start; assumption. }
  destruct (encode_loop _ _ _ _) as [eL | r e' | |]; try discriminate.
  2:{ injection Hrun as -> _. lia. }
  destruct Hloop as (Hd & Hab & Ham).
  destruct (encode_finish_buffers eL e Hrun) as (Hu & Hl & Hsg).
  assert (Hib : inbuf e = inbuf eL).
  { clear - Hrun. unfold encode_finish in Hrun.
    destruct (_hs_flush_literal_buf (lit_tmpbuf eL) (out eL) (stats eL) _)
      as [[[r1 m1] k1] s1].
    destruct (r1 <? 0); [injection Hrun as _ <-; reflexivity |].
    cbn [with_stats with_out with_lit_tmpbuf sig_tmpbuf out stats] in Hrun.
    destruct (_hs_flush_literal_buf (sig_tmpbuf eL) k1 s1 _)
      as [[[r2 m2] k2] s2].
    destruct (r2 <? 0); [injection Hrun as _ <-; reflexivity |].
    destruct (_hs_emit_eof _) as [r3 k3].
    destruct (r3 <? 0);
      [injection Hrun as _ <- | injection Hrun as <-]; reflexivity. }
  rewrite Hu, Hib. repeat split; assumption.
Qed.

End Drained.

(** ** The new signature of a file of whole blocks *)

Section NewSignature.

Context {C : collaborators}.
Variable sums : sum_struct.
Variable N : list Z.
Variable b : Z.









End NewSignature.

Section WholeBlocks.

Context {C : collaborators}.


End WholeBlocks.

(** ** Copies and lookups *)

Section Copies.

Context {C : collaborators}.






End Copies.

(** ** Literals and lookups *)

Section Literals.

Context {C : collaborators}.

Lemma literals_app (a c : list cmd) :
  literals (a ++ c) = literals a ++ literals c.
Proof. apply flat_map_app. Qed.

Lemma literals_flushed (m : list Z) : literals (flushed m) = m.
Proof.
  destruct m as [| c m]; [reflexivity |].
  unfold literals, flushed. cbn [flat_map]. apply app_nil_r.
Qed.

Lemma literal_of_pass (N : list Z) (e : enc_t) (w token : Z) :
  flat_map (literal_of N) (hash_events e w ++ [match_event e token]) =
  if 0 <? token then []
  else [byte_at N (abspos (inbuf e) + cursor (inbuf e))].
Proof.
  unfold hash_events, match_event.
  destruct (_ =? _); cbn [app flat_map literal_of];
    destruct (0 <? token); reflexivity.
Qed.

(** The loop as a whole: the literal bytes written or pending are those
    the lookups of the trace ask for. *)
Lemma encode_loop_literals (N : list Z) (b : Z) (pre : list cmd)
    (fuel k : nat) (sums : sum_struct) (e : enc_t) :
  wf_head (zlen N) b e -> window_ok N e ->
  literals (written (out e)) ++ lit_tmpbuf e =
    literals pre ++ flat_map (literal_of N) (trace e) ->
  match encode_loop fuel k sums e with
  | Next e' =>
      literals (written (out e')) ++ lit_tmpbuf e' =
      literals pre ++ flat_map (literal_of N) (trace e')
  | _ => True
  end.
Proof.
  intros Hh Hwin Hl.
  pose proof
    (encode_loop_inv sums
       (fun e0 => wf_head (zlen N) b e0 /\ window_ok N e0 /\
                  literals (written (out e0)) ++ lit_tmpbuf e0 =
                  literals pre ++ flat_map (literal_of N) (trace e0))
       (fun e0 => wf (zlen N) b e0 /\ window_ok N e0 /\
                  literals (written (out e0)) ++ lit_tmpbuf e0 =
                  literals pre ++ flat_map (literal_of N) (trace e0))
       (fun e0 => literals (written (out e0)) ++ lit_tmpbuf e0 =
                  literals pre ++ flat_map (literal_of N) (trace e0))
       (fun _ _ => True)) as Hinv.
  cbv beta in Hinv.
  assert (Hgoal :
    match encode_loop fuel k sums e with
    | Next e' =>
        literals (written (out e')) ++ lit_tmpbuf e' =
        literals pre ++ flat_map (literal_of N) (trace e')
    | Return _ _ => True
    | Crash | NoFuel => True
    end).
  { apply Hinv.
    - intros e0 (H1 & H2 & H3).
      destruct (refill_frame e0) as (_ & _ & Ht & _ & Hlt & Ho & _).
      split; [apply wf_refill; assumption |].
      split; [apply (window_refill N (zlen N) b); [apply H1 | assumption] |].
      rewrite Ht, Hlt, Ho. assumption.
    - intros e0 (H1 & H2 & H3) Hr.
      pose proof (readahead_room _ _ _ H1 Hr) as [Htbl Hin].
      pose proof (stream_free_pass sums N b e0 H1 H2 Hr) as Hk.
      pose proof (encode_block_effect sums e0) as Heff.
      destruct (encode_block sums e0) as [e' | r e' | |]; try exact I.
      destruct Hk as (Hwf' & Hwin').
      split; [assumption |]. split; [assumption |].
      destruct Heff as (token & w & r & _ & _ & _ & Htr & _ & Hcase).
      rewrite Htr, flat_map_app, literal_of_pass, app_assoc, <- H3.
      destruct H1 as (_ & _ & _ & _ & Hcur & _ & Habs & _).
      destruct Hcase as [(Hpos & _ & Hw & Hlt & _) | (Hpos & _ & Ho & Hlt & _)].
      + replace (0 <? token) with true by (symmetry; apply Z.ltb_lt; lia).
        rewrite Hw, Hlt, !literals_app, literals_flushed.
        cbn [literals flat_map]. rewrite !app_nil_r. reflexivity.
      + replace (0 <? token) with false by (symmetry; apply Z.ltb_ge; lia).
        rewrite Ho, Hlt, (window_byte N e0 H2) by lia.
        rewrite app_assoc. reflexivity.
    - intros e0 (H1 & H2 & H3) Hr Hae.
      destruct (slide_frame e0) as (_ & _ & Ht & _ & Hlt & Ho & _).
      split; [apply wf_slide; assumption |].
      split; [apply (window_slide N (zlen N) b); assumption |].
      rewrite Ht, Hlt, Ho. assumption.
    - intros e0 (H1 & H2 & H3) _ _.
      destruct (slide_frame e0) as (_ & _ & Ht & _ & Hlt & Ho & _).
      rewrite Ht, Hlt, Ho. assumption.
    - split; [assumption | split; assumption]. }
  destruct (encode_loop fuel k sums e); try exact I. exact Hgoal.
Qed.

(** X23.  The bytes the literals of a run that returns 1 carry are the
    bytes of the new file at the offsets where a lookup found nothing, one
    byte for each such lookup and in the order of the lookups. *)
Theorem literals_follow_lookups (fuel : nat) (sigs up : stream) (k : sink)
    (s : hs_stats_t) (e : enc_t) :
  0 < old_block_len sigs ->
  old_block_len sigs <= alloc_len (old_block_len sigs) ->
  hs_encode fuel sigs up k s = Return 1 e ->
  literals (appended k e) = flat_map (literal_of (data up)) (trace e).
Proof.
  intros Hb Ha Hrun.
  destruct (hs_encode_appended fuel sigs up k s e Hb Ha Hrun)
    as (body & Hwa & _).
  destruct (hs_encode_cases sigs k) as [[Hok Hq] | Hbad].
  2:{ destruct (hs_encode_refused fuel sigs up k s Hbad)
        as (ret & e' & H & Hneg & _).
      rewrite Hrun in H. injection H as <- _. lia. }
  rewrite (hs_encode_run fuel sigs up k s Hok Hq) in Hrun.
  destruct (littok_header_taken k Hq) as (_ & Hk1 & _).
  set (b := old_block_len sigs) in *.
  assert (Ha0 : 0 <= alloc_len b) by lia.
  pose proof (encode_loop_stream (old_sums sigs) (data up) b
                (written (after_header k)) fuel fuel
                (start b up (after_header k))
                (wf_head_start b up _ Hb Ha)
                (window_ok_start b up _ Ha0)
                (stream_ok_start b up _)) as Hloop.
  pose proof (encode_loop_literals (data up) b (written (after_header k))
                fuel fuel (old_sums sigs) (start b up (after_header k))
                (wf_head_start b up _ Hb Ha)
                (window_ok_start b up _ Ha0)) as Hlit.
  cbn [start out trace flat_map lit_tmpbuf] in Hlit.
  specialize (Hlit eq_refl).
  destruct (encode_loop _ _ _ _) as [eL | r e' | |]; try discriminate.
  2:{ injection Hrun as -> _. lia. }
  destruct Hloop as ((body' & _ & _ & _ & _ & _ & Hsg & _) & _).
  assert (Hne : sig_tmpbuf eL <> []).
  { rewrite Hsg. unfold new_signature, netlong. discriminate. }
  destruct (encode_finish_effect eL e Hne Hrun) as (Hw' & _ & Ht').
  assert (Hall : literals (written (out e)) =
                 literals (written k) ++
                 flat_map (literal_of (data up)) (trace e)).
  { rewrite Hw', Ht', !literals_app, literals_flushed.
    cbn [literals flat_map]. rewrite !app_nil_r, Hlit, Hk1, literals_app.
    cbn [literals flat_map]. rewrite !app_nil_r. reflexivity. }
  rewrite Hwa, literals_app in Hall.
  apply app_inv_head in Hall. exact Hall.
Qed.

End Literals.

(** ** Runs of the sample instance *)

Import Sample.

(** C1.  The old file is the one block [abcd] and so is the new file.  The
    lookup finds the block, token 1, and the command written is
    [Copy 4 4]: its offset is [token * block_len], one block past the
    place of the block in the old file, not [(token - 1) * block_len]. *)
Theorem first_block_is_copied_from_block_len :
  exists e,
    encode 20 (whole (signature_of 4 abcd)) (whole abcd) open_sink stats_zero
      = Return 1 e /\
    In (EvMatch false 0 0 4 4 1) (trace e) /\
    In (Copy (1 * block_len e) 4) (written (out e)) /\
    ~ In (Copy ((1 - 1) * block_len e) 4) (written (out e)).
Proof.
  eexists; split; [vm_compute; reflexivity |].
  split; [vm_compute; tauto |].
  split; [vm_compute; tauto |].
  vm_compute. intros [H | [H | [H | [H | []]]]]; discriminate H.
Qed.

(** C4.  The new file is [abcdef], blocks of 4, an old signature without
    blocks.  The hash of the final block, at offset 4, is taken while two
    bytes are left: the strong sum is computed over four bytes, [ef] and
    the two stale bytes behind them in the window, and the weak sum written
    is not the weak sum of [ef]. *)
Theorem final_block_hash_reaches_past_input :
  exists e w hashed,
    encode 20 (whole (signature_of 4 [])) (whole abcdef) open_sink stats_zero
      = Return 1 e /\
    In (EvBlockHash 4 w hashed) (trace e) /\
    In (EvMatch true 3 1 3 2 0) (trace e) /\
    hashed = [101; 102; 100; 101] /\
    hashed <> sub abcdef 4 2 /\
    w <> _hs_calc_weak_sum char_offset (sub abcdef 4 2).
Proof.
  eexists; eexists; eexists.
  split; [vm_compute; reflexivity |].
  split; [vm_compute; do 5 right; left; reflexivity |].
  split; [vm_compute; tauto |].
  split; [reflexivity |].
  split; vm_compute; discriminate.
Qed.




(** *** The theorems at work *)

Lemma literal_and_copy_bytes_cover_input_witness :
  exists e,
    encode 20 (whole (signature_of 4 abcd)) (whole xabcdyyy) open_sink
      stats_zero = Return 1 e /\
    lit_bytes (stats e) + copy_bytes (stats e) = 8.
Proof.
  eexists; split; [vm_compute; reflexivity |].
  refine (literal_and_copy_bytes_cover_input (C := sample) 20
            (whole (signature_of 4 abcd)) (whole xabcdyyy) open_sink
            stats_zero _ _ _ _).
  - vm_compute; reflexivity.
  - vm_compute; discriminate.
  - vm_compute; reflexivity.
Defined.

Lemma match_only_within_window_witness :
  exists e,
    encode 20 (whole (signature_of 4 [])) (whole abcdef) open_sink stats_zero
      = Return 1 e /\
    Forall (match_ok (block_len e)) (trace e).
Proof.
  eexists; split; [vm_compute; reflexivity |].
  refine (match_only_within_window (C := sample) 20
            (whole (signature_of 4 [])) (whole abcdef) open_sink
            stats_zero 1 _ _).
  vm_compute; reflexivity.
Defined.


(** The rolled sum and the fresh sum agree on [abcdef]: no window sums to
    more than 16 bits. *)
Lemma roll_agrees_on_abcdef :
  exists r,
    roll_to char_offset abcdef 4 2 = Some r /\
    weak_sum r = _hs_calc_weak_sum char_offset (sub abcdef 2 4).
Proof.
  refine (roll_agrees_without_carry char_offset abcdef 4 2 _ _ _).
  - reflexivity.
  - vm_compute; discriminate.
  - intros c Hc.
    do 3 (destruct c as [| c];
          [vm_compute; split; [discriminate | reflexivity] |]).
    lia.
Defined.




Lemma commands_spell_input_witness :
  exists e,
    encode 20 (whole (signature_of 4 abcd)) (whole xabcdyyy) open_sink
      stats_zero = Return 1 e /\
    expand xabcdyyy 0 (appended open_sink e) = xabcdyyy.
Proof.
  eexists; split; [vm_compute; reflexivity |].
  refine (commands_spell_input (C := sample) 20
            (whole (signature_of 4 abcd)) (whole xabcdyyy) open_sink
            stats_zero _ _ _ _).
  - vm_compute; reflexivity.
  - vm_compute; discriminate.
  - vm_compute; reflexivity.
Defined.


Lemma whole_block_hashes_cover_blocks_witness :
  exists e,
    encode 20 (whole (signature_of 4 abcd)) (whole abcdyyyyabcd) open_sink
      stats_zero = Return 1 e /\
    Forall
      (whole_block_hash abcdyyyyabcd
         (old_block_len (whole (signature_of 4 abcd))))
      (trace e).
Proof.
  eexists; split; [vm_compute; reflexivity |].
  refine (whole_block_hashes_cover_blocks (C := sample) 20
            (whole (signature_of 4 abcd)) (whole abcdyyyyabcd) open_sink
            stats_zero _ _ _ _).
  - vm_compute; reflexivity.
  - vm_compute; discriminate.
  - vm_compute; reflexivity.
Defined.

Lemma nothing_found_one_literal_witness :
  exists e,
    encode 20 (whole (signature_of 4 [])) (whole abcdef) open_sink stats_zero
      = Return 1 e /\
    appended open_sink e =
      Magic (u32 HS_LT_MAGIC) ::
      flushed abcdef ++
      [Signature
         (new_signature (old_block_len (whole (signature_of 4 []))) (trace e));
       Eof] /\
    copy_cmds (stats e) = 0 /\ lit_bytes (stats e) = zlen abcdef.
Proof.
  eexists; split; [vm_compute; reflexivity |].
  refine (nothing_found_one_literal (C := sample) 20
            (whole (signature_of 4 [])) (whole abcdef) open_sink
            stats_zero _ _ _ _ _).
  - vm_compute; reflexivity.
  - vm_compute; discriminate.
  - intros r bs n. vm_compute; discriminate.
  - vm_compute; reflexivity.
Defined.



Lemma hs_encode_code_witness :
  exists ret e,
    encode 20 (whole (signature_of 4 abcd)) (whole xabcdyyy) tight_sink
      stats_zero = Return ret e /\
    (ret = 1 \/ ret < 0).
Proof.
  eexists; eexists; split; [vm_compute; reflexivity |].
  refine (hs_encode_code (C := sample) 20
            (whole (signature_of 4 abcd)) (whole xabcdyyy) tight_sink
            stats_zero _ _ _).
  vm_compute; reflexivity.
Defined.

Lemma zero_block_length_stops_witness :
  hs_encode (C := roomy) 1 (whole (netlong sig_magic ++ netlong 0))
    (whole abcd) open_sink stats_zero = Crash.
Proof.
  refine (zero_block_length_stops (C := roomy) 0
            (whole (netlong sig_magic ++ netlong 0)) (whole abcd) open_sink
            stats_zero _ _ _ _ _).
  - vm_compute; reflexivity.
  - reflexivity.
  - vm_compute; reflexivity.
  - vm_compute; reflexivity.
  - discriminate.
Defined.

Lemma newsig_header_read_back_witness :
  let sigs := whole (snd (_hs_newsig_header 4 []) ++ []) in
  fst (_hs_newsig_header 4 []) = 0 /\
  fst (_hs_check_sig_version sigs) = 4 /\
  fst (fst (_hs_read_blocksize (snd (_hs_check_sig_version sigs)))) = 0 /\
  old_block_len sigs = 4.
Proof.
  refine (newsig_header_read_back (C := sample) 4 [] _).
  split; [discriminate | reflexivity].
Defined.

Lemma lookups_move_forward_witness :
  exists e,
    encode 20 (whole (signature_of 4 abcd)) (whole xabcdyyy) open_sink
      stats_zero = Return 1 e /\
    StronglySorted Z.lt (match_positions (trace e)) /\
    Forall (fun p => 0 <= p < zlen xabcdyyy) (match_positions (trace e)).
Proof.
  eexists; split; [vm_compute; reflexivity |].
  refine (lookups_move_forward (C := sample) 20
            (whole (signature_of 4 abcd)) (whole xabcdyyy) open_sink
            stats_zero 1 _ _ _ _).
  - vm_compute; reflexivity.
  - vm_compute; discriminate.
  - vm_compute; reflexivity.
Defined.

Lemma fresh_sum_held_in_halves_witness :
  exists r',
    _hs_update_sums char_offset (window abcd 0) 4 rollsum_init = Some r' /\
    havesum r' = true /\
    weak_sum r' = _hs_calc_weak_sum char_offset (sub abcd 0 4) /\
    weak_sum r' = Z.lor (s1 r') (Z.shiftl (s2 r') 16) /\
    0 <= s1 r' < 2 ^ 16 /\ 0 <= s2 r' < 2 ^ 16.
Proof.
  refine (fresh_sum_held_in_halves char_offset (window abcd 0) 4
            rollsum_init _).
  reflexivity.
Defined.

Lemma wrong_magic_rejected_witness :
  exists e,
    encode 5 (whole [1; 2; 3; 4; 0; 0; 0; 4]) (whole abcd) open_sink
      stats_zero = Return (-1) e /\
    out e = open_sink /\ stats e = stats_zero.
Proof.
  refine (wrong_magic_rejected (C := sample) 5
            (whole [1; 2; 3; 4; 0; 0; 0; 4]) (whole abcd) open_sink
            stats_zero 16909060 (whole [0; 0; 0; 4]) _ _).
  - vm_compute; reflexivity.
  - vm_compute; discriminate.
Defined.

Lemma truncated_stream_rejected_witness :
  0 <= fst (_hs_check_sig_version (whole [103; 100])) /\
  exists e,
    encode 5 (whole [103; 100]) (whole abcd) open_sink stats_zero
      = Return (-1) e /\
    out e = open_sink /\ stats e = stats_zero.
Proof.
  refine (truncated_stream_rejected (C := sample) 5 (whole [103; 100])
            (whole abcd) open_sink stats_zero _).
  vm_compute; reflexivity.
Defined.


Lemma hs_encode_succeeds_witness :
  exists e,
    encode 20 (whole (signature_of 4 abcd)) (whole xabcdyyy) open_sink
      stats_zero = Return 1 e.
Proof.
  refine (hs_encode_succeeds (C := sample) 20
            (whole (signature_of 4 abcd)) (whole xabcdyyy) open_sink
            stats_zero _ _ _ _ _ _).
  - vm_compute; reflexivity.
  - reflexivity.
  - vm_compute; reflexivity.
  - vm_compute; discriminate.
  - vm_compute; discriminate.
  - vm_compute; reflexivity.
Defined.

Lemma reader_chunks_are_transparent_witness :
  exists e1 e2,
    encode 20 (whole (signature_of 4 abcd))
      {| data := xabcdyyy; caps := [] |} open_sink stats_zero = Return 1 e1 /\
    encode 20 (whole (signature_of 4 abcd))
      {| data := xabcdyyy; caps := [3%nat; 1%nat; 2%nat] |} open_sink
      stats_zero = Return 1 e2 /\
    exists body sg1 sg2,
      appended open_sink e1 =
        Magic (u32 HS_LT_MAGIC) :: body ++ [Signature sg1; Eof] /\
      appended open_sink e2 =
        Magic (u32 HS_LT_MAGIC) :: body ++ [Signature sg2; Eof].
Proof.
  eexists; eexists.
  split; [vm_compute; reflexivity |]. split; [vm_compute; reflexivity |].
  refine (reader_chunks_are_transparent (C := sample) 20 20
            (whole (signature_of 4 abcd)) xabcdyyy []
            [3%nat; 1%nat; 2%nat] open_sink stats_zero stats_zero _ _
            _ _ _ _).
  - vm_compute; reflexivity.
  - vm_compute; discriminate.
  - vm_compute; reflexivity.
  - vm_compute; reflexivity.
Defined.

Lemma input_read_to_the_end_witness :
  exists e,
    encode 20 (whole (signature_of 4 abcd)) (whole xabcdyyy) open_sink
      stats_zero = Return 1 e /\
    data (upstream e) = [] /\
    abspos (inbuf e) = zlen xabcdyyy /\ amount (inbuf e) = 0 /\
    lit_tmpbuf e = [] /\ sig_tmpbuf e = [].
Proof.
  eexists; split; [vm_compute; reflexivity |].
  refine (input_read_to_the_end (C := sample) 20
            (whole (signature_of 4 abcd)) (whole xabcdyyy) open_sink
            stats_zero _ _ _ _).
  - vm_compute; reflexivity.
  - vm_compute; discriminate.
  - vm_compute; reflexivity.
Defined.



Lemma literals_follow_lookups_witness :
  exists e,
    encode 20 (whole (signature_of 4 abcd)) (whole xabcdyyy) open_sink
      stats_zero = Return 1 e /\
    literals (appended open_sink e) =
    flat_map (literal_of xabcdyyy) (trace e).
Proof.
  eexists; split; [vm_compute; reflexivity |].
  refine (literals_follow_lookups (C := sample) 20
            (whole (signature_of 4 abcd)) (whole xabcdyyy) open_sink
            stats_zero _ _ _ _).
  - vm_compute; reflexivity.
  - vm_compute; discriminate.
  - vm_compute; reflexivity.
Defined.
